(** * Value-id engine of velox/exec/VectorHasher.cpp

    A shallow embedding of the per-column hasher: analysis of observed
    values (range and distinct set), activation of an encoding, emission of
    value ids over flat, constant and dictionary-encoded input, the
    read-only lookup used on the probe side, and the merge of two hashers.

    Integers are [Z] with the wrap-around of the C++ types written out;
    arrays are lists updated by index; the hasher is an explicit state that
    every mutating member function takes and returns. *)

From Stdlib Require Import ZArith Lia Bool.
From stdpp Require Import base list numbers strings.

Local Open Scope Z_scope.

(** ** Machine integers *)

Definition two64 : Z := 18446744073709551616.
Definition two63 : Z := 9223372036854775808.

(** Conversion to [uint64_t]. *)
Definition u64 (x : Z) : Z := x mod two64.

(** Two's complement wrap-around to [int64_t]. *)
Definition i64 (x : Z) : Z := (x + two63) mod two64 - two63.

(** [std::numeric_limits<int64_t>::min()] and [max()]. *)
Definition kMin : Z := - two63.
Definition kMax : Z := two63 - 1.

Definition fits_i64 (x : Z) : bool := (kMin <=? x) && (x <=? kMax).
Definition fits_u64 (x : Z) : bool := (0 <=? x) && (x <? two64).

(** [__builtin_sub_overflow] on [int64_t]: the overflow flag and the
    wrapped difference. *)
Definition builtin_sub_overflow (a b : Z) : bool * Z :=
  (negb (fits_i64 (a - b)), i64 (a - b)).

(** [__builtin_mul_overflow] on [uint64_t]. *)
Definition builtin_mul_overflow (a b : Z) : bool * Z :=
  (negb (fits_u64 (a * b)), u64 (a * b)).

(** ** Constants

    VectorHasher.h is not part of the sources at hand.  The sentinels have
    the values the specification fixes; the budgets are parameters. *)

(** Modelled from the spec: [kUnmappable = ~0], declared in VectorHasher.h. *)
Definition kUnmappable : Z := two64 - 1.

(** Modelled from the spec: [kRangeTooLarge = ~0], declared in
    VectorHasher.h. *)
Definition kRangeTooLarge : Z := two64 - 1.

(** Modelled from the spec: [kNullHash = 0], declared with the vector
    layer. *)
Definition kNullHash : Z := 0.

(** Modelled from the spec: [kStringASRangeMaxSize = 7], declared in
    VectorHasher.h. *)
Definition kStringASRangeMaxSize : Z := 7.

(** Modelled from the spec: the budgets [kMaxRange], [kMaxDistinct],
    [kMaxDistinctStringsBytes] and [kStringBufferUnitSize] of
    VectorHasher.h, whose values the specification gives only as design
    defaults; every function below takes them as parameters.

    With them goes the one choice of the C++ library that the hasher's
    count of string bytes depends on: [std::string::reserve(asked)] on an
    empty string leaves a [capacity()] of at least [asked], and
    [reserveSlack asked] is by how much it exceeds it. *)
Class Limits := {
  kMaxRange : Z;
  kMaxDistinct : Z;
  kMaxDistinctStringsBytes : Z;
  kStringBufferUnitSize : Z;
  reserveSlack : Z -> N;
}.

(** ** Data model *)

Inductive TypeKind :=
| BOOLEAN | TINYINT | SMALLINT | INTEGER | BIGINT
| REAL | DOUBLE | VARCHAR | VARBINARY | TIMESTAMP
| ARRAY | MAP | ROW.

Definition isBoolean (k : TypeKind) : bool :=
  match k with BOOLEAN => true | _ => false end.

(** A [StringView] is its byte sequence. *)
Definition StringView := string.

(** The logical content of a [UniqueValue] (the class is declared in
    VectorHasher.h): an integer normalised to [int64_t], or the bytes of a
    string.  Equality and hashing of [UniqueValue] ignore the id and look
    at the content only. *)
Inductive UniqueData :=
| IntData (n : Z)
| StringData (s : StringView).

Record UniqueValue := mkUniqueValue {
  data_ : UniqueData;
  id_ : Z;
}.

Definition setId (u : UniqueValue) (i : Z) : UniqueValue :=
  {| data_ := data_ u; id_ := i |}.

Global Instance UniqueData_eq_dec : EqDecision UniqueData.
Proof. solve_decision. Defined.

(** One buffer of [uniqueValuesStorage_]: a [std::string] with its reserved
    capacity. *)
Record StringBuffer := mkStringBuffer {
  capacity : Z;
  contents : string;
}.

(** The members of [VectorHasher] that the functions of VectorHasher.cpp
    read and write.  The scratch members [decoded_] and [cachedHashes_]
    are refilled by every call that uses them and are locals of those
    calls here. *)
Record VectorHasher := mkVectorHasher {
  typeKind_ : TypeKind;
  hasRange_ : bool;
  rangeOverflow_ : bool;
  min_ : Z;
  max_ : Z;
  distinctOverflow_ : bool;
  uniqueValues_ : list UniqueValue;
  uniqueValuesStorage_ : list StringBuffer;
  distinctStringsBytes_ : Z;
  isRange_ : bool;
  multiplier_ : Z;
  rangeSize_ : Z;
}.

(** Field updates. *)
Definition withRange (h : VectorHasher) (has over : bool) (lo hi : Z)
  : VectorHasher :=
  {| typeKind_ := typeKind_ h; hasRange_ := has; rangeOverflow_ := over;
     min_ := lo; max_ := hi; distinctOverflow_ := distinctOverflow_ h;
     uniqueValues_ := uniqueValues_ h;
     uniqueValuesStorage_ := uniqueValuesStorage_ h;
     distinctStringsBytes_ := distinctStringsBytes_ h;
     isRange_ := isRange_ h; multiplier_ := multiplier_ h;
     rangeSize_ := rangeSize_ h |}.

Definition withDistinct (h : VectorHasher) (over : bool)
    (uniq : list UniqueValue) : VectorHasher :=
  {| typeKind_ := typeKind_ h; hasRange_ := hasRange_ h;
     rangeOverflow_ := rangeOverflow_ h; min_ := min_ h; max_ := max_ h;
     distinctOverflow_ := over; uniqueValues_ := uniq;
     uniqueValuesStorage_ := uniqueValuesStorage_ h;
     distinctStringsBytes_ := distinctStringsBytes_ h;
     isRange_ := isRange_ h; multiplier_ := multiplier_ h;
     rangeSize_ := rangeSize_ h |}.

Definition withStorage (h : VectorHasher) (bufs : list StringBuffer)
    (bytes : Z) : VectorHasher :=
  {| typeKind_ := typeKind_ h; hasRange_ := hasRange_ h;
     rangeOverflow_ := rangeOverflow_ h; min_ := min_ h; max_ := max_ h;
     distinctOverflow_ := distinctOverflow_ h;
     uniqueValues_ := uniqueValues_ h;
     uniqueValuesStorage_ := bufs; distinctStringsBytes_ := bytes;
     isRange_ := isRange_ h; multiplier_ := multiplier_ h;
     rangeSize_ := rangeSize_ h |}.

Definition withEncoding (h : VectorHasher) (range : bool) (mult size : Z)
  : VectorHasher :=
  {| typeKind_ := typeKind_ h; hasRange_ := hasRange_ h;
     rangeOverflow_ := rangeOverflow_ h; min_ := min_ h; max_ := max_ h;
     distinctOverflow_ := distinctOverflow_ h;
     uniqueValues_ := uniqueValues_ h;
     uniqueValuesStorage_ := uniqueValuesStorage_ h;
     distinctStringsBytes_ := distinctStringsBytes_ h;
     isRange_ := range; multiplier_ := mult; rangeSize_ := size |}.

(** Modelled from the spec: the state of a Hasher right after construction
    (the constructor is in VectorHasher.h): a fixed type kind, no observed
    range, no distinct value, no encoding chosen. *)
Definition newHasher (kind : TypeKind) : VectorHasher :=
  {| typeKind_ := kind; hasRange_ := false; rangeOverflow_ := false;
     min_ := 0; max_ := 0; distinctOverflow_ := false;
     uniqueValues_ := []; uniqueValuesStorage_ := [];
     distinctStringsBytes_ := 0;
     isRange_ := false; multiplier_ := 0; rangeSize_ := 0 |}.

(** ** The distinct table

    [uniqueValues_] is a hash set keyed by the content of its entries.  The
    model keeps the entries in insertion order. *)

Definition uniqueValues_find (d : UniqueData) (s : list UniqueValue)
  : option UniqueValue :=
  List.find (fun u => bool_decide (data_ u = d)) s.

(** [uniqueValues_.insert(u)]: the set afterwards and whether [u] went
    in. *)
Definition uniqueValues_insert (u : UniqueValue) (s : list UniqueValue)
  : list UniqueValue * bool :=
  match uniqueValues_find (data_ u) s with
  | Some _ => (s, false)
  | None => (s ++ [u], true)
  end.

Definition uniqueValues_size (s : list UniqueValue) : Z :=
  Z.of_nat (length s).

(** ** Analysis *)

Definition stringSize (s : StringView) : Z := Z.of_nat (String.length s).

(** Modelled from the spec: [stringAsNumber] of VectorHasher.h, which maps
    a string of at most seven bytes to an integer by zero-padding it and
    reading it little-endian. *)
Fixpoint stringAsNumber (s : StringView) : Z :=
  match s with
  | EmptyString => 0
  | String c rest => Z.of_N (Ascii.N_of_ascii c) + 256 * stringAsNumber rest
  end.

(** Modelled from the spec: [updateRange] of VectorHasher.h; the first
    value opens the range, later ones widen it. *)
Definition updateRange (h : VectorHasher) (n : Z) : VectorHasher :=
  if hasRange_ h
  then withRange h true (rangeOverflow_ h)
         (Z.min (min_ h) n) (Z.max (max_ h) n)
  else withRange h true (rangeOverflow_ h) n n.

(** Modelled from the spec: [analyzeValue<T>] for the integer kinds, a
    template in VectorHasher.h.  The value arrives normalised to
    [int64_t]. *)
Definition analyzeValue_int `{Limits} (h : VectorHasher) (value : Z)
  : VectorHasher :=
  let h1 := if rangeOverflow_ h then h else updateRange h value in
  if distinctOverflow_ h1 then h1
  else
    let unique :=
      {| data_ := IntData value;
         id_ := uniqueValues_size (uniqueValues_ h1) + 1 |} in
    let '(uniq, inserted) := uniqueValues_insert unique (uniqueValues_ h1) in
    withDistinct h1 (inserted && (kMaxDistinct <? uniqueValues_size uniq))
      uniq.

(** [emplace_back()] followed by
    [reserve(std::max(kStringBufferUnitSize, size))]: an empty buffer with
    the capacity that [capacity()] then reports, which is the size asked
    for or more. *)
Definition newBuffer `{Limits} (size : Z) : StringBuffer :=
  let asked := Z.max kStringBufferUnitSize size in
  {| capacity := asked + Z.of_N (reserveSlack asked); contents := "" |}.

Definition bufferAppend (b : StringBuffer) (s : string) : StringBuffer :=
  {| capacity := capacity b; contents := contents b +:+ s |}.

(** The storage with [s] appended to its last buffer. *)
Fixpoint appendToBack (bufs : list StringBuffer) (s : string)
  : list StringBuffer :=
  match bufs with
  | [] => []
  | [b] => [bufferAppend b s]
  | b :: rest => b :: appendToBack rest s
  end.

(** [copyStringToLocal]: a string longer than eight bytes is copied to the
    hasher's own storage, which grows by whole buffers.  The rebasing of
    the entry's pointer does not change the entry's content and has no
    counterpart here. *)
Definition copyStringToLocal `{Limits} (h : VectorHasher) (s : StringView)
  : VectorHasher :=
  let size := stringSize s in
  if size <=? 8 then h
  else if kMaxDistinctStringsBytes <? distinctStringsBytes_ h
  then withDistinct h true (uniqueValues_ h)
  else
    let h1 :=
      match uniqueValuesStorage_ h with
      | [] => withStorage h [newBuffer size]
                (distinctStringsBytes_ h + capacity (newBuffer size))
      | _ => h
      end in
    let str := List.last (uniqueValuesStorage_ h1) (newBuffer size) in
    let h2 :=
      if capacity str <? stringSize (contents str) + size
      then withStorage h1 (uniqueValuesStorage_ h1 ++ [newBuffer size])
             (distinctStringsBytes_ h1 + capacity (newBuffer size))
      else h1 in
    withStorage h2 (appendToBack (uniqueValuesStorage_ h2) s)
      (distinctStringsBytes_ h2).

(** [analyzeValue(StringView)]. *)
Definition analyzeValue_string `{Limits} (h : VectorHasher)
    (value : StringView) : VectorHasher :=
  let size := stringSize value in
  let h1 :=
    if rangeOverflow_ h then h
    else if kStringASRangeMaxSize <? size
    then withRange h (hasRange_ h) true (min_ h) (max_ h)
    else updateRange h (stringAsNumber value) in
  if distinctOverflow_ h1 then h1
  else
    let unique :=
      {| data_ := StringData value;
         id_ := uniqueValues_size (uniqueValues_ h1) + 1 |} in
    let '(uniq, inserted) := uniqueValues_insert unique (uniqueValues_ h1) in
    let h2 := withDistinct h1 false uniq in
    if inserted
    then if kMaxDistinct <? uniqueValues_size uniq
         then withDistinct h2 true uniq
         else copyStringToLocal h2 value
    else h2.

(** ** Cardinality and activation of an encoding *)

(** [cardinality(asRange, asDistincts)]: the two out-parameters and the
    hasher afterwards. *)
Definition cardinality `{Limits} (h : VectorHasher)
  : Z * Z * VectorHasher :=
  if isBoolean (typeKind_ h)
  then (3, 3, withRange h true (rangeOverflow_ h) (min_ h) (max_ h))
  else
    let '(asRange, h1) :=
      if negb (hasRange_ h) || rangeOverflow_ h then (kRangeTooLarge, h)
      else
        let '(overflow, signedRange) :=
          builtin_sub_overflow (max_ h) (min_ h) in
        if overflow
        then (kRangeTooLarge, withRange h (hasRange_ h) true (min_ h) (max_ h))
        else if signedRange <? kMaxRange
        then (u64 (i64 (signedRange + 2)), h)
        else (kRangeTooLarge, withRange h (hasRange_ h) true (min_ h) (max_ h))
    in
    if distinctOverflow_ h1 then (asRange, kRangeTooLarge, h1)
    else (asRange, uniqueValues_size (uniqueValues_ h1) + 1, h1).

(** [enableValueIds(multiplier, reserve)]: the returned product and the
    hasher afterwards. *)
Definition enableValueIds (h : VectorHasher) (multiplier reserve : Z)
  : Z * VectorHasher :=
  let rangeSize := u64 (uniqueValues_size (uniqueValues_ h) + 1 + reserve) in
  let h1 := withEncoding h false multiplier rangeSize in
  let '(overflow, result) := builtin_mul_overflow multiplier rangeSize in
  (if overflow then kRangeTooLarge else result, h1).

(** [enableValueRange(multiplier, reserve)].  [VELOX_CHECK(hasRange_)]
    throws after [multiplier_] has been assigned: the result is then
    [None].  The arithmetic is that of [int64_t], wrapped where C++ leaves
    it unchecked. *)
Definition enableValueRange (h : VectorHasher) (multiplier reserve : Z)
  : option Z * VectorHasher :=
  let reserve := Z.quot reserve 2 in
  let h0 := withEncoding h (isRange_ h) multiplier (rangeSize_ h) in
  if negb (hasRange_ h0) then (None, h0)
  else
    let lo :=
      if min_ h0 <? i64 (i64 (kMin + reserve) + 1) then kMin
      else i64 (min_ h0 - reserve) in
    let hi :=
      if i64 (kMax - reserve) <? max_ h0 then kMax
      else i64 (max_ h0 + reserve) in
    let rangeSize := u64 (i64 (i64 (hi - lo) + 2)) in
    let h1 :=
      withEncoding (withRange h0 (hasRange_ h0) (rangeOverflow_ h0) lo hi)
        true multiplier rangeSize in
    let '(overflow, result) := builtin_mul_overflow multiplier rangeSize in
    (Some (if overflow then kRangeTooLarge else result), h1).

(** ** Merge *)

(** The loop of [merge] over the entries of the other hasher: each one is
    given the next free id and inserted; an entry already present keeps
    its id. *)
Definition mergeUniqueValues (mine theirs : list UniqueValue)
  : list UniqueValue :=
  foldl (fun uniq value =>
           fst (uniqueValues_insert
                  (setId value (uniqueValues_size uniq + 1)) uniq))
        mine theirs.

(** [merge(other)]. *)
Definition merge (h other : VectorHasher) : VectorHasher :=
  if isBoolean (typeKind_ h) then h
  else
    let h1 :=
      if hasRange_ h && hasRange_ other
         && negb (rangeOverflow_ h) && negb (rangeOverflow_ other)
      then withRange h (hasRange_ h) (rangeOverflow_ h)
             (Z.min (min_ h) (min_ other)) (Z.max (max_ h) (max_ other))
      else withRange h false true (min_ h) (max_ h) in
    if negb (distinctOverflow_ h1) && negb (distinctOverflow_ other)
    then withDistinct h1 (distinctOverflow_ h1)
           (mergeUniqueValues (uniqueValues_ h1) (uniqueValues_ other))
    else withDistinct h1 true (uniqueValues_ h1).

(** ** The filter over the distinct values *)

(** [getFilter(nullAllowed)]: the arguments of the call of
    [common::createBigintValues] that builds the filter, or [None] for
    [nullptr].  [value.data()] is the content of the entry, an integer for
    the kinds that reach the call.  The [case] of the integer kinds has no
    [return] after its [if]: a hasher with a distinct overflow falls
    through to [default]. *)
Definition getFilter (h : VectorHasher) (nullAllowed : bool)
  : option (list UniqueData * bool) :=
  match typeKind_ h with
  | TINYINT | SMALLINT | INTEGER | BIGINT =>
      if negb (distinctOverflow_ h)
      then Some (data_ <$> uniqueValues_ h, nullAllowed)
      else None
  | _ => None
  end.

(** ** The vector layer

    Selections and decoded views belong to the vector layer, which is not
    part of the sources at hand; they are modelled as far as the hasher
    uses them. *)

(** Modelled from the spec: [SelectivityVector], a bitmap of live rows with
    the bounds [begin_] and [end_] between which the set bits lie. *)
Record SelectivityVector := mkSelectivityVector {
  bits_ : list bool;
  begin_ : nat;
  end_ : nat;
}.

(** Modelled from the spec: [rows.isValid(row)], the bit of the row. *)
Definition isValid (rows : SelectivityVector) (row : nat) : bool :=
  default false (bits_ rows !! row).

(** Modelled from the spec: the rows [applyToSelected] visits, the set
    bits between the bounds in ascending order. *)
Definition selectedRows (rows : SelectivityVector) : list nat :=
  List.filter (isValid rows) (seq (begin_ rows) (end_ rows - begin_ rows)).

(** Modelled from the spec: [rows.applyToSelected(func)], with the
    variables the lambda captures by reference threaded through as [a].
    A lambda that clears the bit of its own row does not change the rows
    visited. *)
Definition applyToSelected {A} (rows : SelectivityVector)
    (func : A -> nat -> A) (a : A) : A :=
  foldl func a (selectedRows rows).

(** Modelled from the spec: [rows.setValid(row, valid)]; the bounds stay
    as they are until [updateBounds]. *)
Definition setValid (rows : SelectivityVector) (row : nat) (valid : bool)
  : SelectivityVector :=
  {| bits_ := <[row := valid]> (bits_ rows);
     begin_ := begin_ rows; end_ := end_ rows |}.

(** Modelled from the spec: the first and the last set bit of a bitmap. *)
Fixpoint findFirstBit (bits : list bool) : option nat :=
  match bits with
  | [] => None
  | b :: rest => if b then Some 0%nat else S <$> findFirstBit rest
  end.

Fixpoint findLastBit (bits : list bool) : option nat :=
  match bits with
  | [] => None
  | b :: rest =>
      match findLastBit rest with
      | Some i => Some (S i)
      | None => if b then Some 0%nat else None
      end
  end.

(** Modelled from the spec: [rows.updateBounds()]; the bounds are
    recomputed from the bitmap, and an empty selection has both at zero. *)
Definition updateBounds (rows : SelectivityVector) : SelectivityVector :=
  match findFirstBit (bits_ rows), findLastBit (bits_ rows) with
  | Some b, Some e => {| bits_ := bits_ rows; begin_ := b; end_ := S e |}
  | _, _ => {| bits_ := bits_ rows; begin_ := 0; end_ := 0 |}
  end.

(** Modelled from the spec: [rows.clearAll()]. *)
Definition clearAll (rows : SelectivityVector) : SelectivityVector :=
  {| bits_ := replicate (length (bits_ rows)) false;
     begin_ := 0; end_ := 0 |}.

(** Modelled from the spec: [DecodedVector], the uniform view over a flat,
    constant or dictionary-encoded vector: base values, the base index of
    every row, and a null flag per row (one flag for a constant). *)
Record DecodedVector (T : Type) := mkDecodedVector {
  isConstantMapping : bool;
  isIdentityMapping : bool;
  mayHaveNulls : bool;
  nulls : list bool;
  constantIndex_ : nat;
  indices : list nat;
  values : list T;
}.

Arguments isConstantMapping {T} _.
Arguments isIdentityMapping {T} _.
Arguments mayHaveNulls {T} _.
Arguments nulls {T} _.
Arguments constantIndex_ {T} _.
Arguments indices {T} _.
Arguments values {T} _.

(** Modelled from the spec: [bits::isBitNull(nulls, row)]. *)
Definition isBitNull (nulls : list bool) (row : nat) : bool :=
  default false (nulls !! row).

(** Modelled from the spec: [decoded.isNullAt(row)]; a view that cannot
    have nulls has none, and a constant has the one flag. *)
Definition isNullAt {T} (d : DecodedVector T) (row : nat) : bool :=
  mayHaveNulls d
  && isBitNull (nulls d) (if isConstantMapping d then 0%nat else row).

(** Modelled from the spec: [decoded.index(row)], the base index of a
    row. *)
Definition index {T} (d : DecodedVector T) (row : nat) : nat :=
  if isConstantMapping d then constantIndex_ d
  else if isIdentityMapping d then row
  else indices d !!! row.

(** Modelled from the spec: [decoded.valueAt<T>(row)]. *)
Definition valueAt {T} `{Inhabited T} (d : DecodedVector T) (row : nat) : T :=
  values d !!! index d row.

(** ** Value ids *)

(** Modelled from the spec: the range branch of [valueId] in
    VectorHasher.h: a value outside [[min, max]] is unmappable, one inside
    has the id [v - min + 1]. *)
Definition valueId_range (h : VectorHasher) (n : Z) : Z :=
  if (n <? min_ h) || (max_ h <? n) then kUnmappable
  else u64 (n - min_ h + 1).

(** Modelled from the spec: the distinct branch of [valueId] in
    VectorHasher.h: the stored id of the value, or unmappable on a miss. *)
Definition valueId_distinct (h : VectorHasher) (d : UniqueData) : Z :=
  match uniqueValues_find d (uniqueValues_ h) with
  | Some u => id_ u
  | None => kUnmappable
  end.

(** Modelled from the spec: [valueId<T>] of VectorHasher.h for the integer
    kinds. *)
Definition valueId_int (h : VectorHasher) (value : Z) : Z :=
  if isRange_ h then valueId_range h value
  else valueId_distinct h (IntData value).

(** Modelled from the spec: [valueId<StringView>] of VectorHasher.h; in
    range mode the string counts through [stringAsNumber], which is
    defined up to seven bytes. *)
Definition valueId_string (h : VectorHasher) (value : StringView) : Z :=
  if isRange_ h
  then if kStringASRangeMaxSize <? stringSize value then kUnmappable
       else valueId_range h (stringAsNumber value)
  else valueId_distinct h (StringData value).

(** Modelled from the spec: [valueId(bool)] of VectorHasher.h: 1 for false,
    2 for true. *)
Definition valueId_bool (value : bool) : Z := if value then 2 else 1.

(** [result[row] = multiplier_ == 1 ? id : result[row] + multiplier_ * id]. *)
Definition writeId (h : VectorHasher) (result : list Z) (row : nat) (id : Z)
  : list Z :=
  <[row := if multiplier_ h =? 1 then id
           else u64 (result !!! row + multiplier_ h * id)]> result.

(** [if (multiplier_ == 1) result[row] = 0]. *)
Definition writeNull (h : VectorHasher) (result : list Z) (row : nat)
  : list Z :=
  if multiplier_ h =? 1 then <[row := 0]> result else result.

(** Modelled from the spec: the operations the templates over the native
    type [T] call, all declared in VectorHasher.h and taken as parameters
    here.  [valueId] and [lookupValueId] read the hasher, the second being
    the [const] counterpart of the first; [analyzeValue] updates it;
    [tryMapToRange] is the fast path that either maps a whole flat batch
    ([Some] of the ids written) or refuses ([None]). *)
Class NativeType (T : Type) := {
  native_inhabited :: Inhabited T;
  valueId : VectorHasher -> T -> Z;
  lookupValueId : VectorHasher -> T -> Z;
  analyzeValue : VectorHasher -> T -> VectorHasher;
  tryMapToRange :
    VectorHasher -> list T -> SelectivityVector -> list Z -> option (list Z);
}.

(** ** Emission: [computeValueIds]

    Every member function returns the success flag, the [result] array and
    the hasher afterwards.  [cachedHashes_] is resized and refilled at the
    start of every use, so it is a local of the function that uses it. *)

Definition Emission : Type := bool * list Z * VectorHasher.

Section MakeValueIds.
Context {T : Type} `{NativeType T}.

(** The lambda of [makeValueIdsFlatNoNulls<T>]. *)
Definition flatNoNullsRow (vals : list T) (acc : Emission) (row : nat)
  : Emission :=
  let '(success, result, h) := acc in
  let value := vals !!! row in
  if negb success then (success, result, analyzeValue h value)
  else
    let id := valueId h value in
    if id =? kUnmappable then (false, result, analyzeValue h value)
    else (success, writeId h result row id, h).

Definition makeValueIdsFlatNoNulls (h : VectorHasher) (d : DecodedVector T)
    (rows : SelectivityVector) (result : list Z) : Emission :=
  match (if isRange_ h then tryMapToRange h (values d) rows result
         else None) with
  | Some mapped => (true, mapped, h)
  | None => applyToSelected rows (flatNoNullsRow (values d)) (true, result, h)
  end.

(** The lambda of [makeValueIdsFlatWithNulls<T>]. *)
Definition flatWithNullsRow (vals : list T) (nuls : list bool)
    (acc : Emission) (row : nat) : Emission :=
  let '(success, result, h) := acc in
  if isBitNull nuls row then (success, writeNull h result row, h)
  else
    let value := vals !!! row in
    if negb success then (success, result, analyzeValue h value)
    else
      let id := valueId h value in
      if id =? kUnmappable then (false, result, analyzeValue h value)
      else (success, writeId h result row id, h).

Definition makeValueIdsFlatWithNulls (h : VectorHasher)
    (d : DecodedVector T) (rows : SelectivityVector) (result : list Z)
  : Emission :=
  applyToSelected rows (flatWithNullsRow (values d) (nulls d))
    (true, result, h).

(** The lambda of [makeValueIdsDecoded<T, mayHaveNulls>]; the last
    component is [cachedHashes_]. *)
Definition decodedRow (withNulls : bool) (d : DecodedVector T)
    (acc : Emission * list Z) (row : nat) : Emission * list Z :=
  let '(success, result, h, cachedHashes) := acc in
  if withNulls && isNullAt d row
  then (success, writeNull h result row, h, cachedHashes)
  else
    let baseIndex := indices d !!! row in
    let id := cachedHashes !!! baseIndex in
    if id =? 0 then
      let value := values d !!! baseIndex in
      if negb success
      then (success, result, analyzeValue h value, cachedHashes)
      else
        let id := valueId h value in
        if id =? kUnmappable
        then (false, result, analyzeValue h value, cachedHashes)
        else (success, writeId h result row id, h,
              <[baseIndex := id]> cachedHashes)
    else (success, writeId h result row id, h, cachedHashes).

Definition makeValueIdsDecoded (withNulls : bool) (h : VectorHasher)
    (d : DecodedVector T) (rows : SelectivityVector) (result : list Z)
  : Emission :=
  fst (applyToSelected rows (decodedRow withNulls d)
         (true, result, h, replicate (length (values d)) 0)).

(** [makeValueIds<Kind>] for a kind whose native type is [T]. *)
Definition makeValueIds (h : VectorHasher) (d : DecodedVector T)
    (rows : SelectivityVector) (result : list Z) : Emission :=
  if isConstantMapping d then
    let id := if isNullAt d (begin_ rows) then 0
              else valueId h (valueAt d (begin_ rows)) in
    if id =? kUnmappable
    then (false, result, analyzeValue h (valueAt d (begin_ rows)))
    else (true,
          applyToSelected rows (fun res row => writeId h res row id) result,
          h)
  else if isIdentityMapping d then
    if mayHaveNulls d then makeValueIdsFlatWithNulls h d rows result
    else makeValueIdsFlatNoNulls h d rows result
  else if mayHaveNulls d then makeValueIdsDecoded true h d rows result
  else makeValueIdsDecoded false h d rows result.

(** ** Lookup: [lookupValueIds]

    A [const] member function: the hasher is read and not returned.  The
    selection is the caller's and comes back changed; [hashes] is scratch
    that is refilled before use. *)

Definition lookupFlatRow (h : VectorHasher) (d : DecodedVector T)
    (acc : SelectivityVector * list Z) (row : nat)
  : SelectivityVector * list Z :=
  let '(rows, result) := acc in
  if isNullAt d row then (rows, writeNull h result row)
  else
    let id := lookupValueId h (valueAt d row) in
    if id =? kUnmappable then (setValid rows row false, result)
    else (rows, writeId h result row id).

Definition lookupDecodedRow (h : VectorHasher) (d : DecodedVector T)
    (acc : SelectivityVector * list Z * list Z) (row : nat)
  : SelectivityVector * list Z * list Z :=
  let '(rows, result, hashes) := acc in
  if isNullAt d row then (rows, writeNull h result row, hashes)
  else
    let baseIndex := index d row in
    let id := hashes !!! baseIndex in
    if id =? 0 then
      let id := lookupValueId h (valueAt d row) in
      if id =? kUnmappable then (setValid rows row false, result, hashes)
      else (rows, writeId h result row id, <[baseIndex := id]> hashes)
    else (rows, writeId h result row id, hashes).

Definition lookupValueIdsTyped (h : VectorHasher) (d : DecodedVector T)
    (rows : SelectivityVector) (result : list Z)
  : SelectivityVector * list Z :=
  if isConstantMapping d then
    if isNullAt d (begin_ rows) then
      (rows,
       if multiplier_ h =? 1
       then applyToSelected rows (fun res row => <[row := 0]> res) result
       else result)
    else
      let id := lookupValueId h (valueAt d (begin_ rows)) in
      if id =? kUnmappable then (clearAll rows, result)
      else (rows,
            applyToSelected rows (fun res row => writeId h res row id) result)
  else if isIdentityMapping d then
    let '(rows1, result1) :=
      applyToSelected rows (lookupFlatRow h d) (rows, result) in
    (updateBounds rows1, result1)
  else
    let '(rows1, result1, _) :=
      applyToSelected rows (lookupDecodedRow h d)
        (rows, result, replicate (length (values d)) 0) in
    (updateBounds rows1, result1).

End MakeValueIds.

(** ** The specialisations for [bool]

    The values of a boolean column are a bitmap; every id is 1 or 2, so
    these loops never fail and never touch the analysis. *)

Definition makeValueIdsFlatNoNulls_bool (h : VectorHasher)
    (d : DecodedVector bool) (rows : SelectivityVector) (result : list Z)
  : Emission :=
  (true,
   applyToSelected rows
     (fun res row => writeId h res row (valueId_bool (values d !!! row)))
     result,
   h).

Definition makeValueIdsFlatWithNulls_bool (h : VectorHasher)
    (d : DecodedVector bool) (rows : SelectivityVector) (result : list Z)
  : Emission :=
  (true,
   applyToSelected rows
     (fun res row =>
        if isBitNull (nulls d) row then writeNull h res row
        else writeId h res row (valueId_bool (values d !!! row)))
     result,
   h).

Definition makeValueIdsDecoded_bool (withNulls : bool) (h : VectorHasher)
    (d : DecodedVector bool) (rows : SelectivityVector) (result : list Z)
  : Emission :=
  (true,
   applyToSelected rows
     (fun res row =>
        if withNulls && isNullAt d row then writeNull h res row
        else writeId h res row
               (valueId_bool (values d !!! (indices d !!! row))))
     result,
   h).

(** ** Row-keyed emission: [makeValueIdsForRows<TypeKind::VARCHAR>]

    A group row is read through [isNullAt(groups[i], nullByte, nullMask)]
    and [valueAt<StringView>(groups[i], offset)], made contiguous by
    [HashStringAllocator::contiguousString]; these belong to the row
    container.  Modelled from the spec: the field of each group as the
    string it holds, or [None] when its null flag is set. *)
Fixpoint makeValueIdsForRows_from `{NativeType StringView}
    (h : VectorHasher) (groups : list (option StringView)) (i : nat)
    (result : list Z) : bool * list Z :=
  match groups with
  | [] => (true, result)
  | None :: rest =>
      makeValueIdsForRows_from h rest (S i) (writeNull h result i)
  | Some value :: rest =>
      let id := valueId h value in
      if id =? kUnmappable then (false, result)
      else makeValueIdsForRows_from h rest (S i) (writeId h result i id)
  end.

Definition makeValueIdsForRows_VARCHAR `{NativeType StringView}
    (h : VectorHasher) (groups : list (option StringView))
    (result : list Z) : Emission :=
  let '(success, result1) := makeValueIdsForRows_from h groups 0 result in
  (success, result1, h).

(** ** Hashing: [hashValues<Kind>]

    [hasher] stands for [folly::hasher<T>] on scalars and for the vector's
    own [hashValueAt] on complex types; [hashMix] for [bits::hashMix]. *)

Section HashValues.
Context {T : Type} `{Inhabited T}.
Variable hasher : T -> Z.
Variable hashMix : Z -> Z -> Z.

Definition hashOne (d : DecodedVector T) (row : nat) : Z :=
  hasher (valueAt d row).

(** [result[row] = mix ? bits::hashMix(result[row], hash) : hash]. *)
Definition writeHash (mix : bool) (result : list Z) (row : nat) (hash : Z)
  : list Z :=
  <[row := if mix then hashMix (result !!! row) hash else hash]> result.

Definition hashFlatRow (d : DecodedVector T) (mix : bool) (result : list Z)
    (row : nat) : list Z :=
  if isNullAt d row then writeHash mix result row kNullHash
  else writeHash mix result row (hashOne d row).

Definition hashDecodedRow (d : DecodedVector T) (mix : bool)
    (acc : list Z * list Z) (row : nat) : list Z * list Z :=
  let '(result, cachedHashes) := acc in
  if isNullAt d row then (writeHash mix result row kNullHash, cachedHashes)
  else
    let baseIndex := index d row in
    let hash := cachedHashes !!! baseIndex in
    if hash =? kNullHash then
      let hash := hashOne d row in
      (writeHash mix result row hash, <[baseIndex := hash]> cachedHashes)
    else (writeHash mix result row hash, cachedHashes).

Definition hashValues (d : DecodedVector T) (rows : SelectivityVector)
    (mix : bool) (result : list Z) : list Z :=
  if isConstantMapping d then
    let hash := if isNullAt d (begin_ rows) then kNullHash
                else hashOne d (begin_ rows) in
    applyToSelected rows (fun res row => writeHash mix res row hash) result
  else if isIdentityMapping d then
    applyToSelected rows (hashFlatRow d mix) result
  else
    fst (applyToSelected rows (hashDecodedRow d mix)
           (result, replicate (length (values d)) kNullHash)).

End HashValues.

(** ** The native types of the value-id kinds *)

(** Modelled from the spec: [tryMapToRange] of VectorHasher.h.  The
    specification names it only as the range fast path of the flat path
    without nulls; it is taken to write the ids of the whole batch when
    every selected value lies in the range and to refuse, writing nothing,
    otherwise. *)
Definition tryMapToRange_int (h : VectorHasher) (vals : list Z)
    (rows : SelectivityVector) (result : list Z) : option (list Z) :=
  if forallb (fun row => negb (valueId_range h (vals !!! row) =? kUnmappable))
       (selectedRows rows)
  then Some (foldl (fun res row =>
                      writeId h res row (valueId_range h (vals !!! row)))
               result (selectedRows rows))
  else None.

(** The integer kinds TINYINT to BIGINT, normalised to [int64_t].
    Modelled from the spec: [lookupValueId], the read-only variant, answers
    as [valueId] does. *)
#[export] Instance int64_native `{Limits} : NativeType Z := {|
  valueId := valueId_int;
  lookupValueId := valueId_int;
  analyzeValue := analyzeValue_int;
  tryMapToRange := tryMapToRange_int;
|}.

(** VARCHAR and VARBINARY.  Modelled from the spec: [lookupValueId]
    answers as [valueId] does, and strings have no fast path. *)
#[export] Instance StringView_native `{Limits} : NativeType StringView := {|
  valueId := valueId_string;
  lookupValueId := valueId_string;
  analyzeValue := analyzeValue_string;
  tryMapToRange := fun _ _ _ _ => None;
|}.

(** Modelled from the spec: BOOLEAN in the generic constant path of
    [makeValueIds]; the ids are 1 and 2, and [analyzeValue<bool>], which
    that path cannot reach, counts the value as the integer 0 or 1. *)
#[export] Instance bool_native `{Limits} : NativeType bool := {|
  valueId := fun _ value => valueId_bool value;
  lookupValueId := fun _ value => valueId_bool value;
  analyzeValue := fun h value => analyzeValue_int h (Z.b2z value);
  tryMapToRange := fun _ _ _ _ => None;
|}.

(** [makeValueIds<TypeKind::BOOLEAN>]: the generic function with the
    [bool] specialisations of the three loops. *)
Definition makeValueIds_BOOLEAN `{Limits} (h : VectorHasher)
    (d : DecodedVector bool) (rows : SelectivityVector) (result : list Z)
  : Emission :=
  if isConstantMapping d then
    let id := if isNullAt d (begin_ rows) then 0
              else valueId h (valueAt d (begin_ rows)) in
    if id =? kUnmappable
    then (false, result, analyzeValue h (valueAt d (begin_ rows)))
    else (true,
          applyToSelected rows (fun res row => writeId h res row id) result,
          h)
  else if isIdentityMapping d then
    if mayHaveNulls d then makeValueIdsFlatWithNulls_bool h d rows result
    else makeValueIdsFlatNoNulls_bool h d rows result
  else if mayHaveNulls d then makeValueIdsDecoded_bool true h d rows result
  else makeValueIdsDecoded_bool false h d rows result.

(** A decoded batch of one of the value-id kinds. *)
Inductive Column :=
| BooleanColumn (d : DecodedVector bool)
| IntegerColumn (d : DecodedVector Z)
| VarcharColumn (d : DecodedVector StringView).

(** [computeValueIds] on the batch as decoded: [VALUE_ID_TYPE_DISPATCH] on
    the hasher's kind; [None] is [VELOX_UNREACHABLE]. *)
Definition computeValueIds `{Limits} (h : VectorHasher) (batch : Column)
    (rows : SelectivityVector) (result : list Z) : option Emission :=
  match typeKind_ h, batch with
  | BOOLEAN, BooleanColumn d => Some (makeValueIds_BOOLEAN h d rows result)
  | (TINYINT | SMALLINT | INTEGER | BIGINT), IntegerColumn d =>
      Some (makeValueIds h d rows result)
  | (VARCHAR | VARBINARY), VarcharColumn d =>
      Some (makeValueIds h d rows result)
  | _, _ => None
  end.

(** Modelled from the spec: [analyze_batch], the analysis pass over the
    non-null selected values of a decoded batch. *)
Definition analyzeBatch {T} `{NativeType T} (h : VectorHasher)
    (d : DecodedVector T) (rows : SelectivityVector) : VectorHasher :=
  applyToSelected rows
    (fun h row => if isNullAt d row then h else analyzeValue h (valueAt d row))
    h.

(** ** Inputs of the worked examples *)

(** What [reserve] adds in libstdc++: an empty string has room for 15
    bytes in place, and its first allocation is never of less than twice
    that. *)
Definition libstdcxxSlack (asked : Z) : N :=
  if asked <=? 15 then Z.to_N (15 - asked)
  else if asked <? 30 then Z.to_N (30 - asked)
  else 0%N.

(** Modelled from the spec: the design defaults of the budgets (10 000
    distinct values, 1 MiB of string bytes, buffers of 1 KiB), with
    [kMaxRange] sixty-four below the largest [int64_t]; the strings are
    those of libstdc++. *)
Definition designLimits : Limits := {|
  kMaxRange := kMax - 64;
  kMaxDistinct := 10000;
  kMaxDistinctStringsBytes := 1048576;
  kStringBufferUnitSize := 1024;
  reserveSlack := libstdcxxSlack;
|}.

(** A selection of the first [n] rows, all live. *)
Definition allRows (n : nat) : SelectivityVector :=
  {| bits_ := replicate n true; begin_ := 0; end_ := n |}.

(** A flat vector: identity mapping over its values, one null flag per
    row. *)
Definition flatVector {T} (vals : list T) (nuls : list bool)
  : DecodedVector T :=
  {| isConstantMapping := false; isIdentityMapping := true;
     mayHaveNulls := existsb (fun b => b) nuls; nulls := nuls;
     constantIndex_ := 0; indices := []; values := vals |}.

(** A dictionary vector without nulls: base values and the base index of
    every row. *)
Definition dictionaryVector {T} (base : list T) (idx : list nat)
  : DecodedVector T :=
  {| isConstantMapping := false; isIdentityMapping := false;
     mayHaveNulls := false; nulls := [];
     constantIndex_ := 0; indices := idx; values := base |}.

(** The entries left by the analysis of the integers [1 .. n], in order. *)
Definition firstEntries (n : nat) : list UniqueValue :=
  (fun k : nat => {| data_ := IntData (Z.of_nat k); id_ := Z.of_nat k |})
    <$> seq 1 n.


(** ** Vocabulary of the statements *)

(** The components of an [Emission]. *)
Definition succeeded (e : Emission) : bool := fst (fst e).
Definition emitted (e : Emission) : list Z := snd (fst e).
Definition hasherAfter (e : Emission) : VectorHasher := snd e.

(** What a decoded view holds at a row: [None] for null.  Two views
    represent the same logical sequence when they agree on this at every
    row. *)
Definition logicalAt {T} `{Inhabited T} (d : DecodedVector T) (row : nat)
  : option T :=
  if isNullAt d row then None else Some (valueAt d row).

(** A row is mappable when it is null or its value has an id. *)
Definition mappableAt {T} `{NativeType T} (h : VectorHasher)
    (d : DecodedVector T) (row : nat) : bool :=
  match logicalAt d row with
  | None => true
  | Some value => negb (valueId h value =? kUnmappable)
  end.

(** The entry of a mapped row: the id itself under a multiplier of 1, the
    old entry plus the scaled id otherwise; a null row has id 0 and keeps
    its entry. *)
Definition packedAt {T} `{NativeType T} (h : VectorHasher)
    (d : DecodedVector T) (row : nat) (old : Z) : Z :=
  match logicalAt d row with
  | None => if multiplier_ h =? 1 then 0 else old
  | Some value =>
      if multiplier_ h =? 1 then valueId h value
      else u64 (old + multiplier_ h * valueId h value)
  end.

(** The [result] array has a [uint64_t] entry at every selected row. *)
Definition holdsRows (rows : SelectivityVector) (result : list Z) : Prop :=
  forall row : nat, row ∈ selectedRows rows ->
    exists old : Z, result !! row = Some old /\ 0 <= old < two64.

(** In a dictionary-encoded view every selected row that is not null
    points into the base vector. *)
Definition indicesInBase {T} (d : DecodedVector T) (rows : SelectivityVector)
  : Prop :=
  isConstantMapping d = false -> isIdentityMapping d = false ->
  forall row : nat, row ∈ selectedRows rows -> isNullAt d row = false ->
    (indices d !!! row < length (values d))%nat.

(** What the code relies on from the operations of VectorHasher.h: analysis
    leaves the multiplier alone, [lookupValueId] answers as [valueId] does,
    and a batch that [tryMapToRange] accepts in range mode has every
    selected value mapped and its ids written as the scalar loop writes
    them. *)
Class NativeTypeLaws (T : Type) `{NativeType T} : Prop := {
  analyzeValue_multiplier :
    forall (h : VectorHasher) (value : T),
      multiplier_ (analyzeValue h value) = multiplier_ h;
  lookupValueId_valueId :
    forall (h : VectorHasher) (value : T),
      lookupValueId h value = valueId h value;
  tryMapToRange_mapped :
    forall (h : VectorHasher) (vals : list T) (rows : SelectivityVector)
           (result mapped : list Z),
      isRange_ h = true ->
      tryMapToRange h vals rows result = Some mapped ->
      (forall row : nat, row ∈ selectedRows rows ->
         valueId h (vals !!! row) <> kUnmappable) /\
      mapped = foldl (fun res row =>
                        writeId h res row (valueId h (vals !!! row)))
                 result (selectedRows rows);
}.

(** The three loops of [makeValueIds] as one: [nullAt] tells the null rows,
    [valueOf] reads the value of a row, and [slot] names the entry of
    [cachedHashes_] that belongs to a row, if the loop caches at all. *)
Definition emitRow {T} `{NativeType T} (nullAt : nat -> bool)
    (valueOf : nat -> T) (slot : nat -> option nat)
    (acc : Emission * list Z) (row : nat) : Emission * list Z :=
  let '(success, result, h, cachedHashes) := acc in
  if nullAt row then (success, writeNull h result row, h, cachedHashes)
  else
    let id := match slot row with
              | Some baseIndex => cachedHashes !!! baseIndex
              | None => 0
              end in
    if id =? 0 then
      let value := valueOf row in
      if negb success
      then (success, result, analyzeValue h value, cachedHashes)
      else
        let id := valueId h value in
        if id =? kUnmappable
        then (false, result, analyzeValue h value, cachedHashes)
        else (success, writeId h result row id, h,
              match slot row with
              | Some baseIndex => <[baseIndex := id]> cachedHashes
              | None => cachedHashes
              end)
    else (success, writeId h result row id, h, cachedHashes).

(** The entry of [cachedHashes_] that [makeValueIds] keeps for a row: the
    base index under a dictionary, none for a flat vector. *)
Definition slotOf {T} (d : DecodedVector T) (row : nat) : option nat :=
  if isIdentityMapping d then None else Some (indices d !!! row).

(** Whether one of the rows [rs], not null, has the base index [b]. *)
Definition hitBy {T} (d : DecodedVector T) (rs : list nat) (b : nat) : bool :=
  existsb (fun p => negb (isNullAt d p) && bool_decide (slotOf d p = Some b))
    rs.

(** Whether the id of row [q] is in [cachedHashes_] once the rows [pre]
    have been mapped: some row of [pre] shares its base index, and the id
    is not the sentinel 0. *)
Definition cachedBefore {T} `{NativeType T} (h : VectorHasher)
    (d : DecodedVector T) (pre : list nat) (q : nat) : bool :=
  match slotOf d q with
  | Some b => hitBy d pre b && negb (valueId h (valueAt d q) =? 0)
  | None => false
  end.

(** The values [makeValueIds] passes to [analyzeValue] when [r] is the
    first unmappable row, [pre] the selected rows before it and [post]
    those after it: the value of [r], and under a flat or dictionary view
    the values of the later rows that are neither null nor cached. *)
Definition analyzedFrom {T} `{NativeType T} (h : VectorHasher)
    (d : DecodedVector T) (pre : list nat) (r : nat) (post : list nat)
  : list T :=
  if isConstantMapping d then [valueAt d r]
  else valueAt d r
       :: (valueAt d
             <$> List.filter
                   (fun q => negb (isNullAt d q)
                             && negb (cachedBefore h d pre q))
                   post).

(** Every entry of [cachedHashes_] is the sentinel 0 or the id of the base
    value it belongs to. *)
Definition cacheSound {T} `{NativeType T} (h : VectorHasher)
    (d : DecodedVector T) (cachedHashes : list Z) : Prop :=
  forall b : nat, (b < length cachedHashes)%nat ->
    cachedHashes !!! b = 0 \/ cachedHashes !!! b = valueId h (values d !!! b).

(** Whether the loop finds no id for row [q] in [cachedHashes_]. *)
Definition missAt {T} (d : DecodedVector T) (cachedHashes : list Z) (q : nat)
  : bool :=
  match slotOf d q with
  | Some baseIndex => cachedHashes !!! baseIndex
  | None => 0
  end =? 0.

(** Every entry of the cache of [hashValues] is the sentinel [kNullHash]
    or the hash of the base value it belongs to. *)
Definition hashCacheSound {T} `{Inhabited T} (hasher : T -> Z)
    (d : DecodedVector T) (cachedHashes : list Z) : Prop :=
  forall b : nat, (b < length cachedHashes)%nat ->
    cachedHashes !!! b = kNullHash \/
    cachedHashes !!! b = hasher (values d !!! b).

(** The hash of a row: [kNullHash] for null, the hash of the value
    otherwise. *)
Definition hashAt {T} `{Inhabited T} (hasher : T -> Z) (d : DecodedVector T)
    (row : nat) : Z :=
  match logicalAt d row with
  | None => kNullHash
  | Some value => hasher value
  end.

(** The ids of a distinct set number its entries in the order of their
    insertion, from 1 on, and no content is held twice. *)
Definition wellNumbered (uniq : list UniqueValue) : Prop :=
  (forall (k : nat) (u : UniqueValue),
     uniq !! k = Some u -> id_ u = Z.of_nat k + 1) /\
  NoDup (data_ <$> uniq).

(** The bytes that the buffers of a storage have reserved. *)
Definition reservedBytes (bufs : list StringBuffer) : Z :=
  foldr (fun b total => capacity b + total) 0 bufs.

(** [distinctStringsBytes_] accounts for every buffer of the storage, and
    no buffer holds more than it has reserved. *)
Definition storageSound (h : VectorHasher) : Prop :=
  distinctStringsBytes_ h = reservedBytes (uniqueValuesStorage_ h) /\
  Forall (fun b => stringSize (contents b) <= capacity b)
    (uniqueValuesStorage_ h).

(** The flat vector that holds the key fields of a list of group rows:
    the string of each row, and a null flag where the row has none. *)
Definition groupsVector (groups : list (option StringView))
  : DecodedVector StringView :=
  flatVector (default ""%string <$> groups)
    ((fun g : option StringView => bool_decide (g = None)) <$> groups).

(** * Properties *)

(** ** Machine arithmetic *)

Ltac wrap_lia :=
  unfold u64, i64, fits_i64, fits_u64, kMin, kMax, two63, two64 in *;
  Z.div_mod_to_equations; lia.

Lemma u64_small (x : Z) : 0 <= x < two64 -> u64 x = x.
Proof. wrap_lia. Qed.

Lemma i64_small (x : Z) : kMin <= x <= kMax -> i64 x = x.
Proof. wrap_lia. Qed.

Lemma u64_i64 (x : Z) : u64 (i64 x) = u64 x.
Proof. wrap_lia. Qed.

Lemma u64_i64_plus (x y : Z) : u64 (i64 (i64 x + y)) = u64 (x + y).
Proof. wrap_lia. Qed.

Lemma fits_i64_true (x : Z) : fits_i64 x = true <-> kMin <= x <= kMax.
Proof. unfold fits_i64. rewrite andb_true_iff, !Z.leb_le. tauto. Qed.

(** ** [enableValueRange] *)

(** C4, as the code has it: with a reserve that is not negative,
    [enableValueRange] pads the range by half the reserve on either side,
    saturating at the extremes of [int64_t]; it sets [rangeSize_] to
    [max - min + 2] reduced modulo 2^64, the subtraction being unchecked,
    so that [rangeSize_] is [max - min + 2] whenever that fits 64 bits,
    as it does when the range before padding is under 63 bits; and it
    returns [multiplier * rangeSize_], or [kRangeTooLarge] when this one
    product overflows. *)
Theorem enableValueRange_padded_range (h : VectorHasher)
    (multiplier reserve : Z) :
  hasRange_ h = true ->
  kMin <= min_ h <= kMax ->
  kMin <= max_ h <= kMax ->
  0 <= reserve <= kMax ->
  0 <= multiplier ->
  let lo := Z.max kMin (min_ h - reserve / 2) in
  let hi := Z.min kMax (max_ h + reserve / 2) in
  let size := (hi - lo + 2) mod two64 in
  let h' := snd (enableValueRange h multiplier reserve) in
  min_ h' = lo /\ max_ h' = hi /\
  isRange_ h' = true /\ multiplier_ h' = multiplier /\
  rangeSize_ h' = size /\
  (0 <= hi - lo + 2 < two64 -> rangeSize_ h' = hi - lo + 2) /\
  (min_ h <= max_ h -> max_ h - min_ h <= kMax ->
   rangeSize_ h' = hi - lo + 2) /\
  fst (enableValueRange h multiplier reserve)
  = Some (if multiplier * size <? two64 then multiplier * size
          else kRangeTooLarge).
Proof.
  intros Hhas Hmin Hmax Hres Hmul.
  assert (Hq : Z.quot reserve 2 = reserve / 2)
    by (apply Z.quot_div_nonneg; lia).
  assert (Hr : 0 <= reserve / 2 <= kMax /\ 2 * (reserve / 2) <= kMax)
    by (unfold kMax, two63 in *; Z.div_mod_to_equations; lia).
  cbv zeta. unfold enableValueRange. rewrite Hq. clear Hq.
  revert Hr. generalize (reserve / 2) as r. intros r [Hr Hr2].
  assert (Hlo : (if min_ h <? i64 (i64 (kMin + r) + 1) then kMin
                 else i64 (min_ h - r)) = Z.max kMin (min_ h - r)).
  { destruct (Z.ltb_spec (min_ h) (i64 (i64 (kMin + r) + 1))); wrap_lia. }
  assert (Hhi : (if i64 (kMax - r) <? max_ h then kMax
                 else i64 (max_ h + r)) = Z.min kMax (max_ h + r)).
  { destruct (Z.ltb_spec (i64 (kMax - r)) (max_ h)); wrap_lia. }
  cbn [hasRange_ withEncoding min_ max_].
  rewrite Hhas. cbn [negb]. rewrite Hlo, Hhi.
  set (lo := Z.max kMin (min_ h - r)). set (hi := Z.min kMax (max_ h + r)).
  set (size := (hi - lo + 2) mod two64).
  rewrite u64_i64_plus. fold (u64 (hi - lo + 2)).
  change (u64 (hi - lo + 2)) with size.
  assert (Hsz : 0 <= size < two64)
    by (apply Z.mod_pos_bound; reflexivity).
  unfold builtin_mul_overflow. cbn [fst snd min_ max_ withEncoding withRange
    isRange_ multiplier_ rangeSize_].
  repeat split; try reflexivity.
  - intros Hfit. apply Z.mod_small. exact Hfit.
  - intros Hle Hbits. apply Z.mod_small. subst lo hi.
    unfold kMin, kMax, two63, two64 in *. lia.
  - f_equal. unfold fits_u64.
    destruct (Z.ltb_spec (multiplier * size) two64) as [Hlt|Hge].
    + replace (0 <=? multiplier * size) with true
        by (symmetry; apply Z.leb_le; nia).
      cbn [andb negb]. apply u64_small. nia.
    + rewrite andb_false_r. reflexivity.
Qed.

Lemma enableValueRange_padded_range_witness :
  fst (enableValueRange
         (withRange (newHasher INTEGER) true false 10 13) 3 8)
  = Some 39.
Proof.
  pose proof (enableValueRange_padded_range
                (withRange (newHasher INTEGER) true false 10 13) 3 8
                eq_refl) as Hw.
  cbn [min_ max_ withRange newHasher] in Hw.
  destruct Hw as (_ & _ & _ & _ & _ & _ & _ & Hw);
    [unfold kMin, kMax, two63; lia .. | ].
  rewrite Hw. reflexivity.
Defined.

(** C4, as stated, fails: a hasher that has analysed the smallest and the
    largest [int64_t] has a range whose size does not fit 64 bits, yet
    [enableValueRange] reports the product 1 of a wrapped [rangeSize_ = 1]
    instead of [kRangeTooLarge]. *)
Lemma enableValueRange_subtraction_unchecked :
  let h := foldl (@analyzeValue_int designLimits) (newHasher BIGINT)
             [kMin; kMax] in
  hasRange_ h = true /\ min_ h = kMin /\ max_ h = kMax /\
  two64 <= max_ h - min_ h + 2 /\
  fst (enableValueRange h 1 0) = Some 1 /\
  fst (enableValueRange h 1 0) <> Some kRangeTooLarge /\
  rangeSize_ (snd (enableValueRange h 1 0)) = 1.
Proof.
  cbv zeta. split; [|split; [|split; [|split; [|split; [|split]]]]];
    vm_compute; try reflexivity; discriminate.
Qed.

(** ** [cardinality] *)

(** C5: what [cardinality] reports.  For BOOLEAN both counts are 3 and the
    hasher has a range afterwards.  Otherwise [asRange] is
    [kRangeTooLarge] when there is no range, when the range has
    overflowed, when [max - min] overflows [int64_t] or when it reaches
    [kMaxRange], and [max - min + 2] in all other cases; [asDistincts] is
    [kRangeTooLarge] after a distinct overflow and the number of distinct
    values plus one otherwise. *)
Theorem cardinality_report `{Limits} (h : VectorHasher) :
  let '(asRange, asDistincts, h') := cardinality h in
  (typeKind_ h = BOOLEAN ->
     asRange = 3 /\ asDistincts = 3 /\ hasRange_ h' = true) /\
  (typeKind_ h <> BOOLEAN ->
     (hasRange_ h = false \/ rangeOverflow_ h = true \/
      ~ (kMin <= max_ h - min_ h <= kMax) \/
      kMaxRange <= max_ h - min_ h ->
        asRange = kRangeTooLarge) /\
     (hasRange_ h = true -> rangeOverflow_ h = false ->
      kMin <= max_ h - min_ h <= kMax ->
      max_ h - min_ h < kMaxRange ->
        asRange = u64 (max_ h - min_ h + 2) /\
        (min_ h <= max_ h -> asRange = max_ h - min_ h + 2)) /\
     (distinctOverflow_ h = true -> asDistincts = kRangeTooLarge) /\
     (distinctOverflow_ h = false ->
        asDistincts = uniqueValues_size (uniqueValues_ h) + 1)).
Proof.
  unfold cardinality, builtin_sub_overflow.
  destruct (isBoolean (typeKind_ h)) eqn:Hbool.
  { split; [intros _; repeat split; reflexivity |].
    intros Hne. destruct (typeKind_ h); try discriminate; congruence. }
  assert (Hkind : typeKind_ h = BOOLEAN -> False)
    by (intros Hkind; rewrite Hkind in Hbool; discriminate).
  assert (Hexact : kMin <= max_ h - min_ h <= kMax -> min_ h <= max_ h ->
            u64 (i64 (max_ h - min_ h + 2)) = max_ h - min_ h + 2).
  { intros Hin Hle. rewrite u64_i64. apply u64_small.
    unfold kMin, kMax, two63, two64 in *. lia. }
  destruct (fits_i64 (max_ h - min_ h)) eqn:Hfit.
  - pose proof (proj1 (fits_i64_true _) Hfit) as Hin.
    rewrite (i64_small _ Hin).
    destruct (hasRange_ h), (rangeOverflow_ h),
      (distinctOverflow_ h) eqn:Hd,
      (Z.ltb_spec (max_ h - min_ h) kMaxRange) as [Hlt|Hge];
      cbn [negb orb withRange distinctOverflow_ uniqueValues_];
      rewrite ?Hd;
      (split; [intros Hb; destruct (Hkind Hb) | intros _]);
      repeat split; intros; try reflexivity; try discriminate; try lia;
      try (rewrite u64_i64; reflexivity); try (apply Hexact; assumption);
      repeat match goal with
             | Hor : _ \/ _ |- _ => destruct Hor
             end; try discriminate; try contradiction; try lia.
  - assert (Hno : ~ (kMin <= max_ h - min_ h <= kMax)).
    { intros Hin. apply fits_i64_true in Hin. congruence. }
    destruct (hasRange_ h), (rangeOverflow_ h),
      (distinctOverflow_ h) eqn:Hd;
      cbn [negb orb withRange distinctOverflow_ uniqueValues_];
      rewrite ?Hd;
      (split; [intros Hb; destruct (Hkind Hb) | intros _]);
      repeat split; intros; try reflexivity; try discriminate;
      try contradiction.
Qed.

Lemma cardinality_report_witness :
  let h := withRange (newHasher INTEGER) true false 10 13 in
  fst (fst (@cardinality designLimits h)) = 13 - 10 + 2 /\
  snd (fst (@cardinality designLimits h)) = 0 + 1.
Proof.
  cbv zeta.
  pose proof (@cardinality_report designLimits
                (withRange (newHasher INTEGER) true false 10 13)) as Hw.
  destruct (@cardinality designLimits
              (withRange (newHasher INTEGER) true false 10 13))
    as [[asRange asDistincts] h'].
  cbn [fst snd].
  destruct Hw as [_ Hw].
  destruct (Hw ltac:(discriminate)) as (_ & Hrange & _ & Hdistinct).
  split.
  - apply Hrange; [reflexivity | reflexivity | | | ]; vm_compute;
      try split; discriminate.
  - apply Hdistinct. reflexivity.
Defined.

(** ** The distinct table *)

Lemma uniqueValues_find_None (d : UniqueData) (s : list UniqueValue) :
  uniqueValues_find d s = None <-> d ∉ (data_ <$> s).
Proof.
  unfold uniqueValues_find. induction s as [|u s IH]; cbn.
  - split; [intros _; apply not_elem_of_nil | reflexivity].
  - rewrite not_elem_of_cons. case_bool_decide as Hd.
    + split; [discriminate | intros [Hne _]; congruence].
    + rewrite IH. split; [intros Hs; split; [congruence | exact Hs] | tauto].
Qed.

Lemma uniqueValues_find_Some (d : UniqueData) (s : list UniqueValue)
    (u : UniqueValue) :
  uniqueValues_find d s = Some u -> u ∈ s /\ data_ u = d.
Proof.
  unfold uniqueValues_find. induction s as [|u' s IH]; cbn; [discriminate|].
  case_bool_decide as Hd.
  - intros [= <-]. split; [apply list_elem_of_here | exact Hd].
  - intros Hf. destruct (IH Hf) as [Hin Hdata].
    split; [apply list_elem_of_further; exact Hin | exact Hdata].
Qed.

Lemma uniqueValues_size_app (s t : list UniqueValue) :
  uniqueValues_size (s ++ t) = uniqueValues_size s + uniqueValues_size t.
Proof. unfold uniqueValues_size. rewrite length_app. lia. Qed.

(** The loop of [merge] appends to the local entries: what it appends are
    the foreign contents the local set lacks, each once, numbered on from
    the local size. *)
Lemma mergeUniqueValues_fresh (theirs mine : list UniqueValue) :
  exists fresh : list UniqueValue,
    mergeUniqueValues mine theirs = mine ++ fresh /\
    (forall (k : nat) (u : UniqueValue), fresh !! k = Some u ->
       id_ u = uniqueValues_size mine + 1 + Z.of_nat k) /\
    (forall d : UniqueData,
       d ∈ (data_ <$> fresh) <->
       d ∈ (data_ <$> theirs) /\ d ∉ (data_ <$> mine)) /\
    NoDup (data_ <$> fresh).
Proof.
  unfold mergeUniqueValues. revert mine.
  induction theirs as [|v theirs IH]; intros mine; cbn [foldl].
  - exists []. rewrite app_nil_r. split; [reflexivity|].
    split; [intros k u Hk; rewrite lookup_nil in Hk; discriminate|].
    split; [|constructor].
    intros d. cbn. rewrite !elem_of_nil. tauto.
  - unfold uniqueValues_insert at 2. cbn [setId data_].
    destruct (uniqueValues_find (data_ v) mine) as [u|] eqn:Hfind;
      cbn [fst].
    + destruct (IH mine) as (fresh & Heq & Hids & Hmem & Hnd).
      exists fresh. split; [exact Heq|]. split; [exact Hids|].
      split; [|exact Hnd].
      intros d. rewrite Hmem, fmap_cons, elem_of_cons.
      apply uniqueValues_find_Some in Hfind as [Hin Hdata].
      split; [tauto|]. intros [[->|Hd] Hnot]; [|tauto].
      exfalso. apply Hnot. rewrite <- Hdata.
      apply list_elem_of_fmap_2. exact Hin.
    + apply uniqueValues_find_None in Hfind.
      set (v' := {| data_ := data_ v;
                    id_ := uniqueValues_size mine + 1 |}).
      destruct (IH (mine ++ [v'])) as (fresh & Heq & Hids & Hmem & Hnd).
      exists (v' :: fresh). split; [|split; [|split]].
      * change (setId v (uniqueValues_size mine + 1)) with v'.
        rewrite Heq, <- app_assoc. reflexivity.
      * intros [|k] u Hk; cbn in Hk.
        -- injection Hk as <-. cbn. lia.
        -- rewrite (Hids k u Hk), uniqueValues_size_app.
           unfold uniqueValues_size at 2. cbn. lia.
      * intros d. rewrite !fmap_cons, !elem_of_cons, Hmem, fmap_app.
        cbn. rewrite not_elem_of_app, list_elem_of_singleton.
        destruct (decide (d = data_ v)) as [->|Hne]; tauto.
      * rewrite fmap_cons. cbn [data_ v']. constructor; [|exact Hnd].
        intros Hin. apply Hmem in Hin as [_ Hnot]. apply Hnot.
        rewrite fmap_app. cbn. apply elem_of_app. right.
        apply list_elem_of_here.
Qed.

(** ** Analysis of integers *)

Lemma analyzeValue_int_fresh `{Limits} (h : VectorHasher) (value : Z) :
  distinctOverflow_ h = false ->
  uniqueValues_find (IntData value) (uniqueValues_ h) = None ->
  uniqueValues_size (uniqueValues_ h) + 1 <= kMaxDistinct ->
  analyzeValue_int h value
  = withDistinct (if rangeOverflow_ h then h else updateRange h value) false
      (uniqueValues_ h
         ++ [ {| data_ := IntData value;
                 id_ := uniqueValues_size (uniqueValues_ h) + 1 |} ]).
Proof.
  intros Hover Hfind Hsize. unfold analyzeValue_int.
  assert (Hd : distinctOverflow_
                 (if rangeOverflow_ h then h else updateRange h value)
               = false).
  { destruct (rangeOverflow_ h); [exact Hover|].
    unfold updateRange. destruct (hasRange_ h); exact Hover. }
  assert (Hu : uniqueValues_
                 (if rangeOverflow_ h then h else updateRange h value)
               = uniqueValues_ h).
  { destruct (rangeOverflow_ h); [reflexivity|].
    unfold updateRange. destruct (hasRange_ h); reflexivity. }
  rewrite Hd, Hu. unfold uniqueValues_insert. cbn [data_]. rewrite Hfind.
  rewrite uniqueValues_size_app. unfold uniqueValues_size at 2.
  cbn [length andb].
  replace (kMaxDistinct <? _) with false
    by (symmetry; apply Z.ltb_ge; lia).
  reflexivity.
Qed.

(** ** [merge] *)

(** C6: [merge] on a hasher that is not BOOLEAN.  Two valid ranges combine
    into the smallest range that holds both.  Without distinct overflow
    on either side, the local entries stay as they are and every foreign
    content the local set lacks is appended once, with the ids that follow
    the local ones without gap.  A hasher that observed 7 and 9, merged
    with one that observed 9 and 11, has the range [7, 11] and the
    distinct values 7, 9, 11 with the ids 1, 2, 3. *)
Theorem merge_ranges_and_distincts `{Limits} (h other : VectorHasher) :
  (typeKind_ h <> BOOLEAN ->
   hasRange_ h = true -> hasRange_ other = true ->
   rangeOverflow_ h = false -> rangeOverflow_ other = false ->
     hasRange_ (merge h other) = true /\
     rangeOverflow_ (merge h other) = false /\
     min_ (merge h other) = Z.min (min_ h) (min_ other) /\
     max_ (merge h other) = Z.max (max_ h) (max_ other)) /\
  (typeKind_ h <> BOOLEAN ->
   distinctOverflow_ h = false -> distinctOverflow_ other = false ->
     exists fresh : list UniqueValue,
       uniqueValues_ (merge h other) = uniqueValues_ h ++ fresh /\
       (forall (k : nat) (u : UniqueValue), fresh !! k = Some u ->
          id_ u = uniqueValues_size (uniqueValues_ h) + 1 + Z.of_nat k) /\
       (forall d : UniqueData,
          d ∈ (data_ <$> fresh) <->
          d ∈ (data_ <$> uniqueValues_ other) /\
          d ∉ (data_ <$> uniqueValues_ h)) /\
       NoDup (data_ <$> fresh)) /\
  (2 <= kMaxDistinct ->
   let a := foldl analyzeValue_int (newHasher BIGINT) [7; 9] in
   let b := foldl analyzeValue_int (newHasher BIGINT) [9; 11] in
   min_ (merge a b) = 7 /\ max_ (merge a b) = 11 /\
   uniqueValues_ (merge a b)
   = [ {| data_ := IntData 7; id_ := 1 |};
       {| data_ := IntData 9; id_ := 2 |};
       {| data_ := IntData 11; id_ := 3 |} ]).
Proof.
  assert (Hkind : typeKind_ h <> BOOLEAN -> isBoolean (typeKind_ h) = false)
    by (destruct (typeKind_ h); intros Hne; [congruence | reflexivity ..]).
  split; [|split].
  - intros Hne Ha Hb Hc Hd. unfold merge.
    rewrite (Hkind Hne), Ha, Hb, Hc, Hd. cbn [andb negb].
    destruct (negb (distinctOverflow_ _) && negb (distinctOverflow_ other));
      repeat split; reflexivity.
  - intros Hne Ha Hb. unfold merge. rewrite (Hkind Hne).
    match goal with
    | |- context [if ?c then withRange _ _ _ _ _ else withRange _ _ _ _ _] =>
        destruct c
    end; cbn [withRange distinctOverflow_ uniqueValues_];
      rewrite Ha, Hb; cbn [negb andb withDistinct uniqueValues_];
      apply mergeUniqueValues_fresh.
  - intros Hmax. cbv zeta.
    assert (Ha : foldl analyzeValue_int (newHasher BIGINT) [7; 9]
                 = withDistinct (withRange (newHasher BIGINT) true false 7 9)
                     false [ {| data_ := IntData 7; id_ := 1 |};
                             {| data_ := IntData 9; id_ := 2 |} ]).
    { cbn [foldl].
      rewrite (analyzeValue_int_fresh _ 7);
        [ | reflexivity | reflexivity
        | unfold uniqueValues_size; cbn -[Z.le Z.add Z.of_nat]; lia ].
      rewrite (analyzeValue_int_fresh _ 9);
        [ | reflexivity | reflexivity
        | unfold uniqueValues_size; cbn -[Z.le Z.add Z.of_nat]; lia ].
      reflexivity. }
    assert (Hb : foldl analyzeValue_int (newHasher BIGINT) [9; 11]
                 = withDistinct (withRange (newHasher BIGINT) true false 9 11)
                     false [ {| data_ := IntData 9; id_ := 1 |};
                             {| data_ := IntData 11; id_ := 2 |} ]).
    { cbn [foldl].
      rewrite (analyzeValue_int_fresh _ 9);
        [ | reflexivity | reflexivity
        | unfold uniqueValues_size; cbn -[Z.le Z.add Z.of_nat]; lia ].
      rewrite (analyzeValue_int_fresh _ 11);
        [ | reflexivity | reflexivity
        | unfold uniqueValues_size; cbn -[Z.le Z.add Z.of_nat]; lia ].
      reflexivity. }
    rewrite Ha, Hb. repeat split; reflexivity.
Qed.

Lemma merge_ranges_and_distincts_witness :
  let a := foldl (@analyzeValue_int designLimits) (newHasher BIGINT) [7; 9] in
  let b := foldl (@analyzeValue_int designLimits) (newHasher BIGINT) [9; 11] in
  (min_ (merge a b) = Z.min (min_ a) (min_ b) /\
   max_ (merge a b) = Z.max (max_ a) (max_ b)) /\
  uniqueValues_ (merge a b)
  = [ {| data_ := IntData 7; id_ := 1 |};
      {| data_ := IntData 9; id_ := 2 |};
      {| data_ := IntData 11; id_ := 3 |} ].
Proof.
  cbv zeta.
  destruct (@merge_ranges_and_distincts designLimits
              (foldl (@analyzeValue_int designLimits) (newHasher BIGINT)
                 [7; 9])
              (foldl (@analyzeValue_int designLimits) (newHasher BIGINT)
                 [9; 11]))
    as (Hrange & _ & Hexample).
  split.
  - destruct Hrange as (_ & _ & Hlo & Hhi);
      [discriminate | reflexivity .. | ].
    split; assumption.
  - apply Hexample. vm_compute. discriminate.
Defined.

(** ** [merge] and the budget of distinct values *)

Lemma firstEntries_size (n : nat) :
  uniqueValues_size (firstEntries n) = Z.of_nat n.
Proof.
  unfold uniqueValues_size, firstEntries.
  rewrite length_fmap, length_seq. reflexivity.
Qed.

Lemma firstEntries_lacks (n : nat) (value : Z) :
  value <= 0 \/ Z.of_nat n < value ->
  uniqueValues_find (IntData value) (firstEntries n) = None.
Proof.
  intros Hout. apply uniqueValues_find_None. unfold firstEntries.
  rewrite <- list_fmap_compose. intros Hin.
  apply list_elem_of_fmap in Hin as (k & Hk & Hseq).
  apply elem_of_seq in Hseq. cbn in Hk. injection Hk as ->. lia.
Qed.

(** Analysing [1 .. n] within the budget leaves [n] entries and no
    overflow. *)
Lemma analyze_firstEntries `{Limits} (n : nat) :
  Z.of_nat n <= kMaxDistinct ->
  let h := foldl analyzeValue_int (newHasher BIGINT)
             (Z.of_nat <$> seq 1 n) in
  distinctOverflow_ h = false /\ uniqueValues_ h = firstEntries n /\
  typeKind_ h = BIGINT.
Proof.
  induction n as [|n IH]; intros Hn; cbv zeta.
  - repeat split.
  - rewrite seq_S, fmap_app, foldl_app. cbn [fmap list_fmap foldl].
    destruct IH as (Hover & Huniq & Hkind); [lia|].
    set (h := foldl analyzeValue_int (newHasher BIGINT)
                (Z.of_nat <$> seq 1 n)) in *.
    rewrite (analyzeValue_int_fresh h);
      [ | exact Hover
        | rewrite Huniq; apply firstEntries_lacks; lia
        | rewrite Huniq, firstEntries_size; lia ].
    cbn [withDistinct distinctOverflow_ uniqueValues_ typeKind_].
    split; [reflexivity|]. split.
    + rewrite Huniq, firstEntries_size. unfold firstEntries.
      rewrite seq_S, fmap_app. cbn [fmap list_fmap]. do 3 f_equal. lia.
    + destruct (rangeOverflow_ h); [exact Hkind|].
      unfold updateRange. destruct (hasRange_ h); exact Hkind.
Qed.

(** C10: [merge] never raises the distinct overflow of two hashers that
    have none, whatever the size of the merged set, whereas
    [analyzeValue] raises it when a new string takes the set past
    [kMaxDistinct].  So there are two hashers within the budget, with
    disjoint distinct sets, whose merge holds more than [kMaxDistinct]
    values and still reports no overflow: one that analysed
    [1 .. kMaxDistinct] and one that analysed [0]. *)
Theorem merge_ignores_kMaxDistinct `{Limits} :
  (forall h other : VectorHasher,
     distinctOverflow_ h = false -> distinctOverflow_ other = false ->
     distinctOverflow_ (merge h other) = false) /\
  (forall (h : VectorHasher) (value : StringView),
     distinctOverflow_ h = false ->
     uniqueValues_find (StringData value) (uniqueValues_ h) = None ->
     kMaxDistinct <= uniqueValues_size (uniqueValues_ h) ->
     distinctOverflow_ (analyzeValue_string h value) = true) /\
  (1 <= kMaxDistinct ->
   let a := foldl analyzeValue_int (newHasher BIGINT)
              (Z.of_nat <$> seq 1 (Z.to_nat kMaxDistinct)) in
   let b := foldl analyzeValue_int (newHasher BIGINT) [0] in
   distinctOverflow_ a = false /\ distinctOverflow_ b = false /\
   uniqueValues_size (uniqueValues_ a) <= kMaxDistinct /\
   uniqueValues_size (uniqueValues_ b) <= kMaxDistinct /\
   (forall d : UniqueData,
      d ∈ (data_ <$> uniqueValues_ a) -> d ∉ (data_ <$> uniqueValues_ b)) /\
   kMaxDistinct < uniqueValues_size (uniqueValues_ (merge a b)) /\
   distinctOverflow_ (merge a b) = false).
Proof.
  assert (Hkeep : forall h other : VectorHasher,
             distinctOverflow_ h = false -> distinctOverflow_ other = false ->
             distinctOverflow_ (merge h other) = false).
  { intros h other Hh Ho. unfold merge.
    destruct (isBoolean (typeKind_ h)); [exact Hh|].
    match goal with
    | |- context [if ?c then withRange _ _ _ _ _ else withRange _ _ _ _ _] =>
        destruct c
    end; cbn [withRange distinctOverflow_]; rewrite Hh, Ho; reflexivity. }
  split; [exact Hkeep|]. split.
  - intros h value Hover Hfind Hsize. unfold analyzeValue_string.
    set (h1 := if rangeOverflow_ h then h else _).
    assert (Hd : distinctOverflow_ h1 = false).
    { subst h1. destruct (rangeOverflow_ h); [exact Hover|].
      destruct (kStringASRangeMaxSize <? stringSize value); [exact Hover|].
      unfold updateRange. destruct (hasRange_ h); exact Hover. }
    assert (Hu : uniqueValues_ h1 = uniqueValues_ h).
    { subst h1. destruct (rangeOverflow_ h); [reflexivity|].
      destruct (kStringASRangeMaxSize <? stringSize value); [reflexivity|].
      unfold updateRange. destruct (hasRange_ h); reflexivity. }
    rewrite Hd, Hu. unfold uniqueValues_insert. cbn [data_].
    rewrite Hfind, uniqueValues_size_app.
    unfold uniqueValues_size at 2. cbn [length].
    replace (kMaxDistinct <? _) with true
      by (symmetry; apply Z.ltb_lt; lia).
    reflexivity.
  - intros Hmax. cbv zeta.
    destruct (analyze_firstEntries (Z.to_nat kMaxDistinct))
      as (Ha & Hua & Hka); [lia|].
    set (a := foldl analyzeValue_int (newHasher BIGINT)
                (Z.of_nat <$> seq 1 (Z.to_nat kMaxDistinct))) in *.
    assert (Hb : foldl analyzeValue_int (newHasher BIGINT) [0]
                 = withDistinct (withRange (newHasher BIGINT) true false 0 0)
                     false [ {| data_ := IntData 0; id_ := 1 |} ]).
    { cbn [foldl].
      rewrite (analyzeValue_int_fresh _ 0);
        [ reflexivity | reflexivity | reflexivity
        | unfold uniqueValues_size; cbn -[Z.le Z.add Z.of_nat]; lia ]. }
    rewrite Hb.
    set (b := withDistinct _ false _) in *.
    assert (Hm : uniqueValues_ (merge a b)
                 = firstEntries (Z.to_nat kMaxDistinct)
                   ++ [ {| data_ := IntData 0;
                           id_ := kMaxDistinct + 1 |} ]).
    { unfold merge. rewrite Hka. cbn [isBoolean].
      match goal with
      | |- context [if ?c then withRange _ _ _ _ _ else withRange _ _ _ _ _] =>
          destruct c
      end; cbn [withRange distinctOverflow_ uniqueValues_]; rewrite Ha;
        cbn [negb andb b withDistinct distinctOverflow_ uniqueValues_
               mergeUniqueValues foldl];
        unfold uniqueValues_insert; cbn [setId data_];
        rewrite Hua, firstEntries_lacks by lia; cbn [fst];
        rewrite firstEntries_size, Z2Nat.id by lia; reflexivity. }
    split; [exact Ha|]. split; [reflexivity|].
    split; [rewrite Hua, firstEntries_size; lia|].
    split; [unfold uniqueValues_size; cbn -[Z.le Z.of_nat]; lia|].
    split.
    + intros d Hin. rewrite Hua in Hin. cbn.
      rewrite list_elem_of_singleton. intros ->.
      apply (uniqueValues_find_None (IntData 0)
               (firstEntries (Z.to_nat kMaxDistinct))); [|exact Hin].
      apply firstEntries_lacks. lia.
    + split; [|apply Hkeep; [exact Ha | reflexivity]].
      rewrite Hm, uniqueValues_size_app, firstEntries_size.
      unfold uniqueValues_size. cbn [length]. lia.
Qed.

Lemma merge_ignores_kMaxDistinct_witness :
  let a := foldl (@analyzeValue_int designLimits) (newHasher BIGINT)
             (Z.of_nat <$> seq 1 (Z.to_nat 10000)) in
  let b := foldl (@analyzeValue_int designLimits) (newHasher BIGINT) [0] in
  10000 < uniqueValues_size (uniqueValues_ (merge a b)) /\
  distinctOverflow_ (merge a b) = false.
Proof.
  destruct (@merge_ignores_kMaxDistinct designLimits) as (_ & _ & Hex).
  destruct Hex as (_ & _ & _ & _ & _ & Hsize & Hover).
  - cbn. lia.
  - split; [exact Hsize | exact Hover].
Defined.

(** ** Analysis keeps the encoding; its range part *)

Lemma updateRange_encoding (h : VectorHasher) (n : Z) :
  typeKind_ (updateRange h n) = typeKind_ h /\
  isRange_ (updateRange h n) = isRange_ h /\
  multiplier_ (updateRange h n) = multiplier_ h /\
  rangeSize_ (updateRange h n) = rangeSize_ h.
Proof. unfold updateRange. destruct (hasRange_ h); repeat split. Qed.

Lemma analyzeValue_int_encoding `{Limits} (h : VectorHasher) (value : Z) :
  typeKind_ (analyzeValue_int h value) = typeKind_ h /\
  isRange_ (analyzeValue_int h value) = isRange_ h /\
  multiplier_ (analyzeValue_int h value) = multiplier_ h /\
  rangeSize_ (analyzeValue_int h value) = rangeSize_ h.
Proof.
  unfold analyzeValue_int.
  pose proof (updateRange_encoding h value) as Hu.
  set (h1 := if rangeOverflow_ h then h else updateRange h value).
  assert (H1 : typeKind_ h1 = typeKind_ h /\ isRange_ h1 = isRange_ h /\
               multiplier_ h1 = multiplier_ h /\
               rangeSize_ h1 = rangeSize_ h)
    by (subst h1; destruct (rangeOverflow_ h); [repeat split | exact Hu]).
  destruct (distinctOverflow_ h1); [exact H1|].
  destruct (uniqueValues_insert _ _) as [uniq inserted]. exact H1.
Qed.

Lemma copyStringToLocal_encoding `{Limits} (h : VectorHasher)
    (s : StringView) :
  typeKind_ (copyStringToLocal h s) = typeKind_ h /\
  isRange_ (copyStringToLocal h s) = isRange_ h /\
  multiplier_ (copyStringToLocal h s) = multiplier_ h /\
  rangeSize_ (copyStringToLocal h s) = rangeSize_ h.
Proof.
  unfold copyStringToLocal.
  destruct (stringSize s <=? 8); [repeat split|].
  destruct (kMaxDistinctStringsBytes <? distinctStringsBytes_ h);
    [repeat split|].
  destruct (uniqueValuesStorage_ h);
    match goal with
    | |- context [if ?c then _ else _] => destruct c
    end; repeat split.
Qed.

Lemma analyzeValue_string_encoding `{Limits} (h : VectorHasher)
    (value : StringView) :
  typeKind_ (analyzeValue_string h value) = typeKind_ h /\
  isRange_ (analyzeValue_string h value) = isRange_ h /\
  multiplier_ (analyzeValue_string h value) = multiplier_ h /\
  rangeSize_ (analyzeValue_string h value) = rangeSize_ h.
Proof.
  unfold analyzeValue_string.
  pose proof (updateRange_encoding h (stringAsNumber value)) as Hu.
  set (h1 := if rangeOverflow_ h then h else _).
  assert (H1 : typeKind_ h1 = typeKind_ h /\ isRange_ h1 = isRange_ h /\
               multiplier_ h1 = multiplier_ h /\
               rangeSize_ h1 = rangeSize_ h).
  { subst h1. destruct (rangeOverflow_ h); [repeat split|].
    destruct (kStringASRangeMaxSize <? stringSize value);
      [repeat split | exact Hu]. }
  destruct (distinctOverflow_ h1); [exact H1|].
  destruct (uniqueValues_insert _ _) as [uniq [|]]; [|exact H1].
  destruct (kMaxDistinct <? uniqueValues_size uniq); [exact H1|].
  pose proof (copyStringToLocal_encoding (withDistinct h1 false uniq) value)
    as Hc.
  cbn [withDistinct typeKind_ isRange_ multiplier_ rangeSize_] in Hc.
  destruct H1 as (-> & -> & -> & ->) in Hc. exact Hc.
Qed.

Lemma analyzeValue_int_range `{Limits} (h : VectorHasher) (value : Z) :
  rangeOverflow_ h = false ->
  rangeOverflow_ (analyzeValue_int h value) = false /\
  hasRange_ (analyzeValue_int h value) = true /\
  min_ (analyzeValue_int h value)
  = (if hasRange_ h then Z.min (min_ h) value else value) /\
  max_ (analyzeValue_int h value)
  = (if hasRange_ h then Z.max (max_ h) value else value).
Proof.
  intros Hover. unfold analyzeValue_int. rewrite Hover.
  assert (H1 : rangeOverflow_ (updateRange h value) = false /\
               hasRange_ (updateRange h value) = true /\
               min_ (updateRange h value)
               = (if hasRange_ h then Z.min (min_ h) value else value) /\
               max_ (updateRange h value)
               = (if hasRange_ h then Z.max (max_ h) value else value))
    by (unfold updateRange; destruct (hasRange_ h); repeat split;
        exact Hover).
  destruct (distinctOverflow_ (updateRange h value)); [exact H1|].
  destruct (uniqueValues_insert _ _) as [uniq inserted]. exact H1.
Qed.

(** ** The integer range scenario *)

(** C1: an INTEGER column with the values 10, 12, 11, null, 13, all rows
    selected.  After analysis the range is [10, 13];
    [enableValueRange(1, 0)] sets [rangeSize_] to 5 and returns 5;
    [computeValueIds] on the same batch succeeds and writes 1, 3, 2, 0, 4
    whatever the array held before; and the value 20 is unmappable.  The
    value stored under the null row plays no part. *)
Theorem integer_range_mode_scenario `{Limits}
    (underNull o0 o1 o2 o3 o4 : Z) :
  let batch := flatVector [10; 12; 11; underNull; 13]
                 [false; false; false; true; false] in
  let rows := allRows 5 in
  let analysed := analyzeBatch (newHasher INTEGER) batch rows in
  let enabled := enableValueRange analysed 1 0 in
  min_ analysed = 10 /\ max_ analysed = 13 /\
  fst enabled = Some 5 /\ rangeSize_ (snd enabled) = 5 /\
  computeValueIds (snd enabled) (IntegerColumn batch) rows
    [o0; o1; o2; o3; o4]
  = Some (true, [1; 3; 2; 0; 4], snd enabled) /\
  valueId (snd enabled) 20 = kUnmappable.
Proof.
  cbv zeta.
  set (batch := flatVector _ _). set (rows := allRows 5).
  assert (Hfold : analyzeBatch (newHasher INTEGER) batch rows
                  = foldl analyzeValue_int (newHasher INTEGER)
                      [10; 12; 11; 13]) by reflexivity.
  rewrite Hfold. cbn [foldl].
  set (h10 := analyzeValue_int (newHasher INTEGER) 10).
  set (h12 := analyzeValue_int h10 12).
  set (h11 := analyzeValue_int h12 11).
  set (h13 := analyzeValue_int h11 13).
  destruct (analyzeValue_int_range (newHasher INTEGER) 10 eq_refl)
    as (Ho10 & Hr10 & Hlo10 & Hhi10).
  destruct (analyzeValue_int_range h10 12 Ho10) as (Ho12 & Hr12 & Hlo12 & Hhi12).
  destruct (analyzeValue_int_range h12 11 Ho12) as (Ho11 & Hr11 & Hlo11 & Hhi11).
  destruct (analyzeValue_int_range h11 13 Ho11) as (Ho13 & Hr13 & Hlo13 & Hhi13).
  fold h10 in Hlo10, Hhi10, Hr10. fold h12 in Hlo12, Hhi12, Hr12.
  fold h11 in Hlo11, Hhi11, Hr11. fold h13 in Hlo13, Hhi13, Hr13, Ho13.
  cbn [hasRange_ newHasher] in Hlo10, Hhi10.
  rewrite Hr10 in Hlo12, Hhi12. rewrite Hlo10 in Hlo12.
  rewrite Hhi10 in Hhi12.
  rewrite Hr12 in Hlo11, Hhi11. rewrite Hlo12 in Hlo11.
  rewrite Hhi12 in Hhi11.
  rewrite Hr11 in Hlo13, Hhi13. rewrite Hlo11 in Hlo13.
  rewrite Hhi11 in Hhi13.
  assert (Hkind : typeKind_ h13 = INTEGER).
  { subst h13 h11 h12 h10.
    rewrite !(proj1 (analyzeValue_int_encoding _ _)). reflexivity. }
  clearbody h13.
  destruct h13 as [k hr ro lo hi dov uniq store bytes ir mul rs].
  cbn [typeKind_ hasRange_ rangeOverflow_ min_ max_] in *.
  subst k hr ro lo hi.
  repeat split; reflexivity.
Qed.

(** ** Loops over the selected rows *)

Lemma selectedRows_NoDup (rows : SelectivityVector) :
  NoDup (selectedRows rows).
Proof.
  unfold selectedRows. apply NoDup_ListNoDup, List.NoDup_filter.
  apply NoDup_ListNoDup, NoDup_seq.
Qed.

Lemma selectedRows_isValid (rows : SelectivityVector) (row : nat) :
  row ∈ selectedRows rows -> isValid rows row = true.
Proof.
  unfold selectedRows. rewrite list_elem_of_In, List.filter_In. tauto.
Qed.

Section FoldRows.
Context {A B : Type} (step : A -> nat -> A) (proj : A -> list B).

Lemma foldl_invariant (Inv : A -> Prop) (rs : list nat) :
  (forall a r, r ∈ rs -> Inv a -> Inv (step a r)) ->
  forall a, Inv a -> Inv (foldl step a rs).
Proof.
  induction rs as [|r rs IH]; intros Hstep a Ha; cbn [foldl]; [exact Ha|].
  apply IH.
  - intros a' r' Hr'. apply Hstep. apply list_elem_of_further. exact Hr'.
  - apply Hstep; [apply list_elem_of_here | exact Ha].
Qed.

Lemma foldl_untouched (row : nat) (rs : list nat) :
  (forall a r, r <> row -> proj (step a r) !! row = proj a !! row) ->
  row ∉ rs ->
  forall a, proj (foldl step a rs) !! row = proj a !! row.
Proof.
  intros Hframe. induction rs as [|r rs IH]; intros Hnot a; cbn [foldl];
    [reflexivity|].
  apply not_elem_of_cons in Hnot as [Hne Hnot].
  rewrite (IH Hnot). apply Hframe. congruence.
Qed.

(** The entry of [row] after the loop is decided by the step of [row]
    alone, taken in a state that satisfies the invariant and still has the
    initial entry. *)
Lemma foldl_at_row (Inv : A -> Prop) (rs : list nat) (row : nat)
    (target : option B) :
  NoDup rs -> row ∈ rs ->
  (forall a r, r ∈ rs -> Inv a -> Inv (step a r)) ->
  (forall a r, r <> row -> proj (step a r) !! row = proj a !! row) ->
  forall a, Inv a ->
    (forall a', Inv a' -> proj a' !! row = proj a !! row ->
       proj (step a' row) !! row = target) ->
    proj (foldl step a rs) !! row = target.
Proof.
  intros Hnd Hin Hinv Hframe a Ha Hrow.
  apply list_elem_of_split in Hin as (pre & post & ->).
  apply NoDup_app in Hnd as (_ & Hpre & Hpost).
  apply NoDup_cons in Hpost as [Hpost _].
  assert (Hnotpre : row ∉ pre).
  { intros Hp. apply (Hpre row Hp). apply list_elem_of_here. }
  rewrite foldl_app. cbn [foldl].
  rewrite (foldl_untouched row post Hframe Hpost).
  apply Hrow.
  - apply foldl_invariant; [|exact Ha].
    intros a' r Hr. apply Hinv. apply elem_of_app. left. exact Hr.
  - apply foldl_untouched; assumption.
Qed.

End FoldRows.

(** ** Writes into the [result] array *)

Lemma writeId_other (h : VectorHasher) (result : list Z) (r row : nat)
    (id : Z) :
  r <> row -> writeId h result r id !! row = result !! row.
Proof. intros Hne. unfold writeId. apply list_lookup_insert_ne. exact Hne. Qed.

Lemma writeNull_other (h : VectorHasher) (result : list Z) (r row : nat) :
  r <> row -> writeNull h result r !! row = result !! row.
Proof.
  intros Hne. unfold writeNull. destruct (multiplier_ h =? 1); [|reflexivity].
  apply list_lookup_insert_ne. exact Hne.
Qed.

Lemma writeId_same (h : VectorHasher) (result : list Z) (row : nat)
    (id old : Z) :
  result !! row = Some old ->
  writeId h result row id !! row
  = Some (if multiplier_ h =? 1 then id else u64 (old + multiplier_ h * id)).
Proof.
  intros Hold. unfold writeId.
  rewrite list_lookup_insert_eq by (eapply lookup_lt_Some; exact Hold).
  rewrite (list_lookup_total_correct _ _ _ Hold). reflexivity.
Qed.

Lemma writeNull_same (h : VectorHasher) (result : list Z) (row : nat)
    (old : Z) :
  result !! row = Some old ->
  writeNull h result row !! row
  = Some (if multiplier_ h =? 1 then 0 else old).
Proof.
  intros Hold. unfold writeNull. destruct (multiplier_ h =? 1); [|exact Hold].
  apply list_lookup_insert_eq. eapply lookup_lt_Some. exact Hold.
Qed.

(** ** The emission loop *)

Section EmitRows.
Context {T : Type} `{NativeTypeLaws T}.
Variable d : DecodedVector T.
Hypothesis notConstant : isConstantMapping d = false.

Local Abbreviation step := (emitRow (isNullAt d) (valueAt d) (slotOf d)).
Local Abbreviation resultOf acc := (emitted (fst acc)).
Local Abbreviation hasherOf acc := (hasherAfter (fst acc)).

Lemma slotOf_value (r b : nat) :
  slotOf d r = Some b -> valueAt d r = values d !!! b.
Proof.
  unfold slotOf, valueAt, index. rewrite notConstant.
  destruct (isIdentityMapping d); [discriminate|].
  intros [= <-]. reflexivity.
Qed.

Ltac emit_cases :=
  unfold emitRow, emitted, hasherAfter, succeeded;
  repeat match goal with
         | |- context [if ?c then _ else _] => destruct c eqn:?
         | |- context [match slotOf d ?r with _ => _ end] =>
             destruct (slotOf d r) eqn:?
         end; cbn [fst snd].

Lemma emitRow_frame (acc : Emission * list Z) (r row : nat) :
  r <> row -> resultOf (step acc r) !! row = resultOf acc !! row.
Proof.
  intros Hne. destruct acc as [[[success res] h] cache].
  emit_cases; try reflexivity;
    first [apply writeId_other | apply writeNull_other]; exact Hne.
Qed.

Lemma emitRow_multiplier (acc : Emission * list Z) (r : nat) :
  multiplier_ (hasherOf (step acc r)) = multiplier_ (hasherOf acc).
Proof.
  destruct acc as [[[success res] h] cache].
  emit_cases; try reflexivity; apply analyzeValue_multiplier.
Qed.

(** A null row: the entry becomes 0 under a multiplier of 1 and stays as
    it was otherwise, whatever happened to the rows before it. *)
Lemma emit_null_entry (rs : list nat) (row : nat) (acc : Emission * list Z)
    (old : Z) :
  NoDup rs -> row ∈ rs -> isNullAt d row = true ->
  resultOf acc !! row = Some old ->
  resultOf (foldl step acc rs) !! row
  = Some (if multiplier_ (hasherOf acc) =? 1 then 0 else old).
Proof.
  intros Hnd Hin Hnull Hold.
  apply (foldl_at_row step (fun a => resultOf a)
           (fun a => multiplier_ (hasherOf a) = multiplier_ (hasherOf acc))
           rs row); try assumption.
  - intros a r _ Ha. rewrite emitRow_multiplier. exact Ha.
  - intros a r Hne. apply emitRow_frame. exact Hne.
  - reflexivity.
  - intros [[[success res] h] cache] Hmul Hrow.
    unfold emitRow. rewrite Hnull.
    unfold emitted, hasherAfter in *. cbn [fst snd] in *.
    rewrite (writeNull_same _ _ _ _ (eq_trans Hrow Hold)), Hmul.
    reflexivity.
Qed.

(** *** While every row is mappable *)

Variable h : VectorHasher.
Variable n : nat.

(** The state of the loop as long as no row has failed. *)
Local Abbreviation Mapping acc :=
  (succeeded (fst acc) = true /\ hasherOf acc = h /\
   length (snd acc) = n /\ cacheSound h d (snd acc)).

Lemma mappableAt_value (r : nat) :
  mappableAt h d r = true -> isNullAt d r = false ->
  (valueId h (valueAt d r) =? kUnmappable) = false.
Proof.
  unfold mappableAt, logicalAt. intros Hmap Hnull. rewrite Hnull in Hmap.
  apply negb_true_iff. exact Hmap.
Qed.

Lemma cacheSound_insert (cache : list Z) (r b : nat) :
  cacheSound h d cache -> slotOf d r = Some b ->
  cacheSound h d (<[b := valueId h (valueAt d r)]> cache).
Proof.
  intros Hsound Hslot b' Hb'. rewrite length_insert in Hb'.
  destruct (decide (b = b')) as [<-|Hne].
  - right. rewrite list_lookup_total_insert_eq by exact Hb'.
    rewrite (slotOf_value r b Hslot). reflexivity.
  - rewrite list_lookup_total_insert_ne by exact Hne. apply Hsound.
    exact Hb'.
Qed.

Lemma emitRow_Mapping (acc : Emission * list Z) (r : nat) :
  mappableAt h d r = true ->
  Mapping acc -> Mapping (step acc r).
Proof.
  intros Hmap. destruct acc as [[[success res] h'] cache].
  unfold succeeded, hasherAfter. cbn [fst snd].
  intros (-> & -> & Hlen & Hsound). unfold emitRow.
  destruct (isNullAt d r) eqn:Hnull; cbn [fst snd]; [auto|].
  rewrite (mappableAt_value r Hmap Hnull). cbn [negb].
  destruct (slotOf d r) as [b|] eqn:Hslot.
  - destruct (cache !!! b =? 0); cbn [fst snd]; [|auto].
    rewrite length_insert. repeat split; try assumption.
    apply cacheSound_insert; assumption.
  - cbn [fst snd]. auto.
Qed.

(** The entry of a row once the loop has mapped every row. *)
Lemma emit_mapped_entry (rs : list nat) (row : nat)
    (acc : Emission * list Z) (old : Z) :
  NoDup rs -> row ∈ rs ->
  (forall r, r ∈ rs -> mappableAt h d r = true) ->
  (forall r b, r ∈ rs -> isNullAt d r = false -> slotOf d r = Some b ->
     (b < n)%nat) ->
  Mapping acc ->
  resultOf acc !! row = Some old ->
  resultOf (foldl step acc rs) !! row = Some (packedAt h d row old).
Proof.
  intros Hnd Hin Hmap Hslots Hacc Hold.
  apply (foldl_at_row step (fun a => resultOf a) (fun a => Mapping a) rs row);
    try assumption.
  - intros a r Hr. apply emitRow_Mapping, Hmap, Hr.
  - intros a r Hne. apply emitRow_frame. exact Hne.
  - intros [[[success res] h'] cache].
    unfold succeeded, hasherAfter, emitted. cbn [fst snd].
    intros (-> & -> & Hlen & Hsound) Hrow'.
    pose proof (eq_trans Hrow' Hold) as Hrow. clear Hrow'.
    unfold emitRow, packedAt, logicalAt.
    destruct (isNullAt d row) eqn:Hnull; cbn [fst snd];
      [apply writeNull_same; exact Hrow|].
    pose proof (mappableAt_value row (Hmap row Hin) Hnull) as Hid.
    destruct (slotOf d row) as [b|] eqn:Hslot.
    + destruct (Z.eqb_spec (cache !!! b) 0) as [Hzero|Hhit].
      * rewrite Hid. cbn [negb fst snd]. apply writeId_same. exact Hrow.
      * cbn [fst snd].
        destruct (Hsound b) as [Hz|Hv];
          [rewrite Hlen; apply (Hslots row b Hin Hnull Hslot)
          | contradiction |].
        rewrite Hv, <- (slotOf_value row b Hslot).
        apply writeId_same. exact Hrow.
    + rewrite Hid. cbn [negb fst snd]. apply writeId_same. exact Hrow.
Qed.

Lemma emitRow_cache (acc : Emission * list Z) (r b : nat) :
  Mapping acc -> mappableAt h d r = true -> (b < n)%nat ->
  snd (step acc r) !!! b
  = if negb (isNullAt d r) && bool_decide (slotOf d r = Some b)
    then valueId h (values d !!! b) else snd acc !!! b.
Proof.
  destruct acc as [[[success res] h'] cache].
  unfold succeeded, hasherAfter. cbn [fst snd].
  intros (-> & -> & Hlen & Hsound) Hmap Hb. unfold emitRow.
  destruct (isNullAt d r) eqn:Hnull; cbn [fst snd negb andb];
    [reflexivity|].
  rewrite (mappableAt_value r Hmap Hnull). cbn [negb].
  destruct (slotOf d r) as [b0|] eqn:Hslot.
  - case_bool_decide as Hb0.
    + injection Hb0 as ->.
      destruct (Z.eqb_spec (cache !!! b) 0) as [Hzero|Hhit]; cbn [fst snd].
      * rewrite list_lookup_total_insert_eq by (rewrite Hlen; exact Hb).
        rewrite (slotOf_value r b Hslot). reflexivity.
      * destruct (Hsound b) as [Hz|Hv];
          [rewrite Hlen; exact Hb | contradiction | exact Hv].
    + assert (Hne : b0 <> b) by congruence.
      destruct (cache !!! b0 =? 0); cbn [fst snd]; [|reflexivity].
      apply list_lookup_total_insert_ne. exact Hne.
  - rewrite bool_decide_eq_false_2 by discriminate. reflexivity.
Qed.

(** [cachedHashes_] after a run of mapped rows: the id of every base value
    that a row of the run pointed at. *)
Lemma emit_cache_exact (rs : list nat) (b : nat) :
  (b < n)%nat ->
  forall acc : Emission * list Z,
    Mapping acc ->
    (forall r, r ∈ rs -> mappableAt h d r = true) ->
    snd (foldl step acc rs) !!! b
    = if hitBy d rs b then valueId h (values d !!! b) else snd acc !!! b.
Proof.
  intros Hb. induction rs as [|r rs IH]; intros acc Hacc Hmap;
    cbn [foldl hitBy existsb]; [reflexivity|].
  assert (Hr : mappableAt h d r = true) by (apply Hmap, list_elem_of_here).
  fold (hitBy d rs b). rewrite IH.
  - rewrite (emitRow_cache acc r b Hacc Hr Hb).
    destruct (negb (isNullAt d r) && bool_decide (slotOf d r = Some b)),
      (hitBy d rs b); reflexivity.
  - apply emitRow_Mapping; assumption.
  - intros r' Hr'. apply Hmap, list_elem_of_further, Hr'.
Qed.

(** *** After the first unmappable row *)

(** Nothing is mapped any more: the null rows are still written, the rows
    with a cached id too, and the value of every other row goes to
    [analyzeValue]. *)
Lemma emit_after_miss (cache : list Z) (rs : list nat) :
  forall (res : list Z) (h1 : VectorHasher),
    succeeded (fst (foldl step (false, res, h1, cache) rs)) = false /\
    hasherOf (foldl step (false, res, h1, cache) rs)
    = foldl analyzeValue h1
        (valueAt d
           <$> List.filter
                 (fun q => negb (isNullAt d q) && missAt d cache q) rs) /\
    snd (foldl step (false, res, h1, cache) rs) = cache.
Proof.
  induction rs as [|r rs IH]; intros res h1; cbn [foldl List.filter];
    [repeat split|].
  destruct (isNullAt d r) eqn:Hnull; cbn [negb andb].
  { replace (step (false, res, h1, cache) r)
      with (false, writeNull h1 res r, h1, cache)
      by (unfold emitRow; rewrite Hnull; reflexivity).
    apply IH. }
  destruct (missAt d cache r) eqn:Hmiss; unfold missAt in Hmiss.
  - replace (step (false, res, h1, cache) r)
      with (false, res, analyzeValue h1 (valueAt d r), cache)
      by (unfold emitRow; rewrite Hnull, Hmiss; reflexivity).
    cbn [fmap list_fmap foldl]. apply IH.
  - replace (step (false, res, h1, cache) r)
      with (false,
            writeId h1 res r
              match slotOf d r with
              | Some baseIndex => cache !!! baseIndex
              | None => 0
              end, h1, cache)
      by (unfold emitRow; rewrite Hnull, Hmiss; reflexivity).
    apply IH.
Qed.

Lemma mappableAt_false (r : nat) :
  mappableAt h d r = false ->
  isNullAt d r = false /\ (valueId h (valueAt d r) =? kUnmappable) = true.
Proof.
  unfold mappableAt, logicalAt. destruct (isNullAt d r); [discriminate|].
  intros Hmap. apply negb_false_iff in Hmap. split; [reflexivity | exact Hmap].
Qed.

Lemma Mapping_initial (res : list Z) :
  Mapping (true, res, h, replicate n 0).
Proof.
  unfold succeeded, hasherAfter. cbn [fst snd].
  repeat split; [apply length_replicate|].
  intros b Hb. rewrite length_replicate in Hb. left.
  apply lookup_total_replicate_2. exact Hb.
Qed.

(** The first unmappable row [r], after the mapped rows [pre] and before
    the rows [post]. *)
Lemma emit_first_miss (pre post : list nat) (r : nat) (res : list Z) :
  NoDup (pre ++ r :: post) ->
  (forall p, p ∈ pre -> mappableAt h d p = true) ->
  mappableAt h d r = false ->
  (forall q b, q ∈ pre ++ r :: post -> isNullAt d q = false ->
     slotOf d q = Some b -> (b < n)%nat) ->
  succeeded (fst (foldl step (true, res, h, replicate n 0)
                    (pre ++ r :: post))) = false /\
  hasherOf (foldl step (true, res, h, replicate n 0) (pre ++ r :: post))
  = foldl analyzeValue h
      (valueAt d r
       :: (valueAt d
             <$> List.filter
                   (fun q => negb (isNullAt d q)
                             && negb (cachedBefore h d pre q))
                   post)) /\
  resultOf (foldl step (true, res, h, replicate n 0) (pre ++ r :: post)) !! r
  = res !! r.
Proof.
  intros Hnd Hpre Hr Hslots.
  apply mappableAt_false in Hr as [Hnull Hmiss].
  apply NoDup_app in Hnd as (_ & Hnotpre & Hnd).
  apply NoDup_cons in Hnd as [Hnotpost _].
  assert (Hrpre : r ∉ pre).
  { intros Hin. apply (Hnotpre r Hin), list_elem_of_here. }
  rewrite foldl_app. cbn [foldl].
  pose proof (foldl_invariant step (fun a => Mapping a) pre
                (fun a p Hp => emitRow_Mapping a p (Hpre p Hp))
                _ (Mapping_initial res)) as Hmapping.
  assert (Hcache : forall b, (b < n)%nat ->
            snd (foldl step (true, res, h, replicate n 0) pre) !!! b
            = if hitBy d pre b then valueId h (values d !!! b) else 0).
  { intros b Hb.
    rewrite (emit_cache_exact pre b Hb _ (Mapping_initial res) Hpre).
    cbn [snd]. rewrite lookup_total_replicate_2 by exact Hb. reflexivity. }
  pose proof (foldl_untouched step (fun a => resultOf a) r pre
                (fun a p Hne => emitRow_frame a p r Hne) Hrpre
                (true, res, h, replicate n 0)) as Hres.
  destruct (foldl step (true, res, h, replicate n 0) pre)
    as [[[success resp] hp] cachep].
  unfold succeeded, hasherAfter, emitted in Hmapping, Hres.
  cbn [fst snd] in Hmapping, Hcache, Hres.
  destruct Hmapping as (-> & -> & Hlen & Hsound).
  assert (Hnohit : forall b, slotOf d r = Some b -> hitBy d pre b = false).
  { intros b Hslot. destruct (hitBy d pre b) eqn:Hhit; [|reflexivity].
    unfold hitBy in Hhit. apply existsb_exists in Hhit as (p & Hp & Hhit).
    apply andb_true_iff in Hhit as [Hpnull Hpslot].
    apply negb_true_iff in Hpnull. apply bool_decide_eq_true in Hpslot.
    apply list_elem_of_In in Hp.
    pose proof (mappableAt_value p (Hpre p Hp) Hpnull) as Hpid.
    rewrite (slotOf_value p b Hpslot), <- (slotOf_value r b Hslot) in Hpid.
    congruence. }
  assert (Hzero : (match slotOf d r with
                   | Some baseIndex => cachep !!! baseIndex
                   | None => 0
                   end =? 0) = true).
  { destruct (slotOf d r) as [b|] eqn:Hslot; [|reflexivity].
    rewrite Hcache, (Hnohit b eq_refl); [reflexivity|].
    apply (Hslots r b); [|exact Hnull|exact Hslot].
    apply elem_of_app. right. apply list_elem_of_here. }
  replace (step (true, resp, h, cachep) r)
    with (false, resp, analyzeValue h (valueAt d r), cachep)
    by (unfold emitRow; rewrite Hnull, Hzero, Hmiss; reflexivity).
  destruct (emit_after_miss cachep post resp (analyzeValue h (valueAt d r)))
    as (Hfail & Hhasher & _).
  split; [exact Hfail|]. split.
  - rewrite Hhasher. cbn [foldl]. do 2 f_equal.
    apply List.filter_ext_in. intros q Hq. apply list_elem_of_In in Hq.
    destruct (isNullAt d q) eqn:Hqnull; cbn [negb andb]; [reflexivity|].
    unfold missAt, cachedBefore.
    destruct (slotOf d q) as [b|] eqn:Hslot; [|reflexivity].
    rewrite Hcache, (slotOf_value q b Hslot).
    + destruct (hitBy d pre b); cbn [andb negb];
        [rewrite negb_involutive|]; reflexivity.
    + apply (Hslots q b); [|exact Hqnull|exact Hslot].
      apply elem_of_app. right. apply list_elem_of_further. exact Hq.
  - rewrite (foldl_untouched step (fun a => resultOf a) r post
               (fun a p Hne => emitRow_frame a p r Hne) Hnotpost).
    exact Hres.
Qed.

(** What the loop writes once a row has failed: a null row is written as
    null, a row whose id is in the cache gets that id, and every other
    row keeps its entry. *)
Lemma emit_after_miss_entry (cache : list Z) (rs : list nat) (q : nat)
    (res : list Z) (h1 : VectorHasher) (old : Z) :
  NoDup rs -> q ∈ rs -> res !! q = Some old ->
  resultOf (foldl step (false, res, h1, cache) rs) !! q
  = Some (if isNullAt d q then if multiplier_ h1 =? 1 then 0 else old
          else if missAt d cache q then old
          else
            let id := match slotOf d q with
                      | Some baseIndex => cache !!! baseIndex
                      | None => 0
                      end in
            if multiplier_ h1 =? 1 then id
            else u64 (old + multiplier_ h1 * id)).
Proof.
  intros Hnd Hin Hold.
  apply (foldl_at_row step (fun a => resultOf a)
           (fun a => succeeded (fst a) = false /\ snd a = cache /\
                     multiplier_ (hasherOf a) = multiplier_ h1)
           rs q); try assumption.
  - intros [[[success res'] h'] cache'] p _.
    unfold succeeded, hasherAfter. cbn [fst snd].
    intros (-> & -> & Hmul). unfold emitRow.
    destruct (isNullAt d p); cbn [fst snd]; [auto|].
    destruct (_ =? 0); cbn [negb fst snd]; [|auto].
    rewrite analyzeValue_multiplier. auto.
  - intros a p Hne. apply emitRow_frame. exact Hne.
  - unfold succeeded, hasherAfter. cbn [fst snd]. auto.
  - intros [[[success res'] h'] cache'].
    unfold succeeded, hasherAfter, emitted. cbn [fst snd].
    intros (-> & -> & Hmul) Hrow'.
    pose proof (eq_trans Hrow' Hold) as Hrow. clear Hrow'.
    unfold emitRow, missAt. cbv zeta. rewrite <- Hmul.
    destruct (isNullAt d q); cbn [fst snd];
      [apply writeNull_same; exact Hrow|].
    destruct (_ =? 0); cbn [negb fst snd]; [exact Hrow|].
    apply writeId_same. exact Hrow.
Qed.

(** The rows after the first unmappable row [r]: the null ones and those
    whose id the rows of [pre] have put in the cache are written as on
    success; the others keep their entries. *)
Lemma emit_first_miss_later (pre post : list nat) (r q : nat)
    (res : list Z) (old : Z) :
  NoDup (pre ++ r :: post) ->
  (forall p, p ∈ pre -> mappableAt h d p = true) ->
  mappableAt h d r = false ->
  (forall p b, p ∈ pre ++ r :: post -> isNullAt d p = false ->
     slotOf d p = Some b -> (b < n)%nat) ->
  q ∈ post -> res !! q = Some old ->
  resultOf (foldl step (true, res, h, replicate n 0) (pre ++ r :: post)) !! q
  = Some (if isNullAt d q || cachedBefore h d pre q
          then packedAt h d q old else old).
Proof.
  intros Hnd Hpre Hr Hslots Hq Hold.
  pose proof Hr as Hr'. apply mappableAt_false in Hr' as [Hnull Hmiss].
  pose proof Hnd as Hnd'.
  apply NoDup_app in Hnd' as (_ & Hnotpre & Hndpost).
  apply NoDup_cons in Hndpost as [Hnotpost Hndpost].
  assert (Hqpre : q ∉ pre).
  { intros Hin. apply (Hnotpre q Hin), list_elem_of_further, Hq. }
  rewrite foldl_app. cbn [foldl].
  pose proof (foldl_invariant step (fun a => Mapping a) pre
                (fun a p Hp => emitRow_Mapping a p (Hpre p Hp))
                _ (Mapping_initial res)) as Hmapping.
  assert (Hcache : forall b, (b < n)%nat ->
            snd (foldl step (true, res, h, replicate n 0) pre) !!! b
            = if hitBy d pre b then valueId h (values d !!! b) else 0).
  { intros b Hb.
    rewrite (emit_cache_exact pre b Hb _ (Mapping_initial res) Hpre).
    cbn [snd]. rewrite lookup_total_replicate_2 by exact Hb. reflexivity. }
  pose proof (foldl_untouched step (fun a => resultOf a) q pre
                (fun a p Hne => emitRow_frame a p q Hne) Hqpre
                (true, res, h, replicate n 0)) as Hres.
  destruct (foldl step (true, res, h, replicate n 0) pre)
    as [[[success resp] hp] cachep].
  unfold succeeded, hasherAfter, emitted in Hmapping, Hres.
  cbn [fst snd] in Hmapping, Hcache, Hres.
  destruct Hmapping as (-> & -> & Hlen & Hsound).
  assert (Hnohit : forall b, slotOf d r = Some b -> hitBy d pre b = false).
  { intros b Hslot. destruct (hitBy d pre b) eqn:Hhit; [|reflexivity].
    unfold hitBy in Hhit. apply existsb_exists in Hhit as (p & Hp & Hhit).
    apply andb_true_iff in Hhit as [Hpnull Hpslot].
    apply negb_true_iff in Hpnull. apply bool_decide_eq_true in Hpslot.
    apply list_elem_of_In in Hp.
    pose proof (mappableAt_value p (Hpre p Hp) Hpnull) as Hpid.
    rewrite (slotOf_value p b Hpslot), <- (slotOf_value r b Hslot) in Hpid.
    congruence. }
  assert (Hzero : (match slotOf d r with
                   | Some baseIndex => cachep !!! baseIndex
                   | None => 0
                   end =? 0) = true).
  { destruct (slotOf d r) as [b|] eqn:Hslot; [|reflexivity].
    rewrite Hcache, (Hnohit b eq_refl); [reflexivity|].
    apply (Hslots r b); [|exact Hnull|exact Hslot].
    apply elem_of_app. right. apply list_elem_of_here. }
  replace (step (true, resp, h, cachep) r)
    with (false, resp, analyzeValue h (valueAt d r), cachep)
    by (unfold emitRow; rewrite Hnull, Hzero, Hmiss; reflexivity).
  rewrite (emit_after_miss_entry cachep post q resp
             (analyzeValue h (valueAt d r)) old Hndpost Hq
             (eq_trans Hres Hold)).
  rewrite analyzeValue_multiplier. f_equal. unfold packedAt, logicalAt.
  destruct (isNullAt d q) eqn:Hqnull; cbn [orb]; [reflexivity|].
  unfold missAt, cachedBefore. cbv zeta.
  destruct (slotOf d q) as [b|] eqn:Hslot; [|reflexivity].
  assert (Hb : (b < n)%nat).
  { apply (Hslots q b); [|exact Hqnull|exact Hslot].
    apply elem_of_app. right. apply list_elem_of_further. exact Hq. }
  rewrite (Hcache b Hb), (slotOf_value q b Hslot).
  destruct (hitBy d pre b); cbn [andb]; [|reflexivity].
  destruct (valueId h (values d !!! b) =? 0); reflexivity.
Qed.

End EmitRows.

(** ** [makeValueIds] as the loop *)

Section Dispatch.
Context {T : Type} `{NativeTypeLaws T}.
Variable d : DecodedVector T.

Local Abbreviation step := (emitRow (isNullAt d) (valueAt d) (slotOf d)).

Lemma flatNoNullsRow_emit (acc : Emission) (cache : list Z) (r : nat) :
  isConstantMapping d = false -> isIdentityMapping d = true ->
  mayHaveNulls d = false ->
  step (acc, cache) r = (flatNoNullsRow (values d) acc r, cache).
Proof.
  intros Hc Hi Hn. destruct acc as [[success res] h].
  unfold emitRow, flatNoNullsRow, isNullAt, slotOf, valueAt, index.
  rewrite Hc, Hi, Hn. cbn [andb Z.eqb].
  destruct success; cbn [negb]; [|reflexivity].
  destruct (valueId h (values d !!! r) =? kUnmappable); reflexivity.
Qed.

Lemma flatWithNullsRow_emit (acc : Emission) (cache : list Z) (r : nat) :
  isConstantMapping d = false -> isIdentityMapping d = true ->
  mayHaveNulls d = true ->
  step (acc, cache) r
  = (flatWithNullsRow (values d) (nulls d) acc r, cache).
Proof.
  intros Hc Hi Hn. destruct acc as [[success res] h].
  unfold emitRow, flatWithNullsRow, isNullAt, slotOf, valueAt, index.
  rewrite Hc, Hi, Hn. cbn [andb Z.eqb].
  destruct (isBitNull (nulls d) r); [reflexivity|].
  destruct success; cbn [negb]; [|reflexivity].
  destruct (valueId h (values d !!! r) =? kUnmappable); reflexivity.
Qed.

Lemma decodedRow_emit (acc : Emission * list Z) (r : nat) :
  isConstantMapping d = false -> isIdentityMapping d = false ->
  step acc r = decodedRow (mayHaveNulls d) d acc r.
Proof.
  intros Hc Hi. destruct acc as [[[success res] h] cache].
  unfold emitRow, decodedRow, slotOf, valueAt, index.
  rewrite Hc, Hi.
  replace (mayHaveNulls d && isNullAt d r) with (isNullAt d r)
    by (unfold isNullAt; destruct (mayHaveNulls d); reflexivity).
  reflexivity.
Qed.

Lemma foldl_fst_step {A C : Type} (f : A -> nat -> A)
    (g : A * C -> nat -> A * C) (rs : list nat) :
  (forall a c r, g (a, c) r = (f a r, c)) ->
  forall a c, foldl f a rs = fst (foldl g (a, c) rs).
Proof.
  intros Hstep. induction rs as [|r rs IH]; intros a c; cbn [foldl];
    [reflexivity|].
  rewrite Hstep. apply IH.
Qed.

(** Unless the fast path of the range mode takes the batch,
    [makeValueIds] on a flat or dictionary view is the loop [emitRow] over
    the selected rows, started with an empty cache. *)
Lemma makeValueIds_as_loop (h : VectorHasher) (rows : SelectivityVector)
    (result : list Z) :
  isConstantMapping d = false ->
  (exists mapped : list Z,
     isIdentityMapping d = true /\ mayHaveNulls d = false /\
     isRange_ h = true /\
     tryMapToRange h (values d) rows result = Some mapped /\
     makeValueIds h d rows result = (true, mapped, h)) \/
  makeValueIds h d rows result
  = fst (foldl step (true, result, h, replicate (length (values d)) 0)
           (selectedRows rows)).
Proof.
  intros Hc. unfold makeValueIds. rewrite Hc.
  destruct (isIdentityMapping d) eqn:Hi.
  - destruct (mayHaveNulls d) eqn:Hn.
    + right. unfold makeValueIdsFlatWithNulls, applyToSelected.
      apply foldl_fst_step. intros a c r.
      apply flatWithNullsRow_emit; assumption.
    + unfold makeValueIdsFlatNoNulls.
      destruct (isRange_ h) eqn:Hrange.
      * destruct (tryMapToRange h (values d) rows result) as [mapped|]
          eqn:Htry.
        -- left. exists mapped. repeat split; assumption.
        -- right. unfold applyToSelected. apply foldl_fst_step.
           intros a c r. apply flatNoNullsRow_emit; assumption.
      * right. unfold applyToSelected. apply foldl_fst_step.
        intros a c r. apply flatNoNullsRow_emit; assumption.
  - right.
    assert (Hloop : forall rs acc,
              foldl (decodedRow (mayHaveNulls d) d) acc rs = foldl step acc rs).
    { induction rs as [|r rs IH]; intros acc; cbn [foldl]; [reflexivity|].
      rewrite <- decodedRow_emit by assumption. apply IH. }
    unfold makeValueIdsDecoded, applyToSelected.
    destruct (mayHaveNulls d) eqn:Hn; rewrite <- Hloop; reflexivity.
Qed.

End Dispatch.

(** ** What [makeValueIds] leaves behind *)

Lemma foldl_writeId_entry (h : VectorHasher) (f : nat -> Z) (rs : list nat)
    (row : nat) (result : list Z) (old : Z) :
  NoDup rs -> row ∈ rs -> result !! row = Some old ->
  foldl (fun res r => writeId h res r (f r)) result rs !! row
  = Some (if multiplier_ h =? 1 then f row
          else u64 (old + multiplier_ h * f row)).
Proof.
  intros Hnd Hin Hold.
  apply (foldl_at_row (fun res r => writeId h res r (f r)) (fun res => res)
           (fun _ => True) rs row); try assumption; try exact I.
  - intros. exact I.
  - intros res r Hne. apply writeId_other. exact Hne.
  - intros res _ Hrow. apply writeId_same. rewrite Hrow. exact Hold.
Qed.

Lemma foldl_writeId_other (h : VectorHasher) (f : nat -> Z) (rs : list nat)
    (row : nat) (result : list Z) :
  row ∉ rs ->
  foldl (fun res r => writeId h res r (f r)) result rs !! row = result !! row.
Proof.
  intros Hnot.
  apply (foldl_untouched (fun res r => writeId h res r (f r)) (fun res => res));
    [|exact Hnot].
  intros res r Hne. apply writeId_other. exact Hne.
Qed.

Section MakeValueIdsFacts.
Context {T : Type} `{NativeTypeLaws T}.
Variable h : VectorHasher.
Variable d : DecodedVector T.
Variable rows : SelectivityVector.
Variable result : list Z.

Lemma constant_logicalAt (row row' : nat) :
  isConstantMapping d = true -> logicalAt d row = logicalAt d row'.
Proof.
  intros Hc. unfold logicalAt, isNullAt, valueAt, index. rewrite Hc.
  reflexivity.
Qed.

Lemma slots_in_base :
  indicesInBase d rows -> isConstantMapping d = false ->
  forall r b, r ∈ selectedRows rows -> isNullAt d r = false ->
    slotOf d r = Some b -> (b < length (values d))%nat.
Proof.
  intros Hbase Hc r b Hr Hnull. unfold slotOf.
  destruct (isIdentityMapping d) eqn:Hi; [discriminate|].
  intros [= <-]. apply Hbase; assumption.
Qed.

(** When every selected row is mappable, the call succeeds, leaves the
    hasher alone and writes the packed id of every selected row. *)
Lemma makeValueIds_mapped :
  indicesInBase d rows ->
  (forall row, row ∈ selectedRows rows -> mappableAt h d row = true) ->
  (isConstantMapping d = true -> selectedRows rows <> []) ->
  succeeded (makeValueIds h d rows result) = true /\
  hasherAfter (makeValueIds h d rows result) = h /\
  (forall row old, row ∈ selectedRows rows ->
     result !! row = Some old -> 0 <= old < two64 ->
     emitted (makeValueIds h d rows result) !! row
     = Some (packedAt h d row old)) /\
  (forall row, row ∉ selectedRows rows ->
     emitted (makeValueIds h d rows result) !! row = result !! row).
Proof.
  intros Hbase Hmap Hnonempty.
  pose proof (selectedRows_NoDup rows) as Hnd.
  destruct (isConstantMapping d) eqn:Hc.
  - (* constant *)
    destruct (selectedRows rows) as [|r0 rs0] eqn:Hrs;
      [destruct (Hnonempty eq_refl eq_refl)|].
    assert (Hr0 : mappableAt h d (begin_ rows) = true).
    { unfold mappableAt.
      rewrite (constant_logicalAt (begin_ rows) r0 Hc).
      apply Hmap, list_elem_of_here. }
    unfold makeValueIds. rewrite Hc.
    assert (Hid : ((if isNullAt d (begin_ rows) then 0
                    else valueId h (valueAt d (begin_ rows)))
                   =? kUnmappable) = false).
    { unfold mappableAt, logicalAt in Hr0.
      destruct (isNullAt d (begin_ rows)); [reflexivity|].
      apply negb_true_iff. exact Hr0. }
    rewrite Hid. unfold succeeded, hasherAfter, emitted, applyToSelected.
    cbn [fst snd]. rewrite Hrs.
    split; [reflexivity|]. split; [reflexivity|]. split.
    + intros row old Hrow Hold Hrange.
      rewrite (foldl_writeId_entry h _ _ row result old Hnd Hrow Hold).
      unfold packedAt. rewrite (constant_logicalAt row (begin_ rows) Hc).
      unfold logicalAt.
      destruct (isNullAt d (begin_ rows)); [|reflexivity].
      destruct (multiplier_ h =? 1); [reflexivity|].
      rewrite Z.mul_0_r, Z.add_0_r, u64_small by exact Hrange. reflexivity.
    + intros row Hrow. apply foldl_writeId_other. exact Hrow.
  - clear Hnonempty.
    destruct (makeValueIds_as_loop d h rows result Hc)
      as [(mapped & Hi & Hn & Hrange & Htry & ->) | ->].
    + (* the fast path *)
      destruct (tryMapToRange_mapped h _ _ _ _ Hrange Htry) as [_ ->].
      unfold succeeded, hasherAfter, emitted. cbn [fst snd].
      split; [reflexivity|]. split; [reflexivity|]. split.
      * intros row old Hrow Hold _.
        rewrite (foldl_writeId_entry h _ _ row result old Hnd Hrow Hold).
        unfold packedAt, logicalAt, isNullAt, valueAt, index.
        rewrite Hn, Hc, Hi. reflexivity.
      * intros row Hrow. apply foldl_writeId_other. exact Hrow.
    + (* the loop *)
      set (init := (true, result, h, replicate (length (values d)) 0)).
      pose proof (Mapping_initial d h (length (values d)) result) as Hinit.
      pose proof (foldl_invariant
                    (emitRow (isNullAt d) (valueAt d) (slotOf d))
                    (fun a => succeeded (fst a) = true /\
                              hasherAfter (fst a) = h /\
                              length (snd a) = length (values d) /\
                              cacheSound h d (snd a))
                    (selectedRows rows)
                    (fun a r Hr => emitRow_Mapping d Hc h _ a r (Hmap r Hr))
                    init Hinit) as (Hs & Hh & _).
      split; [exact Hs|]. split; [exact Hh|]. split.
      * intros row old Hrow Hold _.
        apply (emit_mapped_entry d Hc h (length (values d))); try assumption.
        intros r b. apply slots_in_base; assumption.
      * intros row Hrow.
        apply (foldl_untouched
                 (emitRow (isNullAt d) (valueAt d) (slotOf d))
                 (fun a => emitted (fst a))); [|exact Hrow].
        intros a r Hne. apply emitRow_frame. exact Hne.
Qed.

(** When [r] is the first selected row that is not mappable, the call
    fails, leaves the entry of [r] alone, and has passed to
    [analyzeValue] exactly the values of [analyzedFrom]. *)
Lemma makeValueIds_first_miss (pre post : list nat) (r : nat) :
  indicesInBase d rows ->
  selectedRows rows = pre ++ r :: post ->
  (forall p, p ∈ pre -> mappableAt h d p = true) ->
  mappableAt h d r = false ->
  succeeded (makeValueIds h d rows result) = false /\
  hasherAfter (makeValueIds h d rows result)
  = foldl analyzeValue h (analyzedFrom h d pre r post) /\
  emitted (makeValueIds h d rows result) !! r = result !! r.
Proof.
  intros Hbase Hrs Hpre Hr.
  pose proof (selectedRows_NoDup rows) as Hnd. rewrite Hrs in Hnd.
  assert (Hin : r ∈ selectedRows rows).
  { rewrite Hrs. apply elem_of_app. right. apply list_elem_of_here. }
  unfold analyzedFrom.
  destruct (isConstantMapping d) eqn:Hc.
  - (* constant *)
    assert (Hr0 : mappableAt h d (begin_ rows) = false).
    { unfold mappableAt.
      rewrite (constant_logicalAt (begin_ rows) r Hc). exact Hr. }
    apply mappableAt_false in Hr0 as [Hnull Hid].
    unfold makeValueIds. rewrite Hc, Hnull, Hid.
    unfold succeeded, hasherAfter, emitted. cbn [fst snd foldl].
    repeat split. f_equal. unfold valueAt, index. rewrite Hc. reflexivity.
  - destruct (makeValueIds_as_loop d h rows result Hc)
      as [(mapped & Hi & Hn & Hrange & Htry & _) | ->].
    + (* the fast path has taken no batch with an unmappable value *)
      exfalso.
      destruct (tryMapToRange_mapped h _ _ _ _ Hrange Htry) as [Hall _].
      apply mappableAt_false in Hr as [_ Hid].
      apply (Hall r Hin). apply Z.eqb_eq.
      unfold valueAt, index in Hid. rewrite Hc, Hi in Hid. exact Hid.
    + rewrite Hrs.
      apply (emit_first_miss d Hc h (length (values d))); try assumption.
      intros q b Hq. apply slots_in_base; try assumption.
      rewrite Hrs. exact Hq.
Qed.

(** After the first unmappable row a constant batch has written nothing.
    A flat or dictionary batch has written the later rows that are null
    and, under a dictionary, those whose id was cached; every other later
    row has its entry as it was. *)
Lemma makeValueIds_later_rows (pre post : list nat) (r q : nat) (old : Z) :
  indicesInBase d rows ->
  selectedRows rows = pre ++ r :: post ->
  (forall p, p ∈ pre -> mappableAt h d p = true) ->
  mappableAt h d r = false ->
  q ∈ post -> result !! q = Some old ->
  emitted (makeValueIds h d rows result) !! q
  = Some (if negb (isConstantMapping d)
             && (isNullAt d q || cachedBefore h d pre q)
          then packedAt h d q old else old).
Proof.
  intros Hbase Hrs Hpre Hr Hq Hold.
  pose proof (selectedRows_NoDup rows) as Hnd. rewrite Hrs in Hnd.
  assert (Hin : r ∈ selectedRows rows).
  { rewrite Hrs. apply elem_of_app. right. apply list_elem_of_here. }
  destruct (isConstantMapping d) eqn:Hc; cbn [negb andb].
  - assert (Hr0 : mappableAt h d (begin_ rows) = false).
    { unfold mappableAt.
      rewrite (constant_logicalAt (begin_ rows) r Hc). exact Hr. }
    apply mappableAt_false in Hr0 as [Hnull Hid].
    unfold makeValueIds. rewrite Hc, Hnull, Hid.
    unfold emitted. cbn [fst snd]. exact Hold.
  - destruct (makeValueIds_as_loop d h rows result Hc)
      as [(mapped & Hi & Hn & Hrange & Htry & _) | ->].
    + exfalso.
      destruct (tryMapToRange_mapped h _ _ _ _ Hrange Htry) as [Hall _].
      apply mappableAt_false in Hr as [_ Hid].
      apply (Hall r Hin). apply Z.eqb_eq.
      unfold valueAt, index in Hid. rewrite Hc, Hi in Hid. exact Hid.
    + rewrite Hrs.
      apply (emit_first_miss_later d Hc h (length (values d)));
        try assumption.
      intros p b Hp. apply slots_in_base; try assumption.
      rewrite Hrs. exact Hp.
Qed.

(** A null row that is selected: its entry becomes 0 under a multiplier of
    1 and stays what it was otherwise. *)
Lemma makeValueIds_null_entry (row : nat) (old : Z) :
  row ∈ selectedRows rows -> isNullAt d row = true ->
  result !! row = Some old -> 0 <= old < two64 ->
  emitted (makeValueIds h d rows result) !! row
  = Some (if multiplier_ h =? 1 then 0 else old).
Proof.
  intros Hrow Hnull Hold Hrange.
  pose proof (selectedRows_NoDup rows) as Hnd.
  destruct (isConstantMapping d) eqn:Hc.
  - assert (Hnull0 : isNullAt d (begin_ rows) = true)
      by (unfold isNullAt in *; rewrite Hc in *; exact Hnull).
    unfold makeValueIds. rewrite Hc, Hnull0.
    replace (0 =? kUnmappable) with false by reflexivity.
    unfold emitted, applyToSelected. cbn [fst snd].
    rewrite (foldl_writeId_entry h _ _ row result old Hnd Hrow Hold).
    destruct (multiplier_ h =? 1); [reflexivity|].
    rewrite Z.mul_0_r, Z.add_0_r, u64_small by exact Hrange. reflexivity.
  - destruct (makeValueIds_as_loop d h rows result Hc)
      as [(mapped & Hi & Hn & _) | ->].
    + unfold isNullAt in Hnull. rewrite Hn in Hnull. discriminate.
    + apply (emit_null_entry d (selectedRows rows) row
               (true, result, h, replicate (length (values d)) 0) old);
        assumption.
Qed.

End MakeValueIdsFacts.

(** ** The native types keep the laws *)

#[export] Instance int64_laws `{Limits} : NativeTypeLaws Z.
Proof.
  split.
  - intros h value. apply analyzeValue_int_encoding.
  - reflexivity.
  - intros h vals rows result mapped Hrange.
    cbn [tryMapToRange valueId int64_native]. unfold tryMapToRange_int.
    destruct (forallb _ _) eqn:Hall; [|discriminate].
    intros [= <-]. unfold valueId_int. rewrite Hrange. split; [|reflexivity].
    intros row Hrow. rewrite forallb_forall in Hall.
    apply list_elem_of_In in Hrow. specialize (Hall row Hrow).
    apply negb_true_iff, Z.eqb_neq in Hall. exact Hall.
Qed.

#[export] Instance StringView_laws `{Limits} : NativeTypeLaws StringView.
Proof.
  split.
  - intros h value. apply analyzeValue_string_encoding.
  - reflexivity.
  - intros h vals rows result mapped _. discriminate.
Qed.

#[export] Instance bool_laws `{Limits} : NativeTypeLaws bool.
Proof.
  split.
  - intros h value. apply analyzeValue_int_encoding.
  - reflexivity.
  - intros h vals rows result mapped _. discriminate.
Qed.

(** ** Null rows *)

Lemma boolLoop_null_entry (h : VectorHasher) (nullAt : nat -> bool)
    (f : nat -> Z) (rs : list nat) (row : nat) (result : list Z) (old : Z) :
  NoDup rs -> row ∈ rs -> nullAt row = true -> result !! row = Some old ->
  foldl (fun res r => if nullAt r then writeNull h res r
                      else writeId h res r (f r)) result rs !! row
  = Some (if multiplier_ h =? 1 then 0 else old).
Proof.
  intros Hnd Hin Hnull Hold.
  apply (foldl_at_row
           (fun res r => if nullAt r then writeNull h res r
                         else writeId h res r (f r))
           (fun res => res) (fun _ => True) rs row);
    try assumption; try exact I.
  - intros. exact I.
  - intros res r Hne.
    destruct (nullAt r); [apply writeNull_other | apply writeId_other];
      exact Hne.
  - intros res _ Hrow. rewrite Hnull. apply writeNull_same.
    rewrite Hrow. exact Hold.
Qed.

(** C9: for a selected row that is null, [computeValueIds] writes 0 into
    its entry when the multiplier is 1 and leaves the entry as it was when
    the multiplier is not 1.  This holds on the constant, the flat and the
    dictionary path, for every native type and for the specialisations for
    [bool], and whether or not other rows of the batch are mappable. *)
Theorem null_row_zero_or_unchanged :
  (forall (T : Type) (N : NativeType T), NativeTypeLaws T ->
   forall (h : VectorHasher) (d : DecodedVector T)
          (rows : SelectivityVector) (result : list Z) (row : nat) (old : Z),
     row ∈ selectedRows rows -> isNullAt d row = true ->
     result !! row = Some old -> 0 <= old < two64 ->
     emitted (makeValueIds h d rows result) !! row
     = Some (if multiplier_ h =? 1 then 0 else old)) /\
  (forall (L : Limits) (h : VectorHasher) (d : DecodedVector bool)
          (rows : SelectivityVector) (result : list Z) (row : nat) (old : Z),
     row ∈ selectedRows rows -> isNullAt d row = true ->
     result !! row = Some old -> 0 <= old < two64 ->
     emitted (makeValueIds_BOOLEAN h d rows result) !! row
     = Some (if multiplier_ h =? 1 then 0 else old)).
Proof.
  split.
  - intros T N L h d rows result row old.
    apply makeValueIds_null_entry.
  - intros L h d rows result row old Hrow Hnull Hold Hrange.
    pose proof (selectedRows_NoDup rows) as Hnd.
    destruct (isConstantMapping d) eqn:Hc.
    + replace (makeValueIds_BOOLEAN h d rows result)
        with (makeValueIds h d rows result)
        by (unfold makeValueIds_BOOLEAN, makeValueIds; rewrite Hc;
            reflexivity).
      apply makeValueIds_null_entry; assumption.
    + assert (Hmay : mayHaveNulls d = true)
        by (unfold isNullAt in Hnull; destruct (mayHaveNulls d);
            [reflexivity | discriminate]).
      unfold makeValueIds_BOOLEAN. rewrite Hc, Hmay.
      destruct (isIdentityMapping d);
        unfold makeValueIdsFlatWithNulls_bool, makeValueIdsDecoded_bool,
          emitted, applyToSelected; cbn [fst snd];
        apply boolLoop_null_entry; try assumption.
      unfold isNullAt in Hnull. rewrite Hc, Hmay in Hnull. exact Hnull.
Qed.

Lemma null_row_zero_or_unchanged_witness :
  let h := withEncoding (withRange (newHasher INTEGER) true false 10 13)
             true 3 5 in
  let d := flatVector [10; 12; 11; 0; 13]
             [false; false; false; true; false] in
  emitted (@makeValueIds Z (@int64_native designLimits) h d (allRows 5)
             [7; 7; 7; 7; 7]) !! 3%nat
  = Some 7.
Proof.
  cbv zeta.
  apply (proj1 null_row_zero_or_unchanged Z (@int64_native designLimits)
           (@int64_laws designLimits)
           (withEncoding (withRange (newHasher INTEGER) true false 10 13)
              true 3 5)
           (flatVector [10; 12; 11; 0; 13]
              [false; false; false; true; false])
           (allRows 5) [7; 7; 7; 7; 7] 3%nat 7).
  - apply list_elem_of_In. vm_compute. auto 10.
  - reflexivity.
  - reflexivity.
  - unfold two64. lia.
Defined.

(** ** The outcome of [computeValueIds] *)

Lemma first_false (P : nat -> bool) (rs : list nat) :
  (exists r, r ∈ rs /\ P r = false) ->
  exists pre r post,
    rs = pre ++ r :: post /\ (forall p, p ∈ pre -> P p = true) /\
    P r = false.
Proof.
  induction rs as [|r0 rs IH]; intros (r & Hin & Hr).
  - apply elem_of_nil in Hin. contradiction.
  - destruct (P r0) eqn:Hr0.
    + destruct IH as (pre & r' & post & -> & Hpre & Hr').
      { exists r. split; [|exact Hr].
        apply elem_of_cons in Hin as [->|Hin]; [congruence | exact Hin]. }
      exists (r0 :: pre), r', post. split; [reflexivity|].
      split; [|exact Hr'].
      intros p Hp. apply elem_of_cons in Hp as [->|Hp]; [exact Hr0|].
      apply Hpre. exact Hp.
    + exists [], r0, rs. split; [reflexivity|]. split; [|exact Hr0].
      intros p Hp. apply elem_of_nil in Hp. contradiction.
Qed.

(** The call succeeds exactly when every selected row is mappable. *)
Lemma makeValueIds_succeeded_iff {T : Type} `{NativeTypeLaws T}
    (h : VectorHasher) (d : DecodedVector T) (rows : SelectivityVector)
    (result : list Z) :
  indicesInBase d rows ->
  (isConstantMapping d = true -> selectedRows rows <> []) ->
  succeeded (makeValueIds h d rows result) = true <->
  forall row, row ∈ selectedRows rows -> mappableAt h d row = true.
Proof.
  intros Hbase Hnonempty. split.
  - intros Hok row Hrow.
    destruct (mappableAt h d row) eqn:Hmap; [reflexivity|].
    destruct (first_false (mappableAt h d) (selectedRows rows))
      as (pre & r & post & Hrs & Hpre & Hr); [exists row; auto|].
    destruct (makeValueIds_first_miss h d rows result pre post r
                Hbase Hrs Hpre Hr) as (Hfail & _).
    congruence.
  - intros Hall.
    apply (makeValueIds_mapped h d rows result Hbase Hall Hnonempty).
Qed.

(** C3, as the code has it: [computeValueIds] returns true exactly when
    every selected row is mappable.  When [r] is the first selected row
    whose value has no id, the call returns false and leaves the entry of
    [r] as it was; the values it has passed to [analyzeValue] are the value
    of [r] and, after it, the value of every later selected row that is
    not null and whose id is not in the cache of the dictionary path.  Of
    the later rows, a null one is written as null and one whose id is in
    the cache is not analysed and still receives its packed id; every
    other later row keeps its entry, and a constant batch writes nothing.
    On a flat vector nothing is cached, so every later value is
    analysed. *)
Theorem makeValueIds_outcome {T : Type} `{NativeTypeLaws T}
    (h : VectorHasher) (d : DecodedVector T) (rows : SelectivityVector)
    (result : list Z) :
  indicesInBase d rows ->
  (isConstantMapping d = true -> selectedRows rows <> []) ->
  (succeeded (makeValueIds h d rows result) = true <->
   forall row, row ∈ selectedRows rows -> mappableAt h d row = true) /\
  (forall (pre post : list nat) (r : nat),
     selectedRows rows = pre ++ r :: post ->
     (forall p, p ∈ pre -> mappableAt h d p = true) ->
     mappableAt h d r = false ->
     succeeded (makeValueIds h d rows result) = false /\
     emitted (makeValueIds h d rows result) !! r = result !! r /\
     hasherAfter (makeValueIds h d rows result)
     = foldl analyzeValue h (analyzedFrom h d pre r post) /\
     (forall (q : nat) (old : Z), q ∈ post -> result !! q = Some old ->
        emitted (makeValueIds h d rows result) !! q
        = Some (if negb (isConstantMapping d)
                   && (isNullAt d q || cachedBefore h d pre q)
                then packedAt h d q old else old))) /\
  (isConstantMapping d = false -> isIdentityMapping d = true ->
   forall (pre post : list nat) (r : nat),
     analyzedFrom h d pre r post
     = valueAt d r
       :: (valueAt d <$> List.filter (fun q => negb (isNullAt d q)) post) /\
     forall q : nat, cachedBefore h d pre q = false).
Proof.
  intros Hbase Hnonempty. split; [|split].
  - apply makeValueIds_succeeded_iff; assumption.
  - intros pre post r Hrs Hpre Hr.
    destruct (makeValueIds_first_miss h d rows result pre post r
                Hbase Hrs Hpre Hr) as (Hfail & Hhasher & Hentry).
    split; [exact Hfail|]. split; [exact Hentry|].
    split; [exact Hhasher|]. intros q old Hq Hold.
    apply (makeValueIds_later_rows h d rows result pre post r q old);
      assumption.
  - intros Hc Hi pre post r.
    assert (Hnone : forall q : nat, cachedBefore h d pre q = false)
      by (intros q; unfold cachedBefore, slotOf; rewrite Hi; reflexivity).
    split; [|exact Hnone]. unfold analyzedFrom. rewrite Hc.
    do 2 f_equal. apply List.filter_ext. intros q.
    rewrite Hnone. cbn [negb]. apply andb_true_r.
Qed.

Lemma makeValueIds_outcome_witness :
  let h := snd (enableValueRange
                  (foldl (@analyzeValue_int designLimits) (newHasher BIGINT)
                     [10; 12]) 1 0) in
  let e := @makeValueIds Z (@int64_native designLimits) h
             (flatVector [11; 20; 11] [false; false; false]) (allRows 3)
             [7; 7; 7] in
  let e' := @makeValueIds Z (@int64_native designLimits) h
              (dictionaryVector [11; 20] [0; 1; 0]%nat) (allRows 3)
              [7; 7; 7] in
  (succeeded e = false /\ emitted e !! 1%nat = Some 7 /\
   hasherAfter e = foldl (@analyzeValue_int designLimits) h [20; 11] /\
   emitted e !! 2%nat = Some 7) /\
  (hasherAfter e' = foldl (@analyzeValue_int designLimits) h [20] /\
   emitted e' !! 2%nat = Some 2).
Proof.
  cbv zeta. split.
  - destruct (@makeValueIds_outcome Z (@int64_native designLimits)
                (@int64_laws designLimits)
                (snd (enableValueRange
                        (foldl (@analyzeValue_int designLimits)
                           (newHasher BIGINT) [10; 12]) 1 0))
                (flatVector [11; 20; 11] [false; false; false]) (allRows 3)
                [7; 7; 7])
      as (_ & Hmiss & _).
    + intros _ Hi. discriminate.
    + intros Hc. discriminate.
    + destruct (Hmiss [0%nat] [2%nat] 1%nat)
        as (Hfail & Hentry & Hhasher & Hlater).
      * reflexivity.
      * intros p Hp. apply list_elem_of_singleton in Hp as ->. reflexivity.
      * reflexivity.
      * split; [exact Hfail|]. split; [exact Hentry|].
        split; [exact Hhasher|].
        rewrite (Hlater 2%nat 7);
          [reflexivity | apply list_elem_of_here | reflexivity].
  - destruct (@makeValueIds_outcome Z (@int64_native designLimits)
                (@int64_laws designLimits)
                (snd (enableValueRange
                        (foldl (@analyzeValue_int designLimits)
                           (newHasher BIGINT) [10; 12]) 1 0))
                (dictionaryVector [11; 20] [0; 1; 0]%nat) (allRows 3)
                [7; 7; 7])
      as (_ & Hmiss & _).
    + intros _ _ row Hrow _. apply list_elem_of_In in Hrow.
      destruct Hrow as [<-|[<-|[<-|[]]]]; vm_compute; lia.
    + intros Hc. discriminate.
    + destruct (Hmiss [0%nat] [2%nat] 1%nat)
        as (_ & _ & Hhasher & Hlater).
      * reflexivity.
      * intros p Hp. apply list_elem_of_singleton in Hp as ->. reflexivity.
      * reflexivity.
      * split; [exact Hhasher|].
        rewrite (Hlater 2%nat 7);
          [reflexivity | apply list_elem_of_here | reflexivity].
Defined.

(** C3, as stated, fails on the dictionary path.  The hasher is in range
    mode over [10, 12] and has analysed 10 and 12; the dictionary holds 11
    and 20, and the rows point at 11, 20, 11.  Row 1 is the first that is
    unmappable.  Row 2 comes later and is not null, yet its value 11 is
    not passed to [analyzeValue]: its id is cached, so the entry is
    written and the hasher ends as the analysis of 20 alone left it. *)
Lemma makeValueIds_skips_cached_value :
  let h := snd (enableValueRange
                  (foldl (@analyzeValue_int designLimits) (newHasher BIGINT)
                     [10; 12]) 1 0) in
  let e := @makeValueIds Z (@int64_native designLimits) h
             (dictionaryVector [11; 20] [0; 1; 0]%nat) (allRows 3)
             [7; 7; 7] in
  succeeded e = false /\
  emitted e = [2; 7; 2] /\
  hasherAfter e = @analyzeValue_int designLimits h 20 /\
  hasherAfter e
  <> foldl (@analyzeValue_int designLimits) h [20; 11].
Proof.
  cbv zeta. repeat split.
  vm_compute. discriminate.
Qed.

(** ** Hashing *)

Section HashFacts.
Context {T : Type} `{Inhabited T}.
Variable hasher : T -> Z.
Variable hashMix : Z -> Z -> Z.
Variable d : DecodedVector T.
Variable rows : SelectivityVector.
Variable mix : bool.

Lemma writeHash_other (result : list Z) (r row : nat) (hash : Z) :
  r <> row -> writeHash hashMix mix result r hash !! row = result !! row.
Proof. intros Hne. unfold writeHash. apply list_lookup_insert_ne. exact Hne. Qed.

Lemma writeHash_same (result : list Z) (row : nat) (hash old : Z) :
  result !! row = Some old ->
  writeHash hashMix mix result row hash !! row
  = Some (if mix then hashMix old hash else hash).
Proof.
  intros Hold. unfold writeHash.
  rewrite list_lookup_insert_eq by (eapply lookup_lt_Some; exact Hold).
  rewrite (list_lookup_total_correct _ _ _ Hold). reflexivity.
Qed.

(** Every selected row receives the hash of what it holds, mixed into the
    old entry or not; the cache of the dictionary path changes nothing. *)
Lemma hashValues_entry (result : list Z) (row : nat) (old : Z) :
  indicesInBase d rows ->
  row ∈ selectedRows rows -> result !! row = Some old ->
  hashValues hasher hashMix d rows mix result !! row
  = Some (if mix then hashMix old (hashAt hasher d row)
          else hashAt hasher d row).
Proof.
  intros Hbase Hrow Hold.
  pose proof (selectedRows_NoDup rows) as Hnd.
  unfold hashValues, applyToSelected.
  destruct (isConstantMapping d) eqn:Hc; [|destruct (isIdentityMapping d) eqn:Hi].
  - (* constant *)
    replace (if isNullAt d (begin_ rows) then kNullHash
             else hashOne hasher d (begin_ rows))
      with (hashAt hasher d row)
      by (unfold hashAt, logicalAt, hashOne, isNullAt, valueAt, index;
          rewrite Hc; destruct (mayHaveNulls d && _); reflexivity).
    apply (foldl_at_row
             (fun res r => writeHash hashMix mix res r (hashAt hasher d row))
             (fun res => res) (fun _ => True) (selectedRows rows) row);
      try assumption; try exact I.
    + intros. exact I.
    + intros res r Hne. apply writeHash_other. exact Hne.
    + intros res _ Hres. apply writeHash_same. rewrite Hres. exact Hold.
  - (* flat *)
    apply (foldl_at_row (hashFlatRow hasher hashMix d mix)
             (fun res => res) (fun _ => True) (selectedRows rows) row);
      try assumption; try exact I.
    + intros. exact I.
    + intros res r Hne. unfold hashFlatRow.
      destruct (isNullAt d r); apply writeHash_other; exact Hne.
    + intros res _ Hres. unfold hashFlatRow, hashAt, logicalAt, hashOne.
      destruct (isNullAt d row); apply writeHash_same; rewrite Hres;
        exact Hold.
  - (* dictionary *)
    apply (foldl_at_row (hashDecodedRow hasher hashMix d mix)
             (fun acc => fst acc)
             (fun acc => length (snd acc) = length (values d) /\
                         hashCacheSound hasher d (snd acc))
             (selectedRows rows) row); try assumption.
    + intros [res cache] r Hr [Hlen Hsound]. unfold hashDecodedRow.
      destruct (isNullAt d r) eqn:Hnull; cbn [snd]; [auto|].
      destruct (cache !!! index d r =? kNullHash); cbn [snd]; [|auto].
      rewrite length_insert. split; [exact Hlen|].
      intros b Hb. rewrite length_insert in Hb.
      destruct (decide (index d r = b)) as [<-|Hne].
      * right. rewrite list_lookup_total_insert_eq by exact Hb.
        reflexivity.
      * rewrite list_lookup_total_insert_ne by exact Hne.
        apply Hsound. exact Hb.
    + intros [res cache] r Hne. unfold hashDecodedRow.
      destruct (isNullAt d r); cbn [fst]; [apply writeHash_other; exact Hne|].
      destruct (cache !!! index d r =? kNullHash); cbn [fst];
        apply writeHash_other; exact Hne.
    + cbn [snd]. split; [apply length_replicate|].
      intros b Hb. rewrite length_replicate in Hb. left.
      apply lookup_total_replicate_2. exact Hb.
    + intros [res cache] [Hlen Hsound] Hres. cbn [fst snd] in *.
      unfold hashDecodedRow, hashAt, logicalAt.
      destruct (isNullAt d row) eqn:Hnull; cbn [fst];
        [apply writeHash_same; rewrite Hres; exact Hold|].
      destruct (Z.eqb_spec (cache !!! index d row) kNullHash) as [Hz|Hhit];
        cbn [fst]; [apply writeHash_same; rewrite Hres; exact Hold|].
      destruct (Hsound (index d row)) as [Hz|Hv]; [|contradiction|].
      * rewrite Hlen. unfold index. rewrite Hc, Hi.
        apply Hbase; assumption.
      * rewrite Hv. apply writeHash_same. rewrite Hres. exact Hold.
Qed.

Lemma hashValues_other (result : list Z) (row : nat) :
  row ∉ selectedRows rows ->
  hashValues hasher hashMix d rows mix result !! row = result !! row.
Proof.
  intros Hrow. unfold hashValues, applyToSelected.
  destruct (isConstantMapping d); [|destruct (isIdentityMapping d)].
  - apply (foldl_untouched
             (fun res r => writeHash hashMix mix res r _) (fun res => res));
      [|exact Hrow].
    intros res r Hne. apply writeHash_other. exact Hne.
  - apply (foldl_untouched (hashFlatRow hasher hashMix d mix)
             (fun res => res)); [|exact Hrow].
    intros res r Hne. unfold hashFlatRow.
    destruct (isNullAt d r); apply writeHash_other; exact Hne.
  - apply (foldl_untouched (hashDecodedRow hasher hashMix d mix)
             (fun acc => fst acc)); [|exact Hrow].
    intros [res cache] r Hne. unfold hashDecodedRow.
    destruct (isNullAt d r); cbn [fst]; [apply writeHash_other; exact Hne|].
    destruct (cache !!! index d r =? kNullHash); cbn [fst];
      apply writeHash_other; exact Hne.
Qed.

End HashFacts.

(** ** Flat, constant and dictionary views of one sequence *)

(** C2, as the code has it: take two decoded views that hold the same
    value or null at every selected row.  [hash] writes the same array for
    both.  [computeValueIds] returns the same flag for both and, when the
    flag is true, writes the same array for both and leaves the hasher as
    it was.  (After an unmappable row the arrays may differ: the
    dictionary path still writes the ids it has cached.) *)
Theorem encoding_invariance {T : Type} `{NativeTypeLaws T}
    (hasher : T -> Z) (hashMix : Z -> Z -> Z) (h : VectorHasher)
    (d1 d2 : DecodedVector T) (rows : SelectivityVector) (mix : bool)
    (result : list Z) :
  indicesInBase d1 rows -> indicesInBase d2 rows ->
  holdsRows rows result ->
  selectedRows rows <> [] ->
  (forall row, row ∈ selectedRows rows ->
     logicalAt d1 row = logicalAt d2 row) ->
  hashValues hasher hashMix d1 rows mix result
  = hashValues hasher hashMix d2 rows mix result /\
  succeeded (makeValueIds h d1 rows result)
  = succeeded (makeValueIds h d2 rows result) /\
  (succeeded (makeValueIds h d1 rows result) = true ->
   emitted (makeValueIds h d1 rows result)
   = emitted (makeValueIds h d2 rows result) /\
   hasherAfter (makeValueIds h d1 rows result) = h /\
   hasherAfter (makeValueIds h d2 rows result) = h).
Proof.
  intros Hbase1 Hbase2 Hholds Hnonempty Hsame.
  assert (Hmappable : forall row, row ∈ selectedRows rows ->
            mappableAt h d1 row = mappableAt h d2 row).
  { intros row Hrow. unfold mappableAt. rewrite (Hsame row Hrow).
    reflexivity. }
  pose proof (makeValueIds_succeeded_iff h d1 rows result Hbase1
                (fun _ => Hnonempty)) as Hiff1.
  pose proof (makeValueIds_succeeded_iff h d2 rows result Hbase2
                (fun _ => Hnonempty)) as Hiff2.
  split; [|split].
  - apply list_eq. intros row.
    destruct (decide (row ∈ selectedRows rows)) as [Hrow|Hrow].
    + destruct (Hholds row Hrow) as (old & Hold & _).
      rewrite !(hashValues_entry _ _ _ rows mix result row old)
        by assumption.
      unfold hashAt. rewrite (Hsame row Hrow). reflexivity.
    + rewrite !hashValues_other by exact Hrow. reflexivity.
  - apply eq_true_iff_eq. rewrite Hiff1, Hiff2.
    split; intros Hall row Hrow;
      [rewrite <- Hmappable by exact Hrow | rewrite Hmappable by exact Hrow];
      apply Hall; exact Hrow.
  - intros Hok1.
    assert (Hall1 : forall row, row ∈ selectedRows rows ->
              mappableAt h d1 row = true) by (apply Hiff1; exact Hok1).
    assert (Hall2 : forall row, row ∈ selectedRows rows ->
              mappableAt h d2 row = true).
    { intros row Hrow. rewrite <- Hmappable by exact Hrow.
      apply Hall1. exact Hrow. }
    destruct (makeValueIds_mapped h d1 rows result Hbase1 Hall1
                (fun _ => Hnonempty)) as (_ & Hh1 & Hin1 & Hout1).
    destruct (makeValueIds_mapped h d2 rows result Hbase2 Hall2
                (fun _ => Hnonempty)) as (_ & Hh2 & Hin2 & Hout2).
    split; [|split; assumption].
    apply list_eq. intros row.
    destruct (decide (row ∈ selectedRows rows)) as [Hrow|Hrow].
    + destruct (Hholds row Hrow) as (old & Hold & Hrange).
      rewrite (Hin1 row old), (Hin2 row old) by assumption.
      unfold packedAt. rewrite (Hsame row Hrow). reflexivity.
    + rewrite Hout1, Hout2 by exact Hrow. reflexivity.
Qed.

(** C2, as stated, fails for the value ids: the flat vector 11, 20, 11 and
    the dictionary with base 11, 20 and indices 0, 1, 0 hold the same
    sequence, and with the range [10, 12] the value 20 is unmappable.  The
    flat path stops writing at row 1; the dictionary path still writes the
    cached id of 11 into row 2. *)
Lemma value_ids_differ_after_miss :
  let h := snd (enableValueRange
                  (foldl (@analyzeValue_int designLimits) (newHasher BIGINT)
                     [10; 12]) 1 0) in
  let flat := flatVector [11; 20; 11] [false; false; false] in
  let dict := dictionaryVector [11; 20] [0; 1; 0]%nat in
  (forall row, row ∈ selectedRows (allRows 3) ->
     logicalAt flat row = logicalAt dict row) /\
  emitted (@makeValueIds Z (@int64_native designLimits) h flat (allRows 3)
             [7; 7; 7]) = [2; 7; 7] /\
  emitted (@makeValueIds Z (@int64_native designLimits) h dict (allRows 3)
             [7; 7; 7]) = [2; 7; 2].
Proof.
  cbv zeta. split; [|split; reflexivity].
  intros row Hrow. apply list_elem_of_In in Hrow. vm_compute in Hrow.
  destruct Hrow as [<-|[<-|[<-|[]]]]; reflexivity.
Qed.

Lemma encoding_invariance_witness :
  let h := snd (enableValueRange
                  (foldl (@analyzeValue_int designLimits) (newHasher BIGINT)
                     [10; 12]) 1 0) in
  let flat := flatVector [11; 10; 11] [false; false; false] in
  let dict := dictionaryVector [11; 10] [0; 1; 0]%nat in
  hashValues (fun v : Z => v * 31 + 7) Z.lxor flat (allRows 3) true [7; 7; 7]
  = hashValues (fun v : Z => v * 31 + 7) Z.lxor dict (allRows 3) true [7; 7; 7]
  /\
  emitted (@makeValueIds Z (@int64_native designLimits) h flat (allRows 3)
             [7; 7; 7])
  = emitted (@makeValueIds Z (@int64_native designLimits) h dict (allRows 3)
               [7; 7; 7]).
Proof.
  cbv zeta.
  destruct (@encoding_invariance Z (@int64_native designLimits)
              (@int64_laws designLimits) (fun v : Z => v * 31 + 7) Z.lxor
              (snd (enableValueRange
                      (foldl (@analyzeValue_int designLimits)
                         (newHasher BIGINT) [10; 12]) 1 0))
              (flatVector [11; 10; 11] [false; false; false])
              (dictionaryVector [11; 10] [0; 1; 0]%nat)
              (allRows 3) true [7; 7; 7])
    as (Hhash & _ & Hids).
  - intros _ Hi. discriminate.
  - intros _ _ row Hrow _. apply list_elem_of_In in Hrow.
    vm_compute in Hrow.
    destruct Hrow as [<-|[<-|[<-|[]]]]; vm_compute; lia.
  - intros row Hrow. apply list_elem_of_In in Hrow. vm_compute in Hrow.
    destruct Hrow as [<-|[<-|[<-|[]]]]; exists 7;
      (split; [reflexivity | unfold two64; lia]).
  - discriminate.
  - intros row Hrow. apply list_elem_of_In in Hrow. vm_compute in Hrow.
    destruct Hrow as [<-|[<-|[<-|[]]]]; reflexivity.
  - split; [exact Hhash|]. apply Hids. reflexivity.
Defined.

(** ** Lookup *)

(** A fact about one row that the step of the row establishes and the
    steps of the other rows keep. *)
Lemma foldl_row_local {A : Type} (step : A -> nat -> A)
    (Inv Before After : A -> Prop) (rs : list nat) (row : nat) :
  NoDup rs -> row ∈ rs ->
  (forall a r, r ∈ rs -> Inv a -> Inv (step a r)) ->
  (forall a r, r <> row -> Before a -> Before (step a r)) ->
  (forall a r, r <> row -> After a -> After (step a r)) ->
  (forall a, Inv a -> Before a -> After (step a row)) ->
  forall a, Inv a -> Before a -> After (foldl step a rs).
Proof.
  intros Hnd Hin Hinv Hbefore Hafter Hrow a Ha Hb.
  apply list_elem_of_split in Hin as (pre & post & ->).
  apply NoDup_app in Hnd as (_ & Hpre & Hpost).
  apply NoDup_cons in Hpost as [Hpost _].
  assert (Hnotpre : row ∉ pre).
  { intros Hp. apply (Hpre row Hp). apply list_elem_of_here. }
  rewrite foldl_app. cbn [foldl].
  assert (Hkeep : forall (P : A -> Prop) (l : list nat),
            (forall a r, r <> row -> P a -> P (step a r)) -> row ∉ l ->
            forall a, P a -> P (foldl step a l)).
  { intros P l HP. induction l as [|r l IH]; intros Hl a' Ha';
      cbn [foldl]; [exact Ha'|].
    apply not_elem_of_cons in Hl as [Hne Hl].
    apply IH; [exact Hl|]. apply HP; [congruence | exact Ha']. }
  apply (Hkeep After post Hafter Hpost). apply Hrow.
  - apply foldl_invariant; [|exact Ha].
    intros a' r Hr. apply Hinv. apply elem_of_app. left. exact Hr.
  - apply (Hkeep Before pre Hbefore Hnotpre). exact Hb.
Qed.

Lemma isValid_updateBounds (rows : SelectivityVector) (row : nat) :
  isValid (updateBounds rows) row = isValid rows row.
Proof.
  unfold updateBounds, isValid.
  destruct (findFirstBit (bits_ rows)), (findLastBit (bits_ rows));
    reflexivity.
Qed.

Lemma updateBounds_idempotent (rows : SelectivityVector) :
  updateBounds (updateBounds rows) = updateBounds rows.
Proof.
  unfold updateBounds.
  destruct (findFirstBit (bits_ rows)) eqn:Hf,
    (findLastBit (bits_ rows)) eqn:Hl; cbn [bits_]; rewrite ?Hf, ?Hl;
    reflexivity.
Qed.

Lemma findFirstBit_replicate_false (n : nat) :
  findFirstBit (replicate n false) = None.
Proof. induction n as [|n IH]; cbn; [|rewrite IH]; reflexivity. Qed.

Lemma updateBounds_clearAll (rows : SelectivityVector) :
  updateBounds (clearAll rows) = clearAll rows.
Proof.
  unfold updateBounds, clearAll. cbn [bits_].
  rewrite findFirstBit_replicate_false. reflexivity.
Qed.

Lemma isValid_clearAll (rows : SelectivityVector) (row : nat) :
  isValid (clearAll rows) row = false.
Proof.
  unfold isValid, clearAll. cbn [bits_].
  destruct (replicate _ false !! row) as [b|] eqn:Hb; [|reflexivity].
  apply lookup_replicate in Hb as [-> _]. reflexivity.
Qed.

Lemma isValid_setValid_same (rows : SelectivityVector) (row : nat) :
  isValid rows row = true -> isValid (setValid rows row false) row = false.
Proof.
  unfold isValid, setValid. cbn [bits_]. intros Hvalid.
  destruct (bits_ rows !! row) as [b|] eqn:Hb; [|discriminate].
  rewrite list_lookup_insert_eq by (eapply lookup_lt_Some; exact Hb).
  reflexivity.
Qed.

Lemma isValid_setValid_other (rows : SelectivityVector) (r row : nat)
    (valid : bool) :
  r <> row -> isValid (setValid rows r valid) row = isValid rows row.
Proof.
  intros Hne. unfold isValid, setValid. cbn [bits_].
  rewrite list_lookup_insert_ne by exact Hne. reflexivity.
Qed.

Section LookupFacts.
Context {T : Type} `{NativeTypeLaws T}.
Variable h : VectorHasher.
Variable d : DecodedVector T.
Variable result : list Z.

(** What the loop of a lookup owes to a row: a mappable row stays selected
    and has its packed id; an unmappable one is deselected and keeps its
    entry. *)
Local Abbreviation Untouched row sel res :=
  (isValid sel row%nat = true /\ res !! row%nat = result !! row%nat).
Local Abbreviation LookedUp row sel res :=
  (if mappableAt h d row%nat
   then isValid sel row%nat = true /\
        forall old, result !! row%nat = Some old ->
          res !! row%nat = Some (packedAt h d row%nat old)
   else isValid sel row%nat = false /\
        res !! row%nat = result !! row%nat).

Lemma lookupFlatRow_other (acc : SelectivityVector * list Z) (r row : nat) :
  r <> row ->
  isValid (fst (lookupFlatRow h d acc r)) row = isValid (fst acc) row /\
  snd (lookupFlatRow h d acc r) !! row = snd acc !! row.
Proof.
  intros Hne. destruct acc as [sel res]. unfold lookupFlatRow.
  destruct (isNullAt d r); cbn [fst snd];
    [split; [reflexivity | apply writeNull_other; exact Hne]|].
  destruct (_ =? kUnmappable); cbn [fst snd].
  - split; [apply isValid_setValid_other; exact Hne | reflexivity].
  - split; [reflexivity | apply writeId_other; exact Hne].
Qed.

Lemma lookupFlatRow_at (sel : SelectivityVector) (res : list Z) (row : nat) :
  Untouched row sel res ->
  LookedUp row (fst (lookupFlatRow h d (sel, res) row))
    (snd (lookupFlatRow h d (sel, res) row)).
Proof.
  intros [Hvalid Hres]. unfold lookupFlatRow, mappableAt, packedAt, logicalAt.
  destruct (isNullAt d row); cbn [fst snd].
  - split; [exact Hvalid|]. intros old Hold. apply writeNull_same.
    rewrite Hres. exact Hold.
  - rewrite lookupValueId_valueId.
    destruct (valueId h (valueAt d row) =? kUnmappable); cbn [fst snd negb].
    + split; [apply isValid_setValid_same; exact Hvalid | exact Hres].
    + split; [exact Hvalid|]. intros old Hold. apply writeId_same.
      rewrite Hres. exact Hold.
Qed.

Lemma lookupFlat_row (rs : list nat) (sel : SelectivityVector) (row : nat) :
  NoDup rs -> row ∈ rs -> isValid sel row = true ->
  LookedUp row (fst (foldl (lookupFlatRow h d) (sel, result) rs))
    (snd (foldl (lookupFlatRow h d) (sel, result) rs)).
Proof.
  intros Hnd Hin Hvalid.
  apply (foldl_row_local (lookupFlatRow h d) (fun _ => True)
           (fun a => Untouched row (fst a) (snd a))
           (fun a => LookedUp row (fst a) (snd a)) rs row);
    try assumption; try exact I.
  - intros. exact I.
  - intros a r Hne [Hv Hr].
    destruct (lookupFlatRow_other a r row Hne) as [-> ->]. auto.
  - intros a r Hne.
    destruct (lookupFlatRow_other a r row Hne) as [-> ->]. auto.
  - intros [sel' res'] _. apply lookupFlatRow_at.
  - cbn [fst snd]. auto.
Qed.

(** The scratch of the dictionary path holds the sentinel 0 or the id of
    a mappable base value. *)
Local Abbreviation ScratchSound n hashes :=
  (length hashes%list = n%nat /\
   forall b : nat, (b < n)%nat ->
     hashes%list !!! b = 0 \/
     (hashes%list !!! b = valueId h (values d !!! b) /\
      (valueId h (values d !!! b) =? kUnmappable) = false)).

Lemma lookupDecodedRow_other (acc : SelectivityVector * list Z * list Z)
    (r row : nat) :
  r <> row ->
  isValid (fst (fst (lookupDecodedRow h d acc r))) row
  = isValid (fst (fst acc)) row /\
  snd (fst (lookupDecodedRow h d acc r)) !! row = snd (fst acc) !! row.
Proof.
  intros Hne. destruct acc as [[sel res] hashes]. unfold lookupDecodedRow.
  destruct (isNullAt d r); cbn [fst snd];
    [split; [reflexivity | apply writeNull_other; exact Hne]|].
  destruct (hashes !!! index d r =? 0); cbn [fst snd];
    [|split; [reflexivity | apply writeId_other; exact Hne]].
  destruct (_ =? kUnmappable); cbn [fst snd].
  - split; [apply isValid_setValid_other; exact Hne | reflexivity].
  - split; [reflexivity | apply writeId_other; exact Hne].
Qed.

Lemma lookupDecodedRow_sound (n : nat)
    (acc : SelectivityVector * list Z * list Z) (r : nat) :
  ScratchSound n (snd acc) ->
  ScratchSound n (snd (lookupDecodedRow h d acc r)).
Proof.
  destruct acc as [[sel res] hashes]. cbn [snd]. intros [Hlen Hsound].
  unfold lookupDecodedRow.
  destruct (isNullAt d r); cbn [snd]; [auto|].
  destruct (hashes !!! index d r =? 0); cbn [snd]; [|auto].
  rewrite lookupValueId_valueId.
  destruct (valueId h (valueAt d r) =? kUnmappable) eqn:Hid; cbn [snd];
    [auto|].
  rewrite length_insert. split; [exact Hlen|]. intros b Hb.
  destruct (decide (index d r = b)) as [<-|Hne].
  - right. rewrite list_lookup_total_insert_eq by (rewrite Hlen; exact Hb).
    split; [reflexivity | exact Hid].
  - rewrite list_lookup_total_insert_ne by exact Hne. apply Hsound.
    exact Hb.
Qed.

Lemma lookupDecodedRow_at (n : nat) (sel : SelectivityVector)
    (res hashes : list Z) (row : nat) :
  (isNullAt d row = false -> (index d row < n)%nat) ->
  ScratchSound n hashes ->
  Untouched row sel res ->
  LookedUp row (fst (fst (lookupDecodedRow h d (sel, res, hashes) row)))
    (snd (fst (lookupDecodedRow h d (sel, res, hashes) row))).
Proof.
  intros Hindex [Hlen Hsound] [Hvalid Hres].
  unfold lookupDecodedRow, mappableAt, packedAt, logicalAt.
  destruct (isNullAt d row) eqn:Hnull; cbn [fst snd].
  - split; [exact Hvalid|]. intros old Hold. apply writeNull_same.
    rewrite Hres. exact Hold.
  - rewrite lookupValueId_valueId.
    destruct (Z.eqb_spec (hashes !!! index d row) 0) as [Hzero|Hhit].
    + destruct (valueId h (valueAt d row) =? kUnmappable);
        cbn [fst snd negb].
      * split; [apply isValid_setValid_same; exact Hvalid | exact Hres].
      * split; [exact Hvalid|]. intros old Hold. apply writeId_same.
        rewrite Hres. exact Hold.
    + destruct (Hsound (index d row) (Hindex eq_refl)) as [Hz|[Hv Hid]];
        [contradiction|].
      unfold valueAt. rewrite Hid. cbn [fst snd negb].
      split; [exact Hvalid|]. intros old Hold. rewrite Hv.
      apply writeId_same. rewrite Hres. exact Hold.
Qed.

Lemma lookupDecoded_row (rs : list nat) (sel : SelectivityVector)
    (row : nat) :
  NoDup rs -> row ∈ rs -> isValid sel row = true ->
  (forall r, r ∈ rs -> isNullAt d r = false ->
     (index d r < length (values d))%nat) ->
  LookedUp row
    (fst (fst (foldl (lookupDecodedRow h d)
                 (sel, result, replicate (length (values d)) 0) rs)))
    (snd (fst (foldl (lookupDecodedRow h d)
                 (sel, result, replicate (length (values d)) 0) rs))).
Proof.
  intros Hnd Hin Hvalid Hindex.
  apply (foldl_row_local (lookupDecodedRow h d)
           (fun a => ScratchSound (length (values d)) (snd a))
           (fun a => Untouched row (fst (fst a)) (snd (fst a)))
           (fun a => LookedUp row (fst (fst a)) (snd (fst a))) rs row);
    try assumption.
  - intros a r _. apply lookupDecodedRow_sound.
  - intros a r Hne [Hv Hr].
    destruct (lookupDecodedRow_other a r row Hne) as [-> ->]. auto.
  - intros a r Hne.
    destruct (lookupDecodedRow_other a r row Hne) as [-> ->]. auto.
  - intros [[sel' res'] hashes']. cbn [fst snd].
    apply lookupDecodedRow_at. apply Hindex. exact Hin.
  - cbn [snd]. split; [apply length_replicate|].
    intros b Hb. left. apply lookup_total_replicate_2. exact Hb.
  - cbn [fst snd]. auto.
Qed.

Lemma lookupFlat_unselected (rs : list nat) (row : nat) :
  row ∉ rs ->
  forall acc : SelectivityVector * list Z,
    isValid (fst (foldl (lookupFlatRow h d) acc rs)) row
    = isValid (fst acc) row /\
    snd (foldl (lookupFlatRow h d) acc rs) !! row = snd acc !! row.
Proof.
  induction rs as [|r rs IH]; intros Hnot acc; cbn [foldl]; [auto|].
  apply not_elem_of_cons in Hnot as [Hne Hnot].
  destruct (IH Hnot (lookupFlatRow h d acc r)) as [-> ->].
  apply lookupFlatRow_other. congruence.
Qed.

Lemma lookupDecoded_unselected (rs : list nat) (row : nat) :
  row ∉ rs ->
  forall acc : SelectivityVector * list Z * list Z,
    isValid (fst (fst (foldl (lookupDecodedRow h d) acc rs))) row
    = isValid (fst (fst acc)) row /\
    snd (fst (foldl (lookupDecodedRow h d) acc rs)) !! row
    = snd (fst acc) !! row.
Proof.
  induction rs as [|r rs IH]; intros Hnot acc; cbn [foldl]; [auto|].
  apply not_elem_of_cons in Hnot as [Hne Hnot].
  destruct (IH Hnot (lookupDecodedRow h d acc r)) as [-> ->].
  apply lookupDecodedRow_other. congruence.
Qed.

Variable rows : SelectivityVector.

(** Every selected row is looked up. *)
Lemma lookupValueIdsTyped_row (row : nat) :
  indicesInBase d rows -> row ∈ selectedRows rows ->
  LookedUp row (fst (lookupValueIdsTyped h d rows result))
    (snd (lookupValueIdsTyped h d rows result)).
Proof.
  intros Hbase Hrow.
  pose proof (selectedRows_NoDup rows) as Hnd.
  pose proof (selectedRows_isValid rows row Hrow) as Hvalid.
  unfold lookupValueIdsTyped.
  destruct (isConstantMapping d) eqn:Hc; [|destruct (isIdentityMapping d) eqn:Hi].
  - unfold mappableAt, packedAt.
    rewrite (constant_logicalAt d row (begin_ rows) Hc). unfold logicalAt.
    destruct (isNullAt d (begin_ rows)); cbn [fst snd].
    + split; [exact Hvalid|]. intros old Hold.
      destruct (multiplier_ h =? 1); [|exact Hold].
      apply (foldl_at_row (fun res r => <[r := 0]> res) (fun res => res)
               (fun _ => True) (selectedRows rows) row);
        try assumption; try exact I.
      * intros. exact I.
      * intros res r Hne. apply list_lookup_insert_ne. exact Hne.
      * intros res _ Hres. apply list_lookup_insert_eq.
        eapply lookup_lt_Some. rewrite Hres. exact Hold.
    + rewrite lookupValueId_valueId.
      destruct (valueId h (valueAt d (begin_ rows)) =? kUnmappable);
        cbn [fst snd negb].
      * split; [apply isValid_clearAll | reflexivity].
      * split; [exact Hvalid|]. intros old Hold.
        apply foldl_writeId_entry; assumption.
  - destruct (foldl (lookupFlatRow h d) (rows, result) (selectedRows rows))
      as [rows1 result1] eqn:Hloop.
    pose proof (lookupFlat_row (selectedRows rows) rows row Hnd Hrow Hvalid)
      as Hlooked.
    unfold applyToSelected. rewrite Hloop in *. cbn [fst snd] in *.
    rewrite isValid_updateBounds. exact Hlooked.
  - destruct (foldl (lookupDecodedRow h d)
                (rows, result, replicate (length (values d)) 0)
                (selectedRows rows)) as [[rows1 result1] hashes1] eqn:Hloop.
    assert (Hindex : forall r, r ∈ selectedRows rows ->
              isNullAt d r = false -> (index d r < length (values d))%nat).
    { intros r Hr Hnull. unfold index. rewrite Hc, Hi.
      apply Hbase; assumption. }
    pose proof (lookupDecoded_row (selectedRows rows) rows row Hnd Hrow
                  Hvalid Hindex) as Hlooked.
    unfold applyToSelected. rewrite Hloop in *. cbn [fst snd] in *.
    rewrite isValid_updateBounds. exact Hlooked.
Qed.

(** No other row is written or selected. *)
Lemma lookupValueIdsTyped_unselected (row : nat) :
  row ∉ selectedRows rows ->
  snd (lookupValueIdsTyped h d rows result) !! row = result !! row /\
  (isValid (fst (lookupValueIdsTyped h d rows result)) row = true ->
   isValid rows row = true).
Proof.
  intros Hrow. unfold lookupValueIdsTyped.
  destruct (isConstantMapping d); [|destruct (isIdentityMapping d)].
  - destruct (isNullAt d (begin_ rows)); cbn [fst snd].
    + split; [|auto]. destruct (multiplier_ h =? 1); [|reflexivity].
      apply (foldl_untouched (fun res r => <[r := 0]> res) (fun res => res));
        [|exact Hrow].
      intros res r Hne. apply list_lookup_insert_ne. exact Hne.
    + destruct (_ =? kUnmappable); cbn [fst snd].
      * split; [reflexivity|]. rewrite isValid_clearAll. discriminate.
      * split; [|auto]. apply foldl_writeId_other. exact Hrow.
  - destruct (lookupFlat_unselected (selectedRows rows) row Hrow
                (rows, result)) as [Hvalid Hres].
    unfold applyToSelected.
    destruct (foldl (lookupFlatRow h d) (rows, result) (selectedRows rows))
      as [rows1 result1]. cbn [fst snd] in *.
    rewrite isValid_updateBounds, Hvalid. auto.
  - destruct (lookupDecoded_unselected (selectedRows rows) row Hrow
                (rows, result, replicate (length (values d)) 0))
      as [Hvalid Hres].
    unfold applyToSelected.
    destruct (foldl (lookupDecodedRow h d) _ (selectedRows rows))
      as [[rows1 result1] hashes1]. cbn [fst snd] in *.
    rewrite isValid_updateBounds, Hvalid. auto.
Qed.

(** The bounds of the selection that comes back are up to date. *)
Lemma lookupValueIdsTyped_bounds :
  updateBounds rows = rows ->
  updateBounds (fst (lookupValueIdsTyped h d rows result))
  = fst (lookupValueIdsTyped h d rows result).
Proof.
  intros Hbounds. unfold lookupValueIdsTyped.
  destruct (isConstantMapping d); [|destruct (isIdentityMapping d)].
  - destruct (isNullAt d (begin_ rows)); cbn [fst]; [exact Hbounds|].
    destruct (_ =? kUnmappable); cbn [fst];
      [apply updateBounds_clearAll | exact Hbounds].
  - destruct (applyToSelected rows (lookupFlatRow h d) (rows, result))
      as [rows1 result1]. cbn [fst]. apply updateBounds_idempotent.
  - destruct (applyToSelected rows (lookupDecodedRow h d) _)
      as [[rows1 result1] hashes1]. cbn [fst].
    apply updateBounds_idempotent.
Qed.

End LookupFacts.

(** C7: [lookupValueIds] is a [const] member function: it reads the
    hasher and hands back only the caller's selection and the [result]
    array, so the analysis and the encoding state, and with them the
    domain of the value ids, stay as they were.  A selected row whose
    value, not null, is outside the domain is cleared from the selection
    and its entry is left alone; every other selected row stays selected
    and gets the packed id; no row enters the selection, no other entry is
    written, and the bounds of the selection are up to date afterwards.
    When every selected row is mappable the array is the one
    [computeValueIds] writes. *)
Theorem lookupValueIds_filters_selection {T : Type} `{NativeTypeLaws T}
    (h : VectorHasher) (d : DecodedVector T) (rows : SelectivityVector)
    (result : list Z) :
  indicesInBase d rows ->
  (forall row, row ∈ selectedRows rows -> mappableAt h d row = false ->
     isValid (fst (lookupValueIdsTyped h d rows result)) row = false /\
     snd (lookupValueIdsTyped h d rows result) !! row = result !! row) /\
  (forall row, row ∈ selectedRows rows -> mappableAt h d row = true ->
     isValid (fst (lookupValueIdsTyped h d rows result)) row = true /\
     forall old, result !! row = Some old ->
       snd (lookupValueIdsTyped h d rows result) !! row
       = Some (packedAt h d row old)) /\
  (forall row, row ∉ selectedRows rows ->
     snd (lookupValueIdsTyped h d rows result) !! row = result !! row) /\
  (forall row,
     isValid (fst (lookupValueIdsTyped h d rows result)) row = true ->
     isValid rows row = true) /\
  (updateBounds rows = rows ->
   updateBounds (fst (lookupValueIdsTyped h d rows result))
   = fst (lookupValueIdsTyped h d rows result)) /\
  (holdsRows rows result -> selectedRows rows <> [] ->
   (forall row, row ∈ selectedRows rows -> mappableAt h d row = true) ->
   snd (lookupValueIdsTyped h d rows result)
   = emitted (makeValueIds h d rows result)).
Proof.
  intros Hbase.
  split; [|split; [|split; [|split; [|split]]]].
  - intros row Hrow Hmap.
    pose proof (lookupValueIdsTyped_row h d result rows row Hbase Hrow)
      as Hlooked.
    rewrite Hmap in Hlooked. exact Hlooked.
  - intros row Hrow Hmap.
    pose proof (lookupValueIdsTyped_row h d result rows row Hbase Hrow)
      as Hlooked.
    rewrite Hmap in Hlooked. exact Hlooked.
  - intros row Hrow.
    apply (lookupValueIdsTyped_unselected h d result rows row Hrow).
  - intros row Hvalid.
    destruct (decide (row ∈ selectedRows rows)) as [Hrow|Hrow].
    + apply selectedRows_isValid. exact Hrow.
    + apply (lookupValueIdsTyped_unselected h d result rows row Hrow).
      exact Hvalid.
  - apply lookupValueIdsTyped_bounds.
  - intros Hholds Hnonempty Hall.
    destruct (makeValueIds_mapped h d rows result Hbase Hall
                (fun _ => Hnonempty)) as (_ & _ & Hin & Hout).
    apply list_eq. intros row.
    destruct (decide (row ∈ selectedRows rows)) as [Hrow|Hrow].
    + destruct (Hholds row Hrow) as (old & Hold & Hrange).
      rewrite (Hin row old Hrow Hold Hrange).
      pose proof (lookupValueIdsTyped_row h d result rows row Hbase Hrow)
        as Hlooked.
      rewrite (Hall row Hrow) in Hlooked. apply Hlooked. exact Hold.
    + rewrite (Hout row Hrow).
      apply (lookupValueIdsTyped_unselected h d result rows row Hrow).
Qed.

Lemma lookupValueIds_filters_selection_witness :
  let h := snd (enableValueIds
                  (foldl (@analyzeValue_string designLimits)
                     (newHasher VARCHAR)
                     ["apple"; "banana"; "apple"; "cherry"]%string) 1 0) in
  let probe := flatVector ["apple"; "date"]%string [false; false] in
  let out := @lookupValueIdsTyped StringView
               (@StringView_native designLimits) h probe (allRows 2)
               [7; 7] in
  (isValid (fst out) 1 = false /\ snd out !! 1%nat = Some 7) /\
  (isValid (fst out) 0 = true /\ snd out !! 0%nat = Some 1).
Proof.
  cbv zeta.
  destruct (@lookupValueIds_filters_selection StringView
              (@StringView_native designLimits)
              (@StringView_laws designLimits)
              (snd (enableValueIds
                      (foldl (@analyzeValue_string designLimits)
                         (newHasher VARCHAR)
                         ["apple"; "banana"; "apple"; "cherry"]%string) 1 0))
              (flatVector ["apple"; "date"]%string [false; false])
              (allRows 2) [7; 7])
    as (Hunmapped & Hmapped & _).
  - intros _ Hi. discriminate.
  - split.
    + apply (Hunmapped 1%nat); [|reflexivity].
      apply list_elem_of_In. vm_compute. auto.
    + destruct (Hmapped 0%nat) as [Hvalid Hentry];
        [apply list_elem_of_In; vm_compute; auto | reflexivity |].
      split; [exact Hvalid|]. apply (Hentry 7). reflexivity.
Defined.

(** ** Row-keyed emission *)

Lemma makeValueIdsForRows_below `{NativeType StringView} (h : VectorHasher)
    (groups : list (option StringView)) :
  forall (i : nat) (result : list Z) (j : nat),
    (j < i)%nat ->
    snd (makeValueIdsForRows_from h groups i result) !! j = result !! j.
Proof.
  induction groups as [|[value|] groups IH]; intros i result j Hj;
    cbn [makeValueIdsForRows_from]; [reflexivity| |].
  - destruct (valueId h value =? kUnmappable); [reflexivity|].
    rewrite IH by lia. apply writeId_other. lia.
  - rewrite IH by lia. apply writeNull_other. lia.
Qed.

Lemma makeValueIdsForRows_beyond `{NativeType StringView} (h : VectorHasher)
    (groups : list (option StringView)) :
  forall (i : nat) (result : list Z) (j : nat),
    (i + length groups <= j)%nat ->
    snd (makeValueIdsForRows_from h groups i result) !! j = result !! j.
Proof.
  induction groups as [|[value|] groups IH]; intros i result j Hj;
    cbn [makeValueIdsForRows_from length] in *; [reflexivity| |].
  - destruct (valueId h value =? kUnmappable); [reflexivity|].
    rewrite IH by lia. apply writeId_other. lia.
  - rewrite IH by lia. apply writeNull_other. lia.
Qed.

Lemma makeValueIdsForRows_success `{NativeType StringView}
    (h : VectorHasher)
    (groups : list (option StringView)) :
  forall (i : nat) (result : list Z),
    fst (makeValueIdsForRows_from h groups i result) = true <->
    forall value, Some value ∈ groups ->
      valueId h value <> kUnmappable.
Proof.
  induction groups as [|[value|] groups IH]; intros i result;
    cbn [makeValueIdsForRows_from].
  - split; [|reflexivity]. intros _ value Hin.
    apply elem_of_nil in Hin. contradiction.
  - destruct (Z.eqb_spec (valueId h value) kUnmappable) as [Hmiss|Hid].
    + split; [discriminate|]. intros Hall. exfalso.
      apply (Hall value); [apply list_elem_of_here | exact Hmiss].
    + rewrite IH. split.
      * intros Hall v Hin. apply elem_of_cons in Hin as [[= ->]|Hin];
          [exact Hid | apply Hall; exact Hin].
      * intros Hall v Hin. apply Hall, list_elem_of_further, Hin.
  - rewrite IH. split.
    + intros Hall v Hin. apply elem_of_cons in Hin as [Heq|Hin];
        [discriminate | apply Hall; exact Hin].
    + intros Hall v Hin. apply Hall, list_elem_of_further, Hin.
Qed.

Lemma makeValueIdsForRows_miss `{NativeType StringView} (h : VectorHasher)
    (pre post : list (option StringView)) (value : StringView) :
  (forall v, Some v ∈ pre -> valueId h v <> kUnmappable) ->
  valueId h value = kUnmappable ->
  forall (i : nat) (result : list Z),
    makeValueIdsForRows_from h (pre ++ Some value :: post) i result
    = (false, snd (makeValueIdsForRows_from h pre i result)).
Proof.
  intros Hpre Hmiss.
  induction pre as [|[v|] pre IH]; intros i result;
    cbn [makeValueIdsForRows_from app].
  - rewrite Hmiss, Z.eqb_refl. reflexivity.
  - destruct (Z.eqb_spec (valueId h v) kUnmappable) as [Hv|Hv].
    + exfalso. apply (Hpre v); [apply list_elem_of_here | exact Hv].
    + apply IH. intros v' Hin. apply Hpre, list_elem_of_further, Hin.
  - apply IH. intros v' Hin. apply Hpre, list_elem_of_further, Hin.
Qed.

Lemma makeValueIdsForRows_entry `{NativeType StringView} (h : VectorHasher)
    (groups : list (option StringView)) :
  (forall value, Some value ∈ groups ->
     valueId h value <> kUnmappable) ->
  forall (i : nat) (result : list Z) (k : nat) (g : option StringView)
         (old : Z),
    groups !! k = Some g -> result !! (i + k)%nat = Some old ->
    snd (makeValueIdsForRows_from h groups i result) !! (i + k)%nat
    = Some match g with
           | None => if multiplier_ h =? 1 then 0 else old
           | Some value =>
               if multiplier_ h =? 1 then valueId h value
               else u64 (old + multiplier_ h * valueId h value)
           end.
Proof.
  induction groups as [|g0 groups IH]; intros Hall i result k g old Hk Hold;
    [rewrite lookup_nil in Hk; discriminate|].
  assert (Hrest : forall value, Some value ∈ groups ->
            valueId h value <> kUnmappable)
    by (intros v Hin; apply Hall, list_elem_of_further, Hin).
  destruct k as [|k]; cbn in Hk.
  - injection Hk as ->. rewrite Nat.add_0_r in *.
    destruct g as [value|]; cbn [makeValueIdsForRows_from].
    + destruct (Z.eqb_spec (valueId h value) kUnmappable) as [Hv|Hv];
        [exfalso; apply (Hall value); [apply list_elem_of_here | exact Hv]|].
      rewrite makeValueIdsForRows_below by lia.
      apply writeId_same. exact Hold.
    + rewrite makeValueIdsForRows_below by lia.
      apply writeNull_same. exact Hold.
  - replace (i + S k)%nat with (S i + k)%nat in * by lia.
    destruct g0 as [value|]; cbn [makeValueIdsForRows_from].
    + destruct (Z.eqb_spec (valueId h value) kUnmappable) as [Hv|Hv];
        [exfalso; apply (Hall value); [apply list_elem_of_here | exact Hv]|].
      apply IH; [exact Hrest | exact Hk|].
      rewrite writeId_other by lia. exact Hold.
    + apply IH; [exact Hrest | exact Hk|].
      rewrite writeNull_other by lia. exact Hold.
Qed.

(** C8, as the code has it: [computeValueIdsForRows] on a string column
    writes the packed ids and returns whether every row was mapped, but
    it never calls [analyzeValue]: the hasher comes back as it went in.
    At the first unmappable value it returns false at once; the rows
    before it have their packed ids, and the rows from it on are neither
    read nor written, the array being what the call on the rows before it
    alone leaves. *)
Theorem makeValueIdsForRows_VARCHAR_outcome `{NativeType StringView}
    (h : VectorHasher)
    (groups : list (option StringView)) (result : list Z) :
  hasherAfter (makeValueIdsForRows_VARCHAR h groups result) = h /\
  (succeeded (makeValueIdsForRows_VARCHAR h groups result) = true <->
   forall value, Some value ∈ groups ->
     valueId h value <> kUnmappable) /\
  (forall (pre post : list (option StringView)) (value : StringView),
     groups = pre ++ Some value :: post ->
     (forall v, Some v ∈ pre -> valueId h v <> kUnmappable) ->
     valueId h value = kUnmappable ->
     succeeded (makeValueIdsForRows_VARCHAR h groups result) = false /\
     emitted (makeValueIdsForRows_VARCHAR h groups result)
     = emitted (makeValueIdsForRows_VARCHAR h pre result) /\
     (forall i, (length pre <= i)%nat ->
        emitted (makeValueIdsForRows_VARCHAR h groups result) !! i
        = result !! i)) /\
  (forall (i : nat) (g : option StringView) (old : Z),
     (forall value, Some value ∈ groups ->
        valueId h value <> kUnmappable) ->
     groups !! i = Some g -> result !! i = Some old ->
     emitted (makeValueIdsForRows_VARCHAR h groups result) !! i
     = Some match g with
            | None => if multiplier_ h =? 1 then 0 else old
            | Some value =>
                if multiplier_ h =? 1 then valueId h value
                else u64 (old + multiplier_ h * valueId h value)
            end).
Proof.
  unfold makeValueIdsForRows_VARCHAR, hasherAfter, succeeded, emitted.
  split; [|split; [|split]].
  - destruct (makeValueIdsForRows_from h groups 0 result). reflexivity.
  - rewrite <- (makeValueIdsForRows_success h groups 0 result).
    destruct (makeValueIdsForRows_from h groups 0 result). reflexivity.
  - intros pre post value -> Hpre Hmiss.
    rewrite (makeValueIdsForRows_miss h pre post value Hpre Hmiss).
    pose proof (makeValueIdsForRows_beyond h pre 0 result) as Hbeyond.
    destruct (makeValueIdsForRows_from h pre 0 result) as [ok res].
    cbn [fst snd] in *. repeat split. intros i Hi. apply Hbeyond. lia.
  - intros i g old Hall Hi Hold.
    pose proof (makeValueIdsForRows_entry h groups Hall 0 result i g old
                  Hi Hold) as Hentry.
    destruct (makeValueIdsForRows_from h groups 0 result) as [ok res].
    exact Hentry.
Qed.

Lemma makeValueIdsForRows_VARCHAR_outcome_witness :
  let h := snd (enableValueIds
                  (foldl (@analyzeValue_string designLimits)
                     (newHasher VARCHAR)
                     ["apple"; "banana"; "cherry"]%string) 1 0) in
  let e := @makeValueIdsForRows_VARCHAR (@StringView_native designLimits) h
             [Some "banana"; None; Some "date"; Some "apple"]%string
             [7; 7; 7; 7] in
  succeeded e = false /\ emitted e !! 3%nat = Some 7.
Proof.
  cbv zeta.
  destruct (@makeValueIdsForRows_VARCHAR_outcome
              (@StringView_native designLimits)
              (snd (enableValueIds
                      (foldl (@analyzeValue_string designLimits)
                         (newHasher VARCHAR)
                         ["apple"; "banana"; "cherry"]%string) 1 0))
              [Some "banana"; None; Some "date"; Some "apple"]%string
              [7; 7; 7; 7])
    as (_ & _ & Hmiss & _).
  destruct (Hmiss [Some "banana"; None]%string [Some "apple"]%string
              "date"%string) as (Hfail & _ & Hkept).
  - reflexivity.
  - intros v Hin. apply list_elem_of_In in Hin.
    destruct Hin as [[= <-]|[Hin|[]]]; [|discriminate].
    vm_compute. discriminate.
  - vm_compute. reflexivity.
  - split; [exact Hfail|]. apply (Hkept 3%nat). cbn. lia.
Defined.

(** C8, as stated, fails: the hasher has analysed the strings a and b and
    is in range mode over them, so z and y are both unmappable.  The
    row-keyed call returns false at z and leaves the hasher as it was: its
    range still ends at b and it knows neither z nor y.
    [computeValueIds] on a flat vector of the same two values has analysed
    both when it returns false. *)
Lemma makeValueIdsForRows_VARCHAR_analyses_nothing :
  let h := snd (enableValueRange
                  (foldl (@analyzeValue_string designLimits)
                     (newHasher VARCHAR) ["a"; "b"]%string) 1 0) in
  let byRows := @makeValueIdsForRows_VARCHAR
                  (@StringView_native designLimits) h
                  [Some "z"; Some "y"]%string [7; 7] in
  let byBatch := @makeValueIds StringView (@StringView_native designLimits)
                   h (flatVector ["z"; "y"]%string [false; false])
                   (allRows 2) [7; 7] in
  succeeded byRows = false /\ succeeded byBatch = false /\
  hasherAfter byRows = h /\
  max_ (hasherAfter byRows) = stringAsNumber "b" /\
  max_ (hasherAfter byBatch) = stringAsNumber "z" /\
  uniqueValues_find (StringData "y") (uniqueValues_ (hasherAfter byRows))
  = None /\
  uniqueValues_find (StringData "y") (uniqueValues_ (hasherAfter byBatch))
  = Some {| data_ := StringData "y"; id_ := 4 |}.
Proof.
  cbv zeta.
  split; [|split; [|split; [|split; [|split; [|split]]]]];
    vm_compute; reflexivity.
Qed.

(** ** Activation of the distinct encoding *)

Lemma builtin_mul_overflow_result (a b : Z) :
  0 <= a -> 0 <= b ->
  (let '(overflow, result) := builtin_mul_overflow a b in
   if overflow then kRangeTooLarge else result)
  = if a * b <? two64 then a * b else kRangeTooLarge.
Proof.
  intros Ha Hb. unfold builtin_mul_overflow, fits_u64.
  destruct (Z.ltb_spec (a * b) two64) as [Hlt|Hge].
  - replace (0 <=? a * b) with true by (symmetry; apply Z.leb_le; nia).
    cbn [andb negb]. apply u64_small. nia.
  - rewrite andb_false_r. reflexivity.
Qed.

(** X1: [enableValueIds] selects the distinct encoding with one id per entry
    of the set, one for null and [reserve] spare ones; it returns the
    product of the multiplier and this size, or [kRangeTooLarge] when the
    product does not fit 64 bits; the analysis is left as it was. *)
Theorem enableValueIds_activates (h : VectorHasher) (multiplier reserve : Z) :
  0 <= multiplier ->
  0 <= uniqueValues_size (uniqueValues_ h) + 1 + reserve < two64 ->
  let size := uniqueValues_size (uniqueValues_ h) + 1 + reserve in
  let h' := snd (enableValueIds h multiplier reserve) in
  isRange_ h' = false /\ multiplier_ h' = multiplier /\
  rangeSize_ h' = size /\
  fst (enableValueIds h multiplier reserve)
  = (if multiplier * size <? two64 then multiplier * size
     else kRangeTooLarge) /\
  h' = withEncoding h false multiplier size.
Proof.
  intros Hmul Hsize. cbv zeta. unfold enableValueIds.
  rewrite (u64_small _ Hsize).
  pose proof (builtin_mul_overflow_result multiplier
                (uniqueValues_size (uniqueValues_ h) + 1 + reserve) Hmul
                (proj1 Hsize)) as Hprod.
  destruct (builtin_mul_overflow multiplier _) as [overflow result].
  cbn [fst snd withEncoding isRange_ multiplier_ rangeSize_].
  repeat split; try reflexivity. exact Hprod.
Qed.

Lemma enableValueIds_activates_witness :
  let h := foldl (@analyzeValue_string designLimits) (newHasher VARCHAR)
             ["apple"; "banana"; "apple"]%string in
  rangeSize_ (snd (enableValueIds h 5 4)) = 2 + 1 + 4 /\
  fst (enableValueIds h 5 4) = 35.
Proof.
  cbv zeta.
  destruct (enableValueIds_activates
              (foldl (@analyzeValue_string designLimits) (newHasher VARCHAR)
                 ["apple"; "banana"; "apple"]%string) 5 4)
    as (_ & _ & Hsize & Hprod & _).
  - lia.
  - vm_compute. split; [discriminate | reflexivity].
  - split; [exact Hsize | exact Hprod].
Defined.

(** ** [cardinality] and the activation it prepares *)

(** X2: [cardinality] changes the hasher once only: a second call reports the
    same two counts and leaves the hasher as the first call left it.  The
    first call itself changes nothing but the two flags of the range. *)
Theorem cardinality_stable `{Limits} (h : VectorHasher) :
  let '(asRange, asDistincts, h') := cardinality h in
  cardinality h' = (asRange, asDistincts, h') /\
  h' = withRange h (hasRange_ h') (rangeOverflow_ h') (min_ h) (max_ h).
Proof.
  unfold cardinality.
  destruct h as [k has over lo hi dover uniq sto bytes r m s].
  cbn [typeKind_ hasRange_ rangeOverflow_ min_ max_ distinctOverflow_
       uniqueValues_ withRange].
  destruct (isBoolean k) eqn:Hk.
  { cbn [typeKind_ withRange]. rewrite Hk. split; reflexivity. }
  unfold builtin_sub_overflow.
  destruct has, over; cbn [negb orb typeKind_ hasRange_ rangeOverflow_ min_
    max_ distinctOverflow_ uniqueValues_ withRange];
    try (destruct dover;
         cbn [typeKind_ hasRange_ rangeOverflow_ min_ max_ distinctOverflow_
              uniqueValues_ withRange negb orb];
         rewrite Hk; split; reflexivity).
  destruct (fits_i64 (hi - lo)) eqn:Hfit; cbn [negb];
    [destruct (i64 (hi - lo) <? kMaxRange) eqn:Hlt|];
    destruct dover;
    cbn [typeKind_ hasRange_ rangeOverflow_ min_ max_ distinctOverflow_
         uniqueValues_ withRange negb orb];
    rewrite Hk; cbn [negb orb]; rewrite ?Hfit; cbn [negb]; rewrite ?Hlt;
    split; reflexivity.
Qed.

(** X3: A range that [cardinality] reports as usable is the size that
    [enableValueRange] then sets up without reserve, the observed range
    staying as it is; and the number of distinct values it reports is the
    size that [enableValueIds] sets up. *)
Theorem cardinality_then_enable `{Limits} (h : VectorHasher) :
  typeKind_ h <> BOOLEAN ->
  kMin <= min_ h <= max_ h -> max_ h <= kMax ->
  uniqueValues_size (uniqueValues_ h) + 1 < two64 ->
  let '(asRange, asDistincts, h') := cardinality h in
  (asRange <> kRangeTooLarge ->
   fst (enableValueRange h' 1 0) = Some asRange /\
   rangeSize_ (snd (enableValueRange h' 1 0)) = asRange /\
   min_ (snd (enableValueRange h' 1 0)) = min_ h /\
   max_ (snd (enableValueRange h' 1 0)) = max_ h) /\
  (asDistincts <> kRangeTooLarge ->
   fst (enableValueIds h' 1 0) = asDistincts /\
   rangeSize_ (snd (enableValueIds h' 1 0)) = asDistincts).
Proof.
  intros Hkind Hlo Hhi Hcount.
  assert (Hk : isBoolean (typeKind_ h) = false)
    by (destruct (typeKind_ h); try reflexivity; congruence).
  assert (Hsize : u64 (uniqueValues_size (uniqueValues_ h) + 1 + 0)
                  = uniqueValues_size (uniqueValues_ h) + 1).
  { rewrite Z.add_0_r. apply u64_small. unfold uniqueValues_size in *. lia. }
  assert (Hone : forall size, 0 <= size < two64 ->
            (let '(overflow, result) := builtin_mul_overflow 1 size in
             if overflow then kRangeTooLarge else result) = size).
  { intros size Hs. rewrite builtin_mul_overflow_result by lia.
    rewrite Z.mul_1_l.
    destruct (Z.ltb_spec size two64); [reflexivity | lia]. }
  assert (Hids : forall g : VectorHasher,
            uniqueValues_ g = uniqueValues_ h ->
            fst (enableValueIds g 1 0)
            = uniqueValues_size (uniqueValues_ h) + 1 /\
            rangeSize_ (snd (enableValueIds g 1 0))
            = uniqueValues_size (uniqueValues_ h) + 1).
  { intros g Hg. unfold enableValueIds. rewrite Hg, Hsize.
    pose proof (Hone (uniqueValues_size (uniqueValues_ h) + 1)) as Hprod.
    destruct (builtin_mul_overflow 1 _) as [overflow result].
    cbn [fst snd withEncoding rangeSize_]. split; [|reflexivity].
    apply Hprod. unfold uniqueValues_size in *. lia. }
  assert (Hrange : hasRange_ h = true -> max_ h - min_ h <= kMax ->
            fst (enableValueRange h 1 0) = Some (max_ h - min_ h + 2) /\
            rangeSize_ (snd (enableValueRange h 1 0)) = max_ h - min_ h + 2 /\
            min_ (snd (enableValueRange h 1 0)) = min_ h /\
            max_ (snd (enableValueRange h 1 0)) = max_ h).
  { intros Hhas Hfit. unfold enableValueRange.
    change (Z.quot 0 2) with 0.
    cbn [hasRange_ withEncoding min_ max_]. rewrite Hhas. cbn [negb].
    assert (Hmin : (if min_ h <? i64 (i64 (kMin + 0) + 1) then kMin
                    else i64 (min_ h - 0)) = min_ h).
    { destruct (Z.ltb_spec (min_ h) (i64 (i64 (kMin + 0) + 1))); wrap_lia. }
    assert (Hmax : (if i64 (kMax - 0) <? max_ h then kMax
                    else i64 (max_ h + 0)) = max_ h).
    { destruct (Z.ltb_spec (i64 (kMax - 0)) (max_ h)); wrap_lia. }
    rewrite Hmin, Hmax, u64_i64_plus.
    assert (Hs : 0 <= max_ h - min_ h + 2 < two64)
      by (unfold kMin, kMax, two63, two64 in *; lia).
    rewrite (u64_small _ Hs).
    pose proof (Hone _ Hs) as Hprod.
    destruct (builtin_mul_overflow 1 _) as [overflow result].
    cbn [fst snd withEncoding withRange rangeSize_ min_ max_].
    rewrite Hprod. repeat split; reflexivity. }
  unfold cardinality, builtin_sub_overflow. rewrite Hk.
  destruct (hasRange_ h) eqn:Hhas, (rangeOverflow_ h) eqn:Hover;
    cbn [negb orb];
    try (destruct (distinctOverflow_ h);
         (split; [intros Hne; exfalso; apply Hne; reflexivity|]);
         [intros Hne; exfalso; apply Hne; reflexivity | intros _];
         apply Hids; reflexivity).
  destruct (fits_i64 (max_ h - min_ h)) eqn:Hfit; cbn [negb];
    [destruct (Z.ltb_spec (i64 (max_ h - min_ h)) kMaxRange) as [Hlt|Hge]|];
    try (destruct (distinctOverflow_ h) eqn:Hd;
         cbn [withRange distinctOverflow_ uniqueValues_]; rewrite ?Hd;
         (split; [intros Hne; exfalso; apply Hne; reflexivity|]);
         [intros Hne; exfalso; apply Hne; reflexivity | intros _];
         apply Hids; reflexivity).
  apply fits_i64_true in Hfit.
  assert (Has : u64 (i64 (i64 (max_ h - min_ h) + 2)) = max_ h - min_ h + 2).
  { rewrite u64_i64_plus. apply u64_small.
    unfold kMin, kMax, two63, two64 in *. lia. }
  rewrite Has.
  destruct (distinctOverflow_ h) eqn:Hd;
    (split; [intros _; apply Hrange; [reflexivity | lia]|]);
    [intros Hne; exfalso; apply Hne; reflexivity | intros _].
  apply Hids. reflexivity.
Qed.

Lemma cardinality_then_enable_witness :
  let h := foldl (@analyzeValue_string designLimits) (newHasher VARCHAR)
             ["b"; "f"; "b"]%string in
  fst (enableValueRange h 1 0) = Some 6 /\ fst (enableValueIds h 1 0) = 3.
Proof.
  cbv zeta.
  pose proof (@cardinality_then_enable designLimits
                (foldl (@analyzeValue_string designLimits)
                   (newHasher VARCHAR) ["b"; "f"; "b"]%string)) as Hw.
  change (@cardinality designLimits
            (foldl (@analyzeValue_string designLimits) (newHasher VARCHAR)
               ["b"; "f"; "b"]%string))
    with (6, 3,
          foldl (@analyzeValue_string designLimits) (newHasher VARCHAR)
            ["b"; "f"; "b"]%string) in Hw.
  destruct Hw as [Hrange Hids].
  - discriminate.
  - vm_compute. repeat split; discriminate.
  - vm_compute. discriminate.
  - vm_compute. reflexivity.
  - split.
    + apply Hrange. vm_compute. discriminate.
    + apply Hids. vm_compute. discriminate.
Defined.

(** ** [enableValueRange] without a range *)

(** X4: [enableValueRange] fails exactly on a hasher that has no range; by
    then it has already overwritten [multiplier_], and it has changed
    nothing else.  Whether it fails or not, it leaves the flags of the
    analysis, the distinct values and their storage alone. *)
Theorem enableValueRange_requires_range (h : VectorHasher)
    (multiplier reserve : Z) :
  (fst (enableValueRange h multiplier reserve) = None <->
   hasRange_ h = false) /\
  (hasRange_ h = false ->
   snd (enableValueRange h multiplier reserve)
   = withEncoding h (isRange_ h) multiplier (rangeSize_ h)) /\
  (let h' := snd (enableValueRange h multiplier reserve) in
   typeKind_ h' = typeKind_ h /\ hasRange_ h' = hasRange_ h /\
   rangeOverflow_ h' = rangeOverflow_ h /\
   distinctOverflow_ h' = distinctOverflow_ h /\
   uniqueValues_ h' = uniqueValues_ h /\
   uniqueValuesStorage_ h' = uniqueValuesStorage_ h /\
   distinctStringsBytes_ h' = distinctStringsBytes_ h /\
   multiplier_ h' = multiplier).
Proof.
  unfold enableValueRange. cbn [hasRange_ withEncoding].
  destruct (hasRange_ h) eqn:Hhas; cbn [negb].
  - destruct (builtin_mul_overflow multiplier _) as [overflow result].
    cbn [fst snd]. split; [split; discriminate|].
    split; [discriminate|]. cbv zeta. repeat split; try reflexivity.
  - cbn [fst snd]. split; [split; reflexivity|].
    split; [reflexivity|]. cbv zeta. repeat split; try assumption;
      reflexivity.
Qed.

Lemma enableValueRange_requires_range_witness :
  snd (enableValueRange (newHasher BIGINT) 5 0)
  = withEncoding (newHasher BIGINT) false 5 0.
Proof.
  destruct (enableValueRange_requires_range (newHasher BIGINT) 5 0)
    as (_ & Hfail & _).
  apply Hfail. reflexivity.
Defined.

(** ** [merge], further *)

Lemma mergeUniqueValues_present (theirs mine : list UniqueValue) :
  (forall d, d ∈ (data_ <$> theirs) -> d ∈ (data_ <$> mine)) ->
  mergeUniqueValues mine theirs = mine.
Proof.
  unfold mergeUniqueValues. induction theirs as [|v theirs IH];
    intros Hall; cbn [foldl]; [reflexivity|].
  unfold uniqueValues_insert at 2. cbn [setId data_].
  destruct (uniqueValues_find (data_ v) mine) as [u|] eqn:Hfind; cbn [fst].
  - apply IH. intros d Hd. apply Hall. rewrite fmap_cons.
    apply list_elem_of_further. exact Hd.
  - exfalso. apply uniqueValues_find_None in Hfind. apply Hfind, Hall.
    rewrite fmap_cons. apply list_elem_of_here.
Qed.

Lemma mergeUniqueValues_contents (theirs mine : list UniqueValue)
    (d : UniqueData) :
  d ∈ (data_ <$> mergeUniqueValues mine theirs) <->
  d ∈ (data_ <$> mine) \/ d ∈ (data_ <$> theirs).
Proof.
  destruct (mergeUniqueValues_fresh theirs mine)
    as (fresh & -> & _ & Hmem & _).
  rewrite fmap_app, elem_of_app, Hmem.
  destruct (decide (d ∈ (data_ <$> mine))); tauto.
Qed.

(** X5: Merging the same hasher in a second time changes nothing. *)
Theorem merge_idempotent (h other : VectorHasher) :
  merge (merge h other) other = merge h other.
Proof.
  unfold merge at 2 3.
  destruct (isBoolean (typeKind_ h)) eqn:Hk.
  { unfold merge. rewrite Hk. reflexivity. }
  destruct h as [k has over lo hi dover uniq sto bytes r m s].
  cbn [typeKind_ hasRange_ rangeOverflow_ min_ max_ distinctOverflow_
       uniqueValues_ withRange] in *.
  unfold merge.
  destruct has, (hasRange_ other), over, (rangeOverflow_ other);
    cbn [andb negb withRange withDistinct typeKind_ hasRange_ rangeOverflow_
         min_ max_ distinctOverflow_ uniqueValues_];
    destruct dover, (distinctOverflow_ other);
    cbn [andb negb withRange withDistinct typeKind_ hasRange_ rangeOverflow_
         min_ max_ distinctOverflow_ uniqueValues_];
    rewrite Hk;
    cbn [andb negb withRange withDistinct typeKind_ hasRange_ rangeOverflow_
         min_ max_ distinctOverflow_ uniqueValues_];
    rewrite ?(mergeUniqueValues_present (uniqueValues_ other)
                (mergeUniqueValues uniq (uniqueValues_ other)))
      by (intros d Hd; apply mergeUniqueValues_contents; right; exact Hd);
    cbv [withRange withDistinct typeKind_ hasRange_ rangeOverflow_ min_ max_
         distinctOverflow_ uniqueValues_ uniqueValuesStorage_
         distinctStringsBytes_ isRange_ multiplier_ rangeSize_];
    try reflexivity; f_equal; lia.
Qed.

(** X6: Merging is symmetric in what it learns: for two hashers that are not
    BOOLEAN, the flags of [merge a b] are those of [merge b a]; when the
    merged range is valid it is the same range; and when the distinct
    values have not overflowed, the two sets hold the same contents.
    (The ids need not agree: each side keeps its own.) *)
Theorem merge_symmetric (a b : VectorHasher) :
  typeKind_ a <> BOOLEAN -> typeKind_ b <> BOOLEAN ->
  hasRange_ (merge a b) = hasRange_ (merge b a) /\
  rangeOverflow_ (merge a b) = rangeOverflow_ (merge b a) /\
  distinctOverflow_ (merge a b) = distinctOverflow_ (merge b a) /\
  (hasRange_ (merge a b) = true ->
   min_ (merge a b) = min_ (merge b a) /\
   max_ (merge a b) = max_ (merge b a)) /\
  (distinctOverflow_ (merge a b) = false ->
   forall d : UniqueData,
     d ∈ (data_ <$> uniqueValues_ (merge a b)) <->
     d ∈ (data_ <$> uniqueValues_ (merge b a))).
Proof.
  intros Ha Hb.
  assert (Hka : isBoolean (typeKind_ a) = false)
    by (destruct (typeKind_ a); try reflexivity; congruence).
  assert (Hkb : isBoolean (typeKind_ b) = false)
    by (destruct (typeKind_ b); try reflexivity; congruence).
  unfold merge. rewrite Hka, Hkb.
  destruct (hasRange_ a), (hasRange_ b), (rangeOverflow_ a),
    (rangeOverflow_ b);
    cbn [andb negb withRange withDistinct hasRange_ rangeOverflow_ min_ max_
         distinctOverflow_ uniqueValues_];
    destruct (distinctOverflow_ a), (distinctOverflow_ b);
    cbn [andb negb withRange withDistinct hasRange_ rangeOverflow_ min_ max_
         distinctOverflow_ uniqueValues_];
    (split; [reflexivity|]); (split; [reflexivity|]);
    (split; [reflexivity|]);
    (split; [try discriminate; intros _; split; lia|]);
    try discriminate;
    intros _ d; rewrite !mergeUniqueValues_contents; tauto.
Qed.

Lemma merge_symmetric_witness :
  let a := foldl (@analyzeValue_string designLimits) (newHasher VARCHAR)
             ["b"; "f"]%string in
  let b := foldl (@analyzeValue_string designLimits) (newHasher VARCHAR)
             ["a"; "b"]%string in
  min_ (merge a b) = min_ (merge b a) /\ max_ (merge a b) = max_ (merge b a).
Proof.
  cbv zeta.
  destruct (merge_symmetric
              (foldl (@analyzeValue_string designLimits) (newHasher VARCHAR)
                 ["b"; "f"]%string)
              (foldl (@analyzeValue_string designLimits) (newHasher VARCHAR)
                 ["a"; "b"]%string))
    as (_ & _ & _ & Hrange & _); [discriminate | discriminate |].
  apply Hrange. vm_compute. reflexivity.
Defined.

(** ** The numbering of the distinct values *)

Lemma wellNumbered_app (mine fresh : list UniqueValue) :
  wellNumbered mine ->
  (forall (k : nat) (u : UniqueValue), fresh !! k = Some u ->
     id_ u = uniqueValues_size mine + 1 + Z.of_nat k) ->
  (forall d, d ∈ (data_ <$> fresh) -> d ∉ (data_ <$> mine)) ->
  NoDup (data_ <$> fresh) ->
  wellNumbered (mine ++ fresh).
Proof.
  intros [Hids Hnd] Hfresh Hnew Hndf. split.
  - intros k u Hk. apply lookup_app_Some in Hk as [Hk|[Hlen Hk]].
    + apply Hids. exact Hk.
    + rewrite (Hfresh _ _ Hk). unfold uniqueValues_size. lia.
  - rewrite fmap_app. apply NoDup_app. split; [exact Hnd|].
    split; [|exact Hndf]. intros d Hmine Hf. exact (Hnew d Hf Hmine).
Qed.

(** X7: [merge] keeps the numbering of the distinct values: if the ids of the
    local set are 1, 2, ... in the order of insertion and no content is
    held twice, the same is true after the merge, whatever the other
    hasher holds. *)
Theorem merge_keeps_numbering (h other : VectorHasher) :
  wellNumbered (uniqueValues_ h) ->
  wellNumbered (uniqueValues_ (merge h other)).
Proof.
  intros Hwell. unfold merge.
  destruct (isBoolean (typeKind_ h)); [exact Hwell|].
  match goal with
  | |- context [if ?c then withRange _ _ _ _ _ else withRange _ _ _ _ _] =>
      destruct c
  end; cbn [withRange distinctOverflow_ uniqueValues_];
    (destruct (negb (distinctOverflow_ h) && negb (distinctOverflow_ other));
     cbn [withDistinct uniqueValues_]; [|exact Hwell]);
    destruct (mergeUniqueValues_fresh (uniqueValues_ other) (uniqueValues_ h))
      as (fresh & -> & Hids & Hmem & Hnd);
    (apply wellNumbered_app; [exact Hwell | exact Hids | | exact Hnd]);
    intros d Hd; apply Hmem in Hd; tauto.
Qed.

Lemma merge_keeps_numbering_witness :
  wellNumbered
    (uniqueValues_
       (merge
          (withDistinct (newHasher BIGINT) false
             [ {| data_ := IntData 7; id_ := 1 |};
               {| data_ := IntData 9; id_ := 2 |} ])
          (withDistinct (newHasher BIGINT) false
             [ {| data_ := IntData 9; id_ := 1 |};
               {| data_ := IntData 11; id_ := 2 |} ]))).
Proof.
  apply merge_keeps_numbering. split.
  - intros [|[|k]] u; cbn; intros [= <-]; reflexivity.
  - cbn. apply (bool_decide_unpack _). vm_compute. reflexivity.
Defined.

(** ** [merge] with a side that has overflowed *)

Lemma cardinality_overflowed `{Limits} (g : VectorHasher) :
  isBoolean (typeKind_ g) = false ->
  (hasRange_ g = false \/ rangeOverflow_ g = true ->
   fst (fst (cardinality g)) = kRangeTooLarge) /\
  (distinctOverflow_ g = true ->
   snd (fst (cardinality g)) = kRangeTooLarge).
Proof.
  intros Hk. unfold cardinality, builtin_sub_overflow. rewrite Hk.
  destruct (hasRange_ g), (rangeOverflow_ g), (fits_i64 (max_ g - min_ g)),
    (i64 (max_ g - min_ g) <? kMaxRange), (distinctOverflow_ g) eqn:Hd;
    cbn [negb orb withRange distinctOverflow_ uniqueValues_ fst snd];
    rewrite ?Hd; cbn [fst snd];
    (split; [intros [Hb|Hb] | intros Hb]); try discriminate; reflexivity.
Qed.

(** X8: An overflow is contagious under [merge].  When either side lacks a
    valid range, the merged hasher has no range and a range overflow, its
    [min_] and [max_] stay as they were, and [cardinality] reports
    [kRangeTooLarge] for the range.  When either side has a distinct
    overflow, the merged hasher has one, its distinct values stay as they
    were, and [cardinality] reports [kRangeTooLarge] for the distinct
    values.  A BOOLEAN hasher is never changed, and no merge touches the
    encoding or the string storage. *)
Theorem merge_overflow_contagious `{Limits} (h other : VectorHasher) :
  (typeKind_ h <> BOOLEAN ->
   hasRange_ h = false \/ hasRange_ other = false \/
   rangeOverflow_ h = true \/ rangeOverflow_ other = true ->
     hasRange_ (merge h other) = false /\
     rangeOverflow_ (merge h other) = true /\
     min_ (merge h other) = min_ h /\ max_ (merge h other) = max_ h /\
     fst (fst (cardinality (merge h other))) = kRangeTooLarge) /\
  (typeKind_ h <> BOOLEAN ->
   distinctOverflow_ h = true \/ distinctOverflow_ other = true ->
     distinctOverflow_ (merge h other) = true /\
     uniqueValues_ (merge h other) = uniqueValues_ h /\
     snd (fst (cardinality (merge h other))) = kRangeTooLarge) /\
  (typeKind_ h = BOOLEAN -> merge h other = h) /\
  (typeKind_ (merge h other) = typeKind_ h /\
   isRange_ (merge h other) = isRange_ h /\
   multiplier_ (merge h other) = multiplier_ h /\
   rangeSize_ (merge h other) = rangeSize_ h /\
   uniqueValuesStorage_ (merge h other) = uniqueValuesStorage_ h /\
   distinctStringsBytes_ (merge h other) = distinctStringsBytes_ h).
Proof.
  assert (Hkind : typeKind_ h <> BOOLEAN -> isBoolean (typeKind_ h) = false)
    by (destruct (typeKind_ h); intros Hne; [congruence | reflexivity ..]).
  split; [|split; [|split]].
  - intros Hne Hbad.
    assert (Hvalid : hasRange_ h && hasRange_ other
                     && negb (rangeOverflow_ h)
                     && negb (rangeOverflow_ other) = false).
    { destruct Hbad as [Hb|[Hb|[Hb|Hb]]]; rewrite Hb;
        rewrite ?andb_false_r; reflexivity. }
    assert (Hm : hasRange_ (merge h other) = false /\
                 rangeOverflow_ (merge h other) = true /\
                 min_ (merge h other) = min_ h /\
                 max_ (merge h other) = max_ h /\
                 typeKind_ (merge h other) = typeKind_ h).
    { unfold merge. rewrite (Hkind Hne), Hvalid.
      cbn [withRange distinctOverflow_ uniqueValues_].
      destruct (negb (distinctOverflow_ h) && negb (distinctOverflow_ other));
        repeat split; reflexivity. }
    destruct Hm as (Hhas & Hover & Hlo & Hhi & Hty).
    repeat split; try assumption.
    apply cardinality_overflowed; [rewrite Hty; exact (Hkind Hne)|].
    left. exact Hhas.
  - intros Hne Hbad.
    assert (Hclean : negb (distinctOverflow_ h)
                     && negb (distinctOverflow_ other) = false).
    { destruct Hbad as [Hb|Hb]; rewrite Hb; rewrite ?andb_false_r;
        reflexivity. }
    assert (Hm : distinctOverflow_ (merge h other) = true /\
                 uniqueValues_ (merge h other) = uniqueValues_ h /\
                 typeKind_ (merge h other) = typeKind_ h).
    { unfold merge. rewrite (Hkind Hne).
      match goal with
      | |- context [if ?c then withRange _ _ _ _ _
                    else withRange _ _ _ _ _] => destruct c
      end; cbn [withRange distinctOverflow_ uniqueValues_]; rewrite Hclean;
        repeat split; reflexivity. }
    destruct Hm as (Hover & Huniq & Hty).
    repeat split; try assumption.
    apply cardinality_overflowed; [rewrite Hty; exact (Hkind Hne)|].
    exact Hover.
  - intros Hb. unfold merge. rewrite Hb. reflexivity.
  - unfold merge. destruct (isBoolean (typeKind_ h)); [repeat split|].
    repeat match goal with
           | |- context [if ?c then _ else _] => destruct c
           end; repeat split; reflexivity.
Qed.

Lemma merge_overflow_contagious_witness :
  let a := foldl (@analyzeValue_string designLimits) (newHasher VARCHAR)
             ["b"; "f"]%string in
  let b := analyzeValue_string (H := designLimits) (newHasher VARCHAR)
             "a string of more than seven bytes" in
  fst (fst (@cardinality designLimits (merge a b))) = kRangeTooLarge /\
  merge (newHasher BOOLEAN) a = newHasher BOOLEAN.
Proof.
  cbv zeta.
  destruct (@merge_overflow_contagious designLimits
              (foldl (@analyzeValue_string designLimits) (newHasher VARCHAR)
                 ["b"; "f"]%string)
              (analyzeValue_string (H := designLimits) (newHasher VARCHAR)
                 "a string of more than seven bytes"))
    as (Hrange & _).
  destruct Hrange as (_ & _ & _ & _ & Hcard);
    [discriminate | right; right; right; vm_compute; reflexivity |].
  split; [exact Hcard|].
  destruct (@merge_overflow_contagious designLimits (newHasher BOOLEAN)
              (foldl (@analyzeValue_string designLimits) (newHasher VARCHAR)
                 ["b"; "f"]%string))
    as (_ & _ & Hbool & _).
  apply Hbool. reflexivity.
Defined.

(** ** The storage of the distinct strings *)

Lemma stringSize_append (s t : string) :
  stringSize (s +:+ t) = stringSize s + stringSize t.
Proof.
  unfold stringSize. induction s as [|c s IH].
  - change ("" +:+ t)%string with t. cbn [String.length]. lia.
  - change (String c s +:+ t)%string with (String c (s +:+ t)).
    cbn [String.length]. rewrite !Nat2Z.inj_succ. lia.
Qed.

Lemma appendToBack_snoc (pre : list StringBuffer) (b : StringBuffer)
    (s : string) :
  appendToBack (pre ++ [b]) s = pre ++ [bufferAppend b s].
Proof.
  induction pre as [|b0 pre IH]; [reflexivity|].
  cbn [app appendToBack]. rewrite IH.
  destruct (pre ++ [b]) eqn:Hpre; [|reflexivity].
  destruct pre; discriminate.
Qed.

Lemma reservedBytes_snoc (pre : list StringBuffer) (b : StringBuffer) :
  reservedBytes (pre ++ [b]) = reservedBytes pre + capacity b.
Proof.
  unfold reservedBytes. induction pre as [|b0 pre IH]; cbn [app foldr];
    [|rewrite IH]; lia.
Qed.

(** What [copyStringToLocal] does to the storage when it copies: the
    string goes to the end of the last buffer if it fits there, and to a
    buffer of its own, reserved for it, if not. *)
Lemma copyStringToLocal_copies `{Limits} (h : VectorHasher) (s : StringView) :
  8 < stringSize s ->
  distinctStringsBytes_ h <= kMaxDistinctStringsBytes ->
  exists (pre : list StringBuffer) (b : StringBuffer) (bytes : Z),
    copyStringToLocal h s = withStorage h (pre ++ [bufferAppend b s]) bytes /\
    stringSize (contents b) + stringSize s <= capacity b /\
    ((uniqueValuesStorage_ h = pre ++ [b] /\
      bytes = distinctStringsBytes_ h) \/
     (uniqueValuesStorage_ h = pre /\ b = newBuffer (stringSize s) /\
      bytes = distinctStringsBytes_ h + capacity b)).
Proof.
  intros Hlong Hbudget. unfold copyStringToLocal.
  replace (stringSize s <=? 8) with false by (symmetry; apply Z.leb_gt; lia).
  replace (kMaxDistinctStringsBytes <? distinctStringsBytes_ h) with false
    by (symmetry; apply Z.ltb_ge; lia).
  assert (Hnew : stringSize (contents (newBuffer (stringSize s)))
                 + stringSize s <= capacity (newBuffer (stringSize s))).
  { cbn [newBuffer contents capacity]. unfold stringSize at 1.
    cbn [String.length]. lia. }
  destruct (last (uniqueValuesStorage_ h)) as [b|] eqn:Hlast.
  - apply last_Some in Hlast as [pre Hsto]. cbv zeta.
    match goal with
    | |- context [match uniqueValuesStorage_ h with
                  | [] => ?x
                  | _ :: _ => h
                  end] =>
        replace (match uniqueValuesStorage_ h with
                 | [] => x
                 | _ :: _ => h
                 end) with h
          by (rewrite Hsto; destruct pre; reflexivity)
    end.
    rewrite Hsto, last_last.
    destruct (Z.ltb_spec (capacity b) (stringSize (contents b) + stringSize s))
      as [Hfull|Hfits].
    + exists (pre ++ [b]), (newBuffer (stringSize s)),
        (distinctStringsBytes_ h + capacity (newBuffer (stringSize s))).
      cbn [withStorage uniqueValuesStorage_ distinctStringsBytes_].
      rewrite appendToBack_snoc. split; [reflexivity|].
      split; [exact Hnew|]. right. repeat split.
    + exists pre, b, (distinctStringsBytes_ h).
      rewrite Hsto, appendToBack_snoc.
      split; [reflexivity|]. split; [exact Hfits|]. left.
      split; reflexivity.
  - apply last_None in Hlast. rewrite Hlast.
    cbn [withStorage uniqueValuesStorage_ distinctStringsBytes_ List.last].
    replace (capacity (newBuffer (stringSize s))
             <? stringSize (contents (newBuffer (stringSize s)))
                + stringSize s) with false
      by (symmetry; apply Z.ltb_ge; exact Hnew).
    cbn [withStorage uniqueValuesStorage_ distinctStringsBytes_ appendToBack].
    exists [], (newBuffer (stringSize s)),
      (distinctStringsBytes_ h + capacity (newBuffer (stringSize s))).
    split; [reflexivity|]. split; [exact Hnew|]. right.
    repeat split.
Qed.

(** When [copyStringToLocal] copies nothing it leaves the storage as it
    is: the string is short enough to live in the entry itself, or the
    budget of bytes is used up, which is a distinct overflow. *)
Lemma copyStringToLocal_skips `{Limits} (h : VectorHasher) (s : StringView) :
  stringSize s <= 8 \/ kMaxDistinctStringsBytes < distinctStringsBytes_ h ->
  uniqueValuesStorage_ (copyStringToLocal h s) = uniqueValuesStorage_ h /\
  distinctStringsBytes_ (copyStringToLocal h s) = distinctStringsBytes_ h /\
  distinctOverflow_ (copyStringToLocal h s)
  = distinctOverflow_ h || (8 <? stringSize s).
Proof.
  intros Hskip. unfold copyStringToLocal.
  destruct (Z.leb_spec (stringSize s) 8) as [Hshort|Hlong].
  - replace (8 <? stringSize s) with false
      by (symmetry; apply Z.ltb_ge; lia).
    rewrite orb_false_r. repeat split.
  - destruct Hskip as [Hs|Hfull]; [lia|].
    replace (kMaxDistinctStringsBytes <? distinctStringsBytes_ h) with true
      by (symmetry; apply Z.ltb_lt; lia).
    replace (8 <? stringSize s) with true by (symmetry; apply Z.ltb_lt; lia).
    rewrite orb_true_r. repeat split.
Qed.

(** ** The distinct part of [analyzeValue(StringView)] *)

Lemma copyStringToLocal_uniqueValues `{Limits} (h : VectorHasher)
    (s : StringView) :
  uniqueValues_ (copyStringToLocal h s) = uniqueValues_ h.
Proof.
  unfold copyStringToLocal.
  destruct (stringSize s <=? 8); [reflexivity|].
  destruct (kMaxDistinctStringsBytes <? distinctStringsBytes_ h);
    [reflexivity|].
  destruct (uniqueValuesStorage_ h);
    match goal with
    | |- context [if ?c then _ else _] => destruct c
    end; reflexivity.
Qed.

(** The three ways of [analyzeValue(StringView)] through the distinct
    values: frozen after an overflow; nothing to do for a string that is
    known; and for a new string one entry more, with the next id, followed
    by the check of the budget of entries and the copy of the bytes. *)
Lemma analyzeValue_string_distinct `{Limits} (h : VectorHasher)
    (value : StringView) :
  let h' := analyzeValue_string h value in
  (distinctOverflow_ h = true ->
   distinctOverflow_ h' = true /\ uniqueValues_ h' = uniqueValues_ h /\
   uniqueValuesStorage_ h' = uniqueValuesStorage_ h /\
   distinctStringsBytes_ h' = distinctStringsBytes_ h) /\
  (distinctOverflow_ h = false ->
   uniqueValues_find (StringData value) (uniqueValues_ h) <> None ->
   distinctOverflow_ h' = false /\ uniqueValues_ h' = uniqueValues_ h /\
   uniqueValuesStorage_ h' = uniqueValuesStorage_ h /\
   distinctStringsBytes_ h' = distinctStringsBytes_ h) /\
  (distinctOverflow_ h = false ->
   uniqueValues_find (StringData value) (uniqueValues_ h) = None ->
   uniqueValues_ h'
   = uniqueValues_ h
     ++ [ {| data_ := StringData value;
             id_ := uniqueValues_size (uniqueValues_ h) + 1 |} ] /\
   ((kMaxDistinct < uniqueValues_size (uniqueValues_ h) + 1 /\
     distinctOverflow_ h' = true /\
     uniqueValuesStorage_ h' = uniqueValuesStorage_ h /\
     distinctStringsBytes_ h' = distinctStringsBytes_ h) \/
    (uniqueValues_size (uniqueValues_ h) + 1 <= kMaxDistinct /\
     exists g : VectorHasher,
       uniqueValuesStorage_ g = uniqueValuesStorage_ h /\
       distinctStringsBytes_ g = distinctStringsBytes_ h /\
       distinctOverflow_ g = false /\
       distinctOverflow_ h' = distinctOverflow_ (copyStringToLocal g value) /\
       uniqueValuesStorage_ h'
       = uniqueValuesStorage_ (copyStringToLocal g value) /\
       distinctStringsBytes_ h'
       = distinctStringsBytes_ (copyStringToLocal g value)))).
Proof.
  cbv zeta. unfold analyzeValue_string, uniqueValues_insert. cbn [data_].
  set (h1 := if rangeOverflow_ h then h else _).
  assert (H1 : distinctOverflow_ h1 = distinctOverflow_ h /\
               uniqueValues_ h1 = uniqueValues_ h /\
               uniqueValuesStorage_ h1 = uniqueValuesStorage_ h /\
               distinctStringsBytes_ h1 = distinctStringsBytes_ h).
  { subst h1. destruct (rangeOverflow_ h); [repeat split|].
    destruct (kStringASRangeMaxSize <? stringSize value); [repeat split|].
    unfold updateRange. destruct (hasRange_ h); repeat split. }
  clearbody h1. destruct H1 as (Hover & Huniq & Hsto & Hbytes).
  rewrite Hover, Huniq.
  destruct (distinctOverflow_ h) eqn:Hd.
  { split; [intros _; repeat split; assumption|].
    split; intros; discriminate. }
  split; [discriminate|].
  destruct (uniqueValues_find (StringData value) (uniqueValues_ h))
    as [u|] eqn:Hfind.
  { split; [|discriminate]. intros _ _. repeat split; assumption. }
  split; [intros _ Hno; destruct (Hno eq_refl)|]. intros _ _.
  match goal with
  | |- context [uniqueValues_size (uniqueValues_ h ++ [?new])] =>
      replace (uniqueValues_size (uniqueValues_ h ++ [new]))
        with (uniqueValues_size (uniqueValues_ h) + 1)
        by (rewrite uniqueValues_size_app; reflexivity)
  end.
  destruct (Z.ltb_spec kMaxDistinct (uniqueValues_size (uniqueValues_ h) + 1))
    as [Hfull|Hroom].
  - split; [reflexivity|]. left.
    repeat split; first [assumption | reflexivity].
  - rewrite copyStringToLocal_uniqueValues. split; [reflexivity|]. right.
    split; [exact Hroom|].
    eexists. split; [|split; [|split; [|split; [|split]]]];
      [| | |reflexivity ..]; [exact Hsto | exact Hbytes | reflexivity].
Qed.

(** X9: The analysis of strings numbers the distinct values as it finds them:
    if the ids are 1, 2, ... in the order of insertion and no content is
    held twice, this is still so after any sequence of calls of
    [analyzeValue(StringView)], with or without overflow. *)
Theorem analyzeValue_string_keeps_numbering `{Limits} (h : VectorHasher)
    (values : list StringView) :
  wellNumbered (uniqueValues_ h) ->
  wellNumbered (uniqueValues_ (foldl analyzeValue_string h values)).
Proof.
  revert h. induction values as [|value values IH]; intros h Hwell;
    cbn [foldl]; [exact Hwell|].
  apply IH.
  destruct (analyzeValue_string_distinct h value) as (Hfrozen & Hknown & Hnew).
  destruct (distinctOverflow_ h) eqn:Hd.
  { destruct (Hfrozen eq_refl) as (_ & -> & _). exact Hwell. }
  destruct (uniqueValues_find (StringData value) (uniqueValues_ h))
    as [u|] eqn:Hfind.
  { destruct (Hknown eq_refl) as (_ & -> & _); [discriminate | exact Hwell]. }
  destruct (Hnew eq_refl eq_refl) as [-> _].
  apply uniqueValues_find_None in Hfind.
  apply wellNumbered_app; [exact Hwell | | |].
  - intros [|k] u Hk; cbn in Hk; [|discriminate].
    injection Hk as <-. cbn [id_]. lia.
  - intros d Hd'. cbn in Hd'. apply list_elem_of_singleton in Hd'.
    subst d. exact Hfind.
  - cbn. apply NoDup_singleton.
Qed.

Lemma analyzeValue_string_keeps_numbering_witness :
  wellNumbered
    (uniqueValues_
       (foldl (@analyzeValue_string designLimits) (newHasher VARCHAR)
          ["apple"; "banana"; "apple"; "cherry"]%string)).
Proof.
  apply (@analyzeValue_string_keeps_numbering designLimits).
  split.
  - intros k u Hk. cbn in Hk. rewrite lookup_nil in Hk. discriminate.
  - cbn. constructor.
Defined.

Lemma uniqueValues_find_app (d : UniqueData) (s t : list UniqueValue)
    (u : UniqueValue) :
  uniqueValues_find d s = Some u -> uniqueValues_find d (s ++ t) = Some u.
Proof.
  unfold uniqueValues_find. induction s as [|u' s IH]; cbn; [discriminate|].
  destruct (bool_decide (data_ u' = d)); [auto | exact IH].
Qed.

Lemma uniqueValues_find_snoc (d : UniqueData) (s : list UniqueValue)
    (i : Z) :
  uniqueValues_find d s = None ->
  uniqueValues_find d (s ++ [ {| data_ := d; id_ := i |} ])
  = Some {| data_ := d; id_ := i |}.
Proof.
  unfold uniqueValues_find. induction s as [|u' s IH]; cbn.
  - intros _. rewrite bool_decide_eq_true_2 by reflexivity. reflexivity.
  - destruct (bool_decide (data_ u' = d)); [discriminate | exact IH].
Qed.

(** One call keeps every entry under its id, and a hasher that has not
    overflowed knows the value afterwards. *)
Lemma analyzeValue_string_finds `{Limits} (h : VectorHasher)
    (value : StringView) :
  (forall d u, uniqueValues_find d (uniqueValues_ h) = Some u ->
     uniqueValues_find d (uniqueValues_ (analyzeValue_string h value))
     = Some u) /\
  (distinctOverflow_ h = false ->
   exists u,
     uniqueValues_find (StringData value)
       (uniqueValues_ (analyzeValue_string h value)) = Some u) /\
  (distinctOverflow_ h = true ->
   distinctOverflow_ (analyzeValue_string h value) = true).
Proof.
  destruct (analyzeValue_string_distinct h value) as (Hfrozen & Hknown & Hnew).
  destruct (distinctOverflow_ h) eqn:Hd.
  { destruct (Hfrozen eq_refl) as (Hover & -> & _).
    split; [auto|]. split; [discriminate | intros _; exact Hover]. }
  split; [|split; [intros _ | discriminate]].
  - destruct (uniqueValues_find (StringData value) (uniqueValues_ h))
      as [u0|] eqn:Hfind.
    + destruct (Hknown eq_refl) as (_ & -> & _); [discriminate | auto].
    + destruct (Hnew eq_refl eq_refl) as [-> _].
      intros d u Hu. apply uniqueValues_find_app. exact Hu.
  - destruct (uniqueValues_find (StringData value) (uniqueValues_ h))
      as [u0|] eqn:Hfind.
    + destruct (Hknown eq_refl) as (_ & -> & _); [discriminate|].
      exists u0. exact Hfind.
    + destruct (Hnew eq_refl eq_refl) as [-> _].
      eexists. apply uniqueValues_find_snoc. exact Hfind.
Qed.

(** X10: Insertion and lookup agree: when a sequence of calls of
    [analyzeValue(StringView)] ends without distinct overflow, every
    string of the sequence is in the set, every entry that was there
    before is still found under the id it had, and the set holds nothing
    else. *)
Theorem analyzed_strings_are_found `{Limits} (h : VectorHasher)
    (values : list StringView) :
  distinctOverflow_ (foldl analyzeValue_string h values) = false ->
  (forall value, value ∈ values ->
     exists u,
       uniqueValues_find (StringData value)
         (uniqueValues_ (foldl analyzeValue_string h values)) = Some u) /\
  (forall d u, uniqueValues_find d (uniqueValues_ h) = Some u ->
     uniqueValues_find d
       (uniqueValues_ (foldl analyzeValue_string h values)) = Some u) /\
  (forall d,
     d ∈ (data_ <$> uniqueValues_ (foldl analyzeValue_string h values)) ->
     d ∈ (data_ <$> uniqueValues_ h) \/
     exists value, value ∈ values /\ d = StringData value).
Proof.
  revert h. induction values as [|value values IH]; intros h Hclean;
    cbn [foldl] in *.
  { split; [|split; [auto|]]; [|intros d Hd; left; exact Hd].
    intros value Hin. apply elem_of_nil in Hin. contradiction. }
  destruct (IH _ Hclean) as (Hlater & Hkept & Honly).
  destruct (analyzeValue_string_finds h value) as (Hstep & Hfound & Hsticky).
  assert (Hd : distinctOverflow_ h = false).
  { destruct (distinctOverflow_ h) eqn:Hd; [|reflexivity].
    assert (Hall : forall vs g, distinctOverflow_ g = true ->
              distinctOverflow_ (foldl analyzeValue_string g vs) = true).
    { induction vs as [|v vs IHvs]; intros g Hg; cbn [foldl]; [exact Hg|].
      apply IHvs. apply (analyzeValue_string_finds g v). exact Hg. }
    rewrite (Hall values _ (Hsticky eq_refl)) in Hclean. discriminate. }
  split; [|split].
  - intros v Hin. apply elem_of_cons in Hin as [->|Hin].
    + destruct (Hfound Hd) as [u Hu]. exists u. apply Hkept. exact Hu.
    + apply Hlater. exact Hin.
  - intros d u Hu. apply Hkept, Hstep. exact Hu.
  - intros d Hin. destruct (Honly d Hin) as [Hone | (v & Hv & ->)].
    + destruct (analyzeValue_string_distinct h value)
        as (_ & Hknown & Hnew).
      destruct (uniqueValues_find (StringData value) (uniqueValues_ h))
        as [u|] eqn:Hfind.
      * destruct (Hknown Hd) as (_ & Huniq & _); [discriminate|].
        rewrite Huniq in Hone. left. exact Hone.
      * destruct (Hnew Hd eq_refl) as [Huniq _]. rewrite Huniq in Hone.
        rewrite fmap_app in Hone. apply elem_of_app in Hone as [Hone|Hone];
          [left; exact Hone|].
        cbn in Hone. apply list_elem_of_singleton in Hone. right.
        exists value. split; [apply list_elem_of_here | exact Hone].
    + right. exists v. split; [apply list_elem_of_further; exact Hv|].
      reflexivity.
Qed.

Lemma analyzed_strings_are_found_witness :
  exists u,
    uniqueValues_find (StringData "banana")
      (uniqueValues_
         (foldl (@analyzeValue_string designLimits) (newHasher VARCHAR)
            ["apple"; "banana"; "apple"; "cherry"]%string)) = Some u.
Proof.
  destruct (@analyzed_strings_are_found designLimits (newHasher VARCHAR)
              ["apple"; "banana"; "apple"; "cherry"]%string) as [Hfound _].
  - vm_compute. reflexivity.
  - apply Hfound. apply list_elem_of_In. vm_compute. auto.
Defined.

(** ** Overflow is final *)

Lemma copyStringToLocal_range `{Limits} (h : VectorHasher) (s : StringView) :
  hasRange_ (copyStringToLocal h s) = hasRange_ h /\
  rangeOverflow_ (copyStringToLocal h s) = rangeOverflow_ h /\
  min_ (copyStringToLocal h s) = min_ h /\
  max_ (copyStringToLocal h s) = max_ h.
Proof.
  unfold copyStringToLocal.
  destruct (stringSize s <=? 8); [repeat split|].
  destruct (kMaxDistinctStringsBytes <? distinctStringsBytes_ h);
    [repeat split|].
  destruct (uniqueValuesStorage_ h);
    match goal with
    | |- context [if ?c then _ else _] => destruct c
    end; repeat split.
Qed.

(** The range after one call of [analyzeValue(StringView)]: untouched
    after a range overflow, overflowed by a string of more than seven
    bytes, and widened through [updateRange] otherwise. *)
Lemma analyzeValue_string_range `{Limits} (h : VectorHasher)
    (value : StringView) :
  let h1 :=
    if rangeOverflow_ h then h
    else if kStringASRangeMaxSize <? stringSize value
    then withRange h (hasRange_ h) true (min_ h) (max_ h)
    else updateRange h (stringAsNumber value) in
  hasRange_ (analyzeValue_string h value) = hasRange_ h1 /\
  rangeOverflow_ (analyzeValue_string h value) = rangeOverflow_ h1 /\
  min_ (analyzeValue_string h value) = min_ h1 /\
  max_ (analyzeValue_string h value) = max_ h1.
Proof.
  cbv zeta. unfold analyzeValue_string.
  set (h1 := if rangeOverflow_ h then h else _). clearbody h1.
  destruct (distinctOverflow_ h1); [repeat split|].
  destruct (uniqueValues_insert _ _) as [uniq [|]]; [|repeat split].
  destruct (kMaxDistinct <? uniqueValues_size uniq); [repeat split|].
  apply (copyStringToLocal_range (withDistinct h1 false uniq) value).
Qed.

(** X11: Overflow is final.  After a range overflow no sequence of calls of
    [analyzeValue(StringView)] changes the range; after a distinct
    overflow none changes the distinct values or their storage; after
    both, the analysis does nothing at all.  A string of more than seven
    bytes is a range overflow, and leaves the bounds as they were. *)
Theorem analyzeValue_string_overflow_final `{Limits} (h : VectorHasher)
    (values : list StringView) :
  let h' := foldl analyzeValue_string h values in
  (rangeOverflow_ h = true ->
   rangeOverflow_ h' = true /\ hasRange_ h' = hasRange_ h /\
   min_ h' = min_ h /\ max_ h' = max_ h) /\
  (distinctOverflow_ h = true ->
   distinctOverflow_ h' = true /\ uniqueValues_ h' = uniqueValues_ h /\
   uniqueValuesStorage_ h' = uniqueValuesStorage_ h /\
   distinctStringsBytes_ h' = distinctStringsBytes_ h) /\
  (rangeOverflow_ h = true -> distinctOverflow_ h = true -> h' = h) /\
  (forall value, kStringASRangeMaxSize < stringSize value ->
     rangeOverflow_ (analyzeValue_string h value) = true /\
     hasRange_ (analyzeValue_string h value) = hasRange_ h /\
     min_ (analyzeValue_string h value) = min_ h /\
     max_ (analyzeValue_string h value) = max_ h).
Proof.
  cbv zeta. split; [|split; [|split]].
  - revert h. induction values as [|value values IH]; intros h Hover;
      cbn [foldl]; [repeat split; exact Hover|].
    destruct (analyzeValue_string_range h value) as (Hhas & Hov & Hlo & Hhi).
    rewrite Hover in Hhas, Hov, Hlo, Hhi.
    rewrite Hover in Hov.
    destruct (IH _ Hov) as (-> & -> & -> & ->). repeat split; assumption.
  - revert h. induction values as [|value values IH]; intros h Hover;
      cbn [foldl]; [repeat split; exact Hover|].
    destruct (analyzeValue_string_distinct h value) as (Hfrozen & _).
    destruct (Hfrozen Hover) as (Hov & Huniq & Hsto & Hbytes).
    destruct (IH _ Hov) as (-> & -> & -> & ->). repeat split; assumption.
  - intros Hr Hd. induction values as [|value values IH] using rev_ind;
      [reflexivity|].
    rewrite foldl_app. cbn [foldl]. rewrite IH.
    unfold analyzeValue_string. rewrite Hr, Hd. reflexivity.
  - intros value Hlong.
    destruct (analyzeValue_string_range h value) as (Hhas & Hov & Hlo & Hhi).
    replace (kStringASRangeMaxSize <? stringSize value) with true in *
      by (symmetry; apply Z.ltb_lt; exact Hlong).
    rewrite Hhas, Hov, Hlo, Hhi.
    destruct (rangeOverflow_ h) eqn:Hr; repeat split; assumption.
Qed.

Lemma analyzeValue_string_overflow_final_witness :
  let h := analyzeValue_string (H := designLimits) (newHasher VARCHAR)
             "a string of more than seven bytes" in
  let h' := foldl (@analyzeValue_string designLimits) h
              ["b"; "f"]%string in
  rangeOverflow_ h = true /\ hasRange_ h' = false /\ min_ h' = 0.
Proof.
  cbv zeta.
  destruct (@analyzeValue_string_overflow_final designLimits (newHasher VARCHAR)
              []) as (_ & _ & _ & Hlong).
  destruct (Hlong "a string of more than seven bytes"%string)
    as (Hover & _); [vm_compute; reflexivity|].
  destruct (@analyzeValue_string_overflow_final designLimits
              (analyzeValue_string (H := designLimits) (newHasher VARCHAR)
                 "a string of more than seven bytes")
              ["b"; "f"]%string) as (Hfinal & _).
  destruct (Hfinal Hover) as (_ & Hhas & Hlo & _).
  split; [exact Hover|]. split; [exact Hhas | exact Hlo].
Defined.

(** ** The storage under [copyStringToLocal] *)

Lemma string_append_empty (s : string) : (s +:+ "")%string = s.
Proof.
  induction s as [|c s IH]; [reflexivity|].
  change (String c s +:+ "")%string with (String c (s +:+ "")).
  rewrite IH. reflexivity.
Qed.

(** X12: A string of more than eight bytes, copied within the budget, ends up
    at the end of the last buffer of the storage, which has room for it.
    At most one buffer is added, and every buffer that was there keeps
    its capacity and, as a prefix, its contents: what was copied earlier
    stays where it is. *)
Theorem copyStringToLocal_places_string `{Limits} (h : VectorHasher)
    (s : StringView) :
  8 < stringSize s ->
  distinctStringsBytes_ h <= kMaxDistinctStringsBytes ->
  let h' := copyStringToLocal h s in
  (exists (b : StringBuffer) (before : string),
     last (uniqueValuesStorage_ h') = Some b /\
     contents b = (before +:+ s)%string /\
     stringSize (contents b) <= capacity b) /\
  (forall (k : nat) (old : StringBuffer),
     uniqueValuesStorage_ h !! k = Some old ->
     exists (new : StringBuffer) (more : string),
       uniqueValuesStorage_ h' !! k = Some new /\
       capacity new = capacity old /\
       contents new = (contents old +:+ more)%string) /\
  (length (uniqueValuesStorage_ h')
   <= S (length (uniqueValuesStorage_ h)))%nat /\
  distinctOverflow_ h' = distinctOverflow_ h /\
  uniqueValues_ h' = uniqueValues_ h.
Proof.
  intros Hlong Hbudget. cbv zeta.
  destruct (copyStringToLocal_copies h s Hlong Hbudget)
    as (pre & b & bytes & -> & Hroom & Hshape).
  cbn [withStorage uniqueValuesStorage_ distinctOverflow_ uniqueValues_].
  split; [|split; [|split; [|split; reflexivity]]].
  - exists (bufferAppend b s), (contents b). rewrite last_snoc.
    split; [reflexivity|]. split; [reflexivity|].
    cbn [bufferAppend contents capacity]. rewrite stringSize_append.
    exact Hroom.
  - intros k old Hold.
    assert (Hsame : exists more, contents old = (contents old +:+ more)%string)
      by (exists ""%string; symmetry; apply string_append_empty).
    destruct Hshape as [[Hsto _] | (Hsto & _ & _)]; rewrite Hsto in Hold.
    + apply lookup_app_Some in Hold as [Hold|[Hlen Hold]].
      * exists old. destruct Hsame as [more Hmore]. exists more.
        rewrite lookup_app_l by (eapply lookup_lt_Some; exact Hold).
        split; [exact Hold|]. split; [reflexivity | exact Hmore].
      * apply list_lookup_singleton_Some in Hold as [Hk <-].
        exists (bufferAppend b s), s.
        rewrite lookup_app_r by lia. rewrite Hk.
        split; [reflexivity|]. split; reflexivity.
    + exists old. destruct Hsame as [more Hmore]. exists more.
      rewrite lookup_app_l by (eapply lookup_lt_Some; exact Hold).
      split; [exact Hold|]. split; [reflexivity | exact Hmore].
  - destruct Hshape as [[Hsto _] | (Hsto & _ & _)]; rewrite Hsto;
      rewrite !length_app; cbn [length]; lia.
Qed.

Lemma copyStringToLocal_places_string_witness :
  exists (b : StringBuffer) (before : string),
    last (uniqueValuesStorage_
            (copyStringToLocal (H := designLimits) (newHasher VARCHAR)
               "a string of more than eight bytes"))
    = Some b /\
    contents b
    = (before +:+ "a string of more than eight bytes")%string /\
    stringSize (contents b) <= capacity b.
Proof.
  destruct (@copyStringToLocal_places_string designLimits (newHasher VARCHAR)
              "a string of more than eight bytes"%string) as [Hplaced _].
  - vm_compute. reflexivity.
  - vm_compute. discriminate.
  - exact Hplaced.
Defined.

(** ** The storage under the analysis *)

Lemma copyStringToLocal_sound `{Limits} (h : VectorHasher) (s : StringView) :
  storageSound h -> storageSound (copyStringToLocal h s).
Proof.
  intros [Hbytes Hfit].
  destruct (Z.leb_spec (stringSize s) 8) as [Hshort|Hlong];
    [|destruct (Z.ltb_spec kMaxDistinctStringsBytes (distinctStringsBytes_ h))
        as [Hfull|Hbudget]].
  - destruct (copyStringToLocal_skips h s (or_introl Hshort))
      as (Hsto & Hb & _).
    unfold storageSound. rewrite Hsto, Hb. split; assumption.
  - destruct (copyStringToLocal_skips h s (or_intror Hfull))
      as (Hsto & Hb & _).
    unfold storageSound. rewrite Hsto, Hb. split; assumption.
  - destruct (copyStringToLocal_copies h s Hlong Hbudget)
      as (pre & b & bytes & -> & Hroom & Hshape).
    unfold storageSound.
    cbn [withStorage uniqueValuesStorage_ distinctStringsBytes_].
    rewrite reservedBytes_snoc. cbn [bufferAppend capacity].
    assert (Hb : stringSize (contents (bufferAppend b s))
                 <= capacity (bufferAppend b s)).
    { cbn [bufferAppend contents capacity]. rewrite stringSize_append.
      exact Hroom. }
    destruct Hshape as [[Hsto ->] | (Hsto & Hnew & ->)];
      rewrite Hsto in Hbytes, Hfit.
    + rewrite reservedBytes_snoc in Hbytes. split; [exact Hbytes|].
      apply Forall_app in Hfit as [Hpre _].
      apply Forall_app. split; [exact Hpre|].
      apply Forall_singleton. exact Hb.
    + split; [lia|]. apply Forall_app. split; [exact Hfit|].
      apply Forall_singleton. exact Hb.
Qed.

(** X13: The accounting of the storage is exact under the analysis: after any
    sequence of calls of [analyzeValue(StringView)],
    [distinctStringsBytes_] is the sum of the capacities of the buffers,
    and no buffer holds more bytes than it has reserved, so that no
    buffer is ever reallocated. *)
Theorem analyzeValue_string_storage_sound `{Limits} (h : VectorHasher)
    (values : list StringView) :
  storageSound h -> storageSound (foldl analyzeValue_string h values).
Proof.
  revert h. induction values as [|value values IH]; intros h Hsound;
    cbn [foldl]; [exact Hsound|].
  apply IH. clear IH.
  destruct (analyzeValue_string_distinct h value) as (Hfrozen & Hknown & Hnew).
  unfold storageSound in *.
  destruct (distinctOverflow_ h) eqn:Hd.
  { destruct (Hfrozen eq_refl) as (_ & _ & -> & ->). exact Hsound. }
  destruct (uniqueValues_find (StringData value) (uniqueValues_ h))
    as [u|] eqn:Hfind.
  { destruct (Hknown eq_refl) as (_ & _ & -> & ->);
      [discriminate | exact Hsound]. }
  destruct (Hnew eq_refl eq_refl)
    as [_ [(_ & _ & -> & ->) | (_ & g & Hsto & Hbytes & _ & _ & -> & ->)]];
    [exact Hsound|].
  apply (copyStringToLocal_sound g value). unfold storageSound.
  rewrite Hsto, Hbytes. exact Hsound.
Qed.

Lemma analyzeValue_string_storage_sound_witness :
  let tight : Limits :=
    {| kMaxRange := 100; kMaxDistinct := 100;
       kMaxDistinctStringsBytes := 64; kStringBufferUnitSize := 16;
       reserveSlack := libstdcxxSlack |} in
  let h := foldl (@analyzeValue_string tight) (newHasher VARCHAR)
             ["the first long one"; "short"; "the second long one"]%string in
  storageSound h /\ distinctStringsBytes_ h = 30 + 30.
Proof.
  cbv zeta. split; [|vm_compute; reflexivity].
  apply (@analyzeValue_string_storage_sound
           {| kMaxRange := 100; kMaxDistinct := 100;
              kMaxDistinctStringsBytes := 64; kStringBufferUnitSize := 16;
              reserveSlack := libstdcxxSlack |}).
  split; [reflexivity | constructor].
Defined.

(** ** The budget of string bytes *)

Lemma copyStringToLocal_grows `{Limits} (h : VectorHasher) (s : StringView) :
  (distinctStringsBytes_ (copyStringToLocal h s) = distinctStringsBytes_ h \/
   (distinctStringsBytes_ h <= kMaxDistinctStringsBytes /\
    distinctStringsBytes_ (copyStringToLocal h s)
    = distinctStringsBytes_ h + capacity (newBuffer (stringSize s)))) /\
  (length (uniqueValuesStorage_ (copyStringToLocal h s))
   <= S (length (uniqueValuesStorage_ h)))%nat.
Proof.
  destruct (Z.leb_spec (stringSize s) 8) as [Hshort|Hlong];
    [|destruct (Z.ltb_spec kMaxDistinctStringsBytes (distinctStringsBytes_ h))
        as [Hfull|Hbudget]].
  - destruct (copyStringToLocal_skips h s (or_introl Hshort))
      as (-> & -> & _). split; [left; reflexivity | lia].
  - destruct (copyStringToLocal_skips h s (or_intror Hfull))
      as (-> & -> & _). split; [left; reflexivity | lia].
  - destruct (copyStringToLocal_copies h s Hlong Hbudget)
      as (pre & b & bytes & -> & _ & Hshape).
    cbn [withStorage uniqueValuesStorage_ distinctStringsBytes_].
    rewrite length_app. cbn [length].
    destruct Hshape as [[-> ->] | (-> & -> & ->)].
    + split; [left; reflexivity|]. rewrite length_app. cbn [length]. lia.
    + split; [|lia]. right. split; [exact Hbudget | reflexivity].
Qed.

(** X14: The budget of string bytes is checked before a buffer is reserved,
    not after: the storage can exceed [kMaxDistinctStringsBytes], but by
    no more than one buffer.  When [largest] bounds the capacity of the
    buffer that [reserve] would give for any string of the sequence, the
    bytes counted after any sequence of calls of
    [analyzeValue(StringView)] stay within the budget plus [largest]; and
    every call adds at most one buffer. *)
Theorem analyzeValue_string_budget `{Limits} (h : VectorHasher)
    (values : list StringView) (largest : Z) :
  (forall value, value ∈ values ->
     capacity (newBuffer (stringSize value)) <= largest) ->
  distinctStringsBytes_ h <= kMaxDistinctStringsBytes + largest ->
  distinctStringsBytes_ (foldl analyzeValue_string h values)
  <= kMaxDistinctStringsBytes + largest /\
  (length (uniqueValuesStorage_ (foldl analyzeValue_string h values))
   <= length (uniqueValuesStorage_ h) + length values)%nat.
Proof.
  revert h. induction values as [|value values IH]; intros h Hlen Hbytes;
    cbn [foldl length]; [split; [exact Hbytes | lia]|].
  assert (Hstep :
    distinctStringsBytes_ (analyzeValue_string h value)
    <= kMaxDistinctStringsBytes + largest /\
    (length (uniqueValuesStorage_ (analyzeValue_string h value))
     <= S (length (uniqueValuesStorage_ h)))%nat).
  { pose proof (Hlen value (list_elem_of_here _ _)) as Hvalue.
    destruct (analyzeValue_string_distinct h value)
      as (Hfrozen & Hknown & Hnew).
    destruct (distinctOverflow_ h) eqn:Hd.
    { destruct (Hfrozen eq_refl) as (_ & _ & -> & ->).
      split; [exact Hbytes | lia]. }
    destruct (uniqueValues_find (StringData value) (uniqueValues_ h))
      as [u|] eqn:Hfind.
    { destruct (Hknown eq_refl) as (_ & _ & -> & ->);
        [discriminate | split; [exact Hbytes | lia]]. }
    destruct (Hnew eq_refl eq_refl)
      as [_ [(_ & _ & -> & ->) | (_ & g & Hsto & Hb & _ & _ & -> & ->)]];
      [split; [exact Hbytes | lia]|].
    destruct (copyStringToLocal_grows g value) as [Hgrow Hbufs].
    rewrite Hsto, Hb in *. split; [|exact Hbufs].
    destruct Hgrow as [-> | [Hroom ->]]; lia. }
  destruct Hstep as [Hb Hbufs].
  destruct (IH (analyzeValue_string h value)) as [Hb' Hbufs'];
    [intros v Hv; apply Hlen, list_elem_of_further, Hv | exact Hb |].
  split; [exact Hb' | lia].
Qed.

Lemma analyzeValue_string_budget_witness :
  let tight : Limits :=
    {| kMaxRange := 100; kMaxDistinct := 100;
       kMaxDistinctStringsBytes := 0; kStringBufferUnitSize := 16;
       reserveSlack := libstdcxxSlack |} in
  let h := foldl (@analyzeValue_string tight) (newHasher VARCHAR)
             ["the first long one"; "short"; "the second long one"]%string in
  capacity (@newBuffer tight 17) = 30 /\
  distinctStringsBytes_ h <= 0 + 30 /\ distinctOverflow_ h = true.
Proof.
  cbv zeta. split; [reflexivity|]. split; [|vm_compute; reflexivity].
  destruct (@analyzeValue_string_budget
              {| kMaxRange := 100; kMaxDistinct := 100;
                 kMaxDistinctStringsBytes := 0; kStringBufferUnitSize := 16;
                 reserveSlack := libstdcxxSlack |}
              (newHasher VARCHAR)
              ["the first long one"; "short"; "the second long one"]%string
              30) as [Hbytes _].
  - intros value Hin. apply list_elem_of_In in Hin.
    destruct Hin as [<-|[<-|[<-|[]]]]; vm_compute; discriminate.
  - vm_compute. discriminate.
  - exact Hbytes.
Defined.

(** ** What [makeValueIds] never touches *)

Lemma length_writeId (h : VectorHasher) (result : list Z) (row : nat)
    (id : Z) :
  length (writeId h result row id) = length result.
Proof. unfold writeId. apply length_insert. Qed.

Lemma length_writeNull (h : VectorHasher) (result : list Z) (row : nat) :
  length (writeNull h result row) = length result.
Proof.
  unfold writeNull. destruct (multiplier_ h =? 1); [|reflexivity].
  apply length_insert.
Qed.

Lemma foldl_writeId_length (h : VectorHasher) (f : nat -> Z) (rs : list nat)
    (result : list Z) :
  length (foldl (fun res r => writeId h res r (f r)) result rs)
  = length result.
Proof.
  revert result. induction rs as [|r rs IH]; intros result; cbn [foldl];
    [reflexivity|].
  rewrite IH. apply length_writeId.
Qed.

Lemma emitRow_length {T : Type} `{NativeType T} (nullAt : nat -> bool)
    (valueOf : nat -> T) (slot : nat -> option nat)
    (acc : Emission * list Z) (r : nat) :
  length (emitted (fst (emitRow nullAt valueOf slot acc r)))
  = length (emitted (fst acc)).
Proof.
  destruct acc as [[[success res] h] cache]. unfold emitRow, emitted.
  repeat match goal with
         | |- context [if ?c then _ else _] => destruct c
         end; cbn [fst snd];
    first [reflexivity | apply length_writeId | apply length_writeNull].
Qed.

(** X15: Success or not, [makeValueIds] writes the rows of the selection only:
    the entry of every other row is what it was and the array keeps its
    length.  The hasher that comes back has the multiplier it had: what a
    failed call learns goes to the analysis, never to the encoding. *)
Theorem makeValueIds_frame {T : Type} `{NativeTypeLaws T}
    (h : VectorHasher) (d : DecodedVector T) (rows : SelectivityVector)
    (result : list Z) :
  (forall row, row ∉ selectedRows rows ->
     emitted (makeValueIds h d rows result) !! row = result !! row) /\
  length (emitted (makeValueIds h d rows result)) = length result /\
  multiplier_ (hasherAfter (makeValueIds h d rows result)) = multiplier_ h.
Proof.
  destruct (isConstantMapping d) eqn:Hc.
  - unfold makeValueIds. rewrite Hc.
    destruct (_ =? kUnmappable); unfold emitted, hasherAfter, applyToSelected;
      cbn [fst snd].
    + split; [reflexivity|]. split; [reflexivity|].
      apply analyzeValue_multiplier.
    + split; [intros row Hrow; apply foldl_writeId_other; exact Hrow|].
      split; [apply foldl_writeId_length | reflexivity].
  - destruct (makeValueIds_as_loop d h rows result Hc)
      as [(mapped & _ & _ & Hrange & Htry & ->) | ->].
    + destruct (tryMapToRange_mapped h _ _ _ _ Hrange Htry) as [_ ->].
      unfold emitted, hasherAfter. cbn [fst snd].
      split; [intros row Hrow; apply foldl_writeId_other; exact Hrow|].
      split; [apply foldl_writeId_length | reflexivity].
    + split; [|split].
      * intros row Hrow.
        apply (foldl_untouched
                 (emitRow (isNullAt d) (valueAt d) (slotOf d))
                 (fun a => emitted (fst a))); [|exact Hrow].
        intros a r Hne. apply (emitRow_frame d). exact Hne.
      * apply (foldl_invariant
                 (emitRow (isNullAt d) (valueAt d) (slotOf d))
                 (fun a => length (emitted (fst a)) = length result));
          [|reflexivity].
        intros a r _ Ha. rewrite emitRow_length. exact Ha.
      * apply (foldl_invariant
                 (emitRow (isNullAt d) (valueAt d) (slotOf d))
                 (fun a => multiplier_ (hasherAfter (fst a)) = multiplier_ h));
          [|reflexivity].
        intros a r _ Ha. rewrite (emitRow_multiplier d). exact Ha.
Qed.

Lemma makeValueIds_frame_witness :
  let h := snd (enableValueIds
                  (foldl (@analyzeValue_string designLimits)
                     (newHasher VARCHAR)
                     ["apple"; "banana"]%string) 3 0) in
  let e := @makeValueIds StringView (@StringView_native designLimits) h
             (flatVector ["banana"; "date"; "apple"]%string
                [false; false; false])
             (allRows 2) [7; 7; 7] in
  succeeded e = false /\ emitted e !! 2%nat = Some 7 /\
  length (emitted e) = 3%nat /\ multiplier_ (hasherAfter e) = 3.
Proof.
  cbv zeta.
  destruct (@makeValueIds_frame StringView (@StringView_native designLimits)
              (@StringView_laws designLimits)
              (snd (enableValueIds
                      (foldl (@analyzeValue_string designLimits)
                         (newHasher VARCHAR)
                         ["apple"; "banana"]%string) 3 0))
              (flatVector ["banana"; "date"; "apple"]%string
                 [false; false; false])
              (allRows 2) [7; 7; 7])
    as (Hother & Hlength & Hmul).
  split; [vm_compute; reflexivity|]. split; [|split].
  - rewrite (Hother 2%nat); [reflexivity|].
    intros Hin. apply list_elem_of_In in Hin. vm_compute in Hin.
    destruct Hin as [Hin|[Hin|[]]]; discriminate.
  - exact Hlength.
  - exact Hmul.
Defined.

(** ** What [makeValueIds] writes *)

(** X16: When every selected row is mappable and, on a constant vector,
    the constant itself is (which is more only when no row is selected),
    [makeValueIds] returns true, leaves the hasher as it was and packs the
    id of every selected row into its entry: the id itself under a
    multiplier of 1, the old entry plus the multiplier times the id
    otherwise, a null row counting as id 0. *)
Theorem makeValueIds_packs_ids {T : Type} `{NativeTypeLaws T}
    (h : VectorHasher) (d : DecodedVector T) (rows : SelectivityVector)
    (result : list Z) :
  indicesInBase d rows ->
  (isConstantMapping d = true -> mappableAt h d (begin_ rows) = true) ->
  (forall row, row ∈ selectedRows rows -> mappableAt h d row = true) ->
  succeeded (makeValueIds h d rows result) = true /\
  hasherAfter (makeValueIds h d rows result) = h /\
  (forall row old, row ∈ selectedRows rows ->
     result !! row = Some old -> 0 <= old < two64 ->
     emitted (makeValueIds h d rows result) !! row
     = Some (packedAt h d row old)).
Proof.
  intros Hbase Hconstant Hall.
  destruct (isConstantMapping d) eqn:Hc.
  - pose proof (selectedRows_NoDup rows) as Hnd.
    specialize (Hconstant eq_refl).
    assert (Hid : ((if isNullAt d (begin_ rows) then 0
                    else valueId h (valueAt d (begin_ rows)))
                   =? kUnmappable) = false).
    { unfold mappableAt, logicalAt in Hconstant.
      destruct (isNullAt d (begin_ rows)); [reflexivity|].
      apply negb_true_iff. exact Hconstant. }
    unfold makeValueIds. rewrite Hc, Hid.
    unfold succeeded, hasherAfter, emitted, applyToSelected. cbn [fst snd].
    split; [reflexivity|]. split; [reflexivity|].
    intros row old Hrow Hold Hrange.
    rewrite (foldl_writeId_entry h _ _ row result old Hnd Hrow Hold).
    unfold packedAt. rewrite (constant_logicalAt d row (begin_ rows) Hc).
    unfold logicalAt.
    destruct (isNullAt d (begin_ rows)); [|reflexivity].
    destruct (multiplier_ h =? 1); [reflexivity|].
    rewrite Z.mul_0_r, Z.add_0_r, u64_small by exact Hrange. reflexivity.
  - destruct (makeValueIds_mapped h d rows result Hbase Hall)
      as (Hok & Hsame & Hentries & _); [rewrite Hc; discriminate|].
    split; [exact Hok|]. split; [exact Hsame | exact Hentries].
Qed.

Lemma makeValueIds_packs_ids_witness :
  let h := snd (enableValueIds
                  (foldl (@analyzeValue_string designLimits)
                     (newHasher VARCHAR)
                     ["apple"; "banana"; "cherry"]%string) 10 0) in
  let e := @makeValueIds StringView (@StringView_native designLimits) h
             (dictionaryVector ["cherry"; "apple"]%string [1; 0; 1]%nat)
             (allRows 3) [5; 6; 7] in
  let constant :=
    {| isConstantMapping := true; isIdentityMapping := false;
       mayHaveNulls := false; nulls := []; constantIndex_ := 0;
       indices := []; values := ["apple"]%string |} in
  (succeeded e = true /\ emitted e !! 1%nat = Some (6 + 10 * 3)) /\
  succeeded (@makeValueIds StringView (@StringView_native designLimits) h
               constant (allRows 0) []) = true.
Proof.
  cbv zeta. split.
  - destruct (@makeValueIds_packs_ids StringView
                (@StringView_native designLimits)
                (@StringView_laws designLimits)
                (snd (enableValueIds
                        (foldl (@analyzeValue_string designLimits)
                           (newHasher VARCHAR)
                           ["apple"; "banana"; "cherry"]%string) 10 0))
                (dictionaryVector ["cherry"; "apple"]%string [1; 0; 1]%nat)
                (allRows 3) [5; 6; 7])
      as (Hok & _ & Hentries).
    + intros _ _ row Hrow _. apply list_elem_of_In in Hrow.
      destruct Hrow as [<-|[<-|[<-|[]]]]; vm_compute; lia.
    + discriminate.
    + intros row Hrow. apply list_elem_of_In in Hrow.
      destruct Hrow as [<-|[<-|[<-|[]]]]; vm_compute; reflexivity.
    + split; [exact Hok|].
      rewrite (Hentries 1%nat 6);
        [reflexivity | apply list_elem_of_In; vm_compute; auto | reflexivity
        | unfold two64; lia].
  - apply (@makeValueIds_packs_ids StringView
             (@StringView_native designLimits)
             (@StringView_laws designLimits)).
    + intros Hc. discriminate.
    + intros _. vm_compute. reflexivity.
    + intros row Hrow. apply list_elem_of_In in Hrow. destruct Hrow.
Defined.

(** X17: A failed call leaves the array partly written.  On a flat or
    dictionary view whose first unmappable selected row is [r], the
    selected rows before [r] have received their packed ids all the same,
    computed with the hasher as it was before the call; the caller cannot
    tell them from the entries that were not written. *)
Theorem makeValueIds_partial_writes {T : Type} `{NativeTypeLaws T}
    (h : VectorHasher) (d : DecodedVector T) (rows : SelectivityVector)
    (result : list Z) (pre post : list nat) (r : nat) :
  indicesInBase d rows -> isConstantMapping d = false ->
  selectedRows rows = pre ++ r :: post ->
  (forall p, p ∈ pre -> mappableAt h d p = true) ->
  mappableAt h d r = false ->
  succeeded (makeValueIds h d rows result) = false /\
  (forall p old, p ∈ pre -> result !! p = Some old ->
     emitted (makeValueIds h d rows result) !! p
     = Some (packedAt h d p old)).
Proof.
  intros Hbase Hc Hrs Hpre Hr.
  destruct (makeValueIds_first_miss h d rows result pre post r Hbase Hrs
              Hpre Hr) as (Hfail & _).
  split; [exact Hfail|]. intros p old Hp Hold.
  pose proof (selectedRows_NoDup rows) as Hnd. rewrite Hrs in Hnd.
  assert (Hin : r ∈ selectedRows rows).
  { rewrite Hrs. apply elem_of_app. right. apply list_elem_of_here. }
  destruct (makeValueIds_as_loop d h rows result Hc)
    as [(mapped & Hi & Hn & Hrange & Htry & _) | ->].
  { exfalso.
    destruct (tryMapToRange_mapped h _ _ _ _ Hrange Htry) as [Hall _].
    apply (mappableAt_false d) in Hr as [_ Hid].
    apply (Hall r Hin). apply Z.eqb_eq.
    unfold valueAt, index in Hid. rewrite Hc, Hi in Hid. exact Hid. }
  rewrite Hrs, foldl_app.
  apply NoDup_app in Hnd as (Hndpre & Hnotin & _).
  rewrite (foldl_untouched (emitRow (isNullAt d) (valueAt d) (slotOf d))
             (fun a => emitted (fst a)) p (r :: post)
             (fun a q Hne => emitRow_frame d a q p Hne) (Hnotin p Hp)).
  apply (emit_mapped_entry d Hc h (length (values d))); try assumption.
  - intros q b Hq. apply (slots_in_base d rows Hbase Hc).
    rewrite Hrs. apply elem_of_app. left. exact Hq.
  - apply Mapping_initial.
Qed.

Lemma makeValueIds_partial_writes_witness :
  let h := snd (enableValueIds
                  (foldl (@analyzeValue_string designLimits)
                     (newHasher VARCHAR)
                     ["apple"; "banana"]%string) 1 0) in
  let e := @makeValueIds StringView (@StringView_native designLimits) h
             (flatVector ["banana"; "date"; "apple"]%string
                [false; false; false])
             (allRows 3) [7; 7; 7] in
  succeeded e = false /\ emitted e !! 0%nat = Some 2.
Proof.
  cbv zeta.
  destruct (@makeValueIds_partial_writes StringView
              (@StringView_native designLimits)
              (@StringView_laws designLimits)
              (snd (enableValueIds
                      (foldl (@analyzeValue_string designLimits)
                         (newHasher VARCHAR)
                         ["apple"; "banana"]%string) 1 0))
              (flatVector ["banana"; "date"; "apple"]%string
                 [false; false; false])
              (allRows 3) [7; 7; 7] [0%nat] [2%nat] 1%nat)
    as (Hfail & Hwritten).
  - intros _ Hi. discriminate.
  - reflexivity.
  - vm_compute. reflexivity.
  - intros p Hp. apply list_elem_of_singleton in Hp. subst p.
    vm_compute. reflexivity.
  - vm_compute. reflexivity.
  - split; [exact Hfail|].
    rewrite (Hwritten 0%nat 7);
      [reflexivity | apply list_elem_of_here | reflexivity].
Defined.

(** ** The constant path *)

(** X18: On a constant vector the outcome is decided by the one value and not
    by the selection: [makeValueIds] returns true exactly when the value
    is null or has an id.  When it has none, the call fails, writes
    nothing and passes the value to [analyzeValue] once, even when no row
    is selected at all. *)
Theorem makeValueIds_constant_outcome {T : Type} `{NativeTypeLaws T}
    (h : VectorHasher) (d : DecodedVector T) (rows : SelectivityVector)
    (result : list Z) (row : nat) :
  isConstantMapping d = true ->
  succeeded (makeValueIds h d rows result) = mappableAt h d row /\
  (mappableAt h d row = false ->
   emitted (makeValueIds h d rows result) = result /\
   hasherAfter (makeValueIds h d rows result)
   = analyzeValue h (valueAt d row)) /\
  (mappableAt h d row = true ->
   hasherAfter (makeValueIds h d rows result) = h).
Proof.
  intros Hc. unfold mappableAt.
  rewrite (constant_logicalAt d row (begin_ rows) Hc).
  replace (valueAt d row) with (valueAt d (begin_ rows))
    by (unfold valueAt, index; rewrite Hc; reflexivity).
  unfold makeValueIds, logicalAt. rewrite Hc.
  destruct (isNullAt d (begin_ rows)).
  - replace (0 =? kUnmappable) with false by reflexivity.
    unfold succeeded, emitted, hasherAfter. cbn [fst snd].
    split; [reflexivity|]. split; [discriminate | reflexivity].
  - destruct (valueId h (valueAt d (begin_ rows)) =? kUnmappable);
      unfold succeeded, emitted, hasherAfter; cbn [fst snd negb];
      (split; [reflexivity|]); split;
      first [discriminate | intros _; split; reflexivity | reflexivity].
Qed.

Lemma makeValueIds_constant_outcome_witness :
  let h := snd (enableValueIds
                  (foldl (@analyzeValue_string designLimits)
                     (newHasher VARCHAR) ["apple"]%string) 1 0) in
  let constant :=
    {| isConstantMapping := true; isIdentityMapping := false;
       mayHaveNulls := false; nulls := []; constantIndex_ := 0;
       indices := []; values := ["date"]%string |} in
  let e := @makeValueIds StringView (@StringView_native designLimits) h
             constant (allRows 0) [] in
  selectedRows (allRows 0) = [] /\ succeeded e = false /\
  uniqueValues_size (uniqueValues_ (hasherAfter e)) = 2.
Proof.
  cbv zeta.
  destruct (@makeValueIds_constant_outcome StringView
              (@StringView_native designLimits)
              (@StringView_laws designLimits)
              (snd (enableValueIds
                      (foldl (@analyzeValue_string designLimits)
                         (newHasher VARCHAR) ["apple"]%string) 1 0))
              {| isConstantMapping := true; isIdentityMapping := false;
                 mayHaveNulls := false; nulls := []; constantIndex_ := 0;
                 indices := []; values := ["date"]%string |}
              (allRows 0) [] 0%nat eq_refl)
    as (Hflag & Hfail & _).
  split; [reflexivity|]. split.
  - rewrite Hflag. vm_compute. reflexivity.
  - destruct Hfail as [_ Hhasher]; [vm_compute; reflexivity|].
    rewrite Hhasher. vm_compute. reflexivity.
Defined.

(** ** BOOLEAN batches *)

Lemma boolLoop_entry (h : VectorHasher) (nullAt : nat -> bool)
    (f : nat -> Z) (rs : list nat) (row : nat) (result : list Z) (old : Z) :
  NoDup rs -> row ∈ rs -> result !! row = Some old ->
  foldl (fun res r => if nullAt r then writeNull h res r
                      else writeId h res r (f r)) result rs !! row
  = Some (if nullAt row then if multiplier_ h =? 1 then 0 else old
          else if multiplier_ h =? 1 then f row
               else u64 (old + multiplier_ h * f row)).
Proof.
  intros Hnd Hin Hold.
  apply (foldl_at_row
           (fun res r => if nullAt r then writeNull h res r
                         else writeId h res r (f r))
           (fun res => res) (fun _ => True) rs row);
    try assumption; try exact I.
  - intros. exact I.
  - intros res r Hne.
    destruct (nullAt r); [apply writeNull_other | apply writeId_other];
      exact Hne.
  - intros res _ Hrow.
    destruct (nullAt row); [apply writeNull_same | apply writeId_same];
      rewrite Hrow; exact Hold.
Qed.

Lemma boolLoop_other (h : VectorHasher) (nullAt : nat -> bool)
    (f : nat -> Z) (rs : list nat) (row : nat) (result : list Z) :
  row ∉ rs ->
  foldl (fun res r => if nullAt r then writeNull h res r
                      else writeId h res r (f r)) result rs !! row
  = result !! row.
Proof.
  intros Hnot.
  apply (foldl_untouched
           (fun res r => if nullAt r then writeNull h res r
                         else writeId h res r (f r)) (fun res => res));
    [|exact Hnot].
  intros res r Hne.
  destruct (nullAt r); [apply writeNull_other | apply writeId_other];
    exact Hne.
Qed.

(** X19: A BOOLEAN batch is always mapped: on the constant, the flat and the
    dictionary path [makeValueIds<BOOLEAN>] returns true and never calls
    [analyzeValue]; every selected row gets the packed id of what it
    holds, and no other row is written. *)
Theorem makeValueIds_BOOLEAN_always_maps `{Limits} (h : VectorHasher)
    (d : DecodedVector bool) (rows : SelectivityVector) (result : list Z) :
  succeeded (makeValueIds_BOOLEAN h d rows result) = true /\
  hasherAfter (makeValueIds_BOOLEAN h d rows result) = h /\
  (forall row old, row ∈ selectedRows rows ->
     result !! row = Some old -> 0 <= old < two64 ->
     emitted (makeValueIds_BOOLEAN h d rows result) !! row
     = Some (packedAt h d row old)) /\
  (forall row, row ∉ selectedRows rows ->
     emitted (makeValueIds_BOOLEAN h d rows result) !! row = result !! row).
Proof.
  pose proof (selectedRows_NoDup rows) as Hnd.
  unfold makeValueIds_BOOLEAN.
  destruct (isConstantMapping d) eqn:Hc.
  - assert (Hid : ((if isNullAt d (begin_ rows) then 0
                    else valueId h (valueAt d (begin_ rows)))
                   =? kUnmappable) = false).
    { destruct (isNullAt d (begin_ rows)); [reflexivity|].
      cbn [valueId bool_native]. unfold valueId_bool.
      destruct (valueAt d (begin_ rows)); reflexivity. }
    rewrite Hid. unfold succeeded, hasherAfter, emitted, applyToSelected.
    cbn [fst snd]. split; [reflexivity|]. split; [reflexivity|]. split.
    + intros row old Hrow Hold Hrange.
      rewrite (foldl_writeId_entry h _ _ row result old Hnd Hrow Hold).
      unfold packedAt. rewrite (constant_logicalAt d row (begin_ rows) Hc).
      unfold logicalAt.
      destruct (isNullAt d (begin_ rows)); [|reflexivity].
      destruct (multiplier_ h =? 1); [reflexivity|].
      rewrite Z.mul_0_r, Z.add_0_r, u64_small by exact Hrange. reflexivity.
    + intros row Hrow. apply foldl_writeId_other. exact Hrow.
  - destruct (isIdentityMapping d) eqn:Hi, (mayHaveNulls d) eqn:Hn;
      unfold makeValueIdsFlatWithNulls_bool, makeValueIdsFlatNoNulls_bool,
        makeValueIdsDecoded_bool, succeeded, hasherAfter, emitted,
        applyToSelected; cbn [fst snd andb];
      (split; [reflexivity|]); (split; [reflexivity|]); split;
      try (intros row Hrow;
           first [apply boolLoop_other | apply foldl_writeId_other];
           exact Hrow);
      intros row old Hrow Hold _;
      first [rewrite (boolLoop_entry h _ _ _ row result old Hnd Hrow Hold)
            | rewrite (foldl_writeId_entry h _ _ row result old Hnd Hrow
                         Hold)];
      unfold packedAt, logicalAt, isNullAt, valueAt, index;
      rewrite Hc, Hi, Hn; cbn [andb];
      try destruct (isBitNull (nulls d) row); reflexivity.
Qed.

(** ** Row-keyed and batch emission *)

Lemma selectedRows_allRows (n row : nat) :
  row ∈ selectedRows (allRows n) <-> (row < n)%nat.
Proof.
  unfold selectedRows, allRows, isValid. cbn [bits_ begin_ end_].
  rewrite list_elem_of_In, List.filter_In, List.in_seq. split.
  - intros [Hrange _]. lia.
  - intros Hlt. split; [lia|].
    rewrite lookup_replicate_2 by exact Hlt. reflexivity.
Qed.

Lemma groupsVector_logicalAt `{Inhabited StringView}
    (groups : list (option StringView)) (row : nat) (g : option StringView) :
  groups !! row = Some g -> logicalAt (groupsVector groups) row = g.
Proof.
  intros Hg. unfold logicalAt, isNullAt, valueAt, index, groupsVector,
    flatVector, isBitNull.
  cbn [isConstantMapping isIdentityMapping mayHaveNulls nulls values].
  rewrite list_lookup_fmap. rewrite Hg.
  cbn [fmap option_fmap option_map default]. unfold id.
  assert (Hvalue : (default ""%string <$> groups) !! row
                   = Some (default ""%string g)).
  { rewrite list_lookup_fmap. unfold StringView in *. rewrite Hg.
    reflexivity. }
  rewrite (list_lookup_total_correct _ _ _ Hvalue).
  destruct g as [value|]; cbn [default].
  - rewrite bool_decide_eq_false_2 by discriminate.
    rewrite andb_false_r. reflexivity.
  - rewrite bool_decide_eq_true_2 by reflexivity. rewrite andb_true_r.
    replace (existsb _ _) with true; [reflexivity|].
    symmetry. apply existsb_exists. exists true. split; [|reflexivity].
    apply list_elem_of_In, list_elem_of_lookup. exists row.
    rewrite list_lookup_fmap. rewrite Hg. reflexivity.
Qed.

(** X20: When every group row is mapped, the row-keyed emission and the batch
    emission over the same keys are one and the same: the same flag, the
    same array and the same hasher. *)
Theorem makeValueIdsForRows_agrees_with_batch `{NativeTypeLaws StringView}
    (h : VectorHasher) (groups : list (option StringView))
    (result : list Z) :
  (forall value, Some value ∈ groups -> valueId h value <> kUnmappable) ->
  holdsRows (allRows (length groups)) result ->
  makeValueIdsForRows_VARCHAR h groups result
  = makeValueIds h (groupsVector groups) (allRows (length groups)) result.
Proof.
  intros Hall Hholds.
  assert (Hmap : forall row, row ∈ selectedRows (allRows (length groups)) ->
            mappableAt h (groupsVector groups) row = true).
  { intros row Hrow. apply selectedRows_allRows in Hrow.
    destruct (lookup_lt_is_Some_2 groups row Hrow) as [g Hg].
    unfold mappableAt. rewrite (groupsVector_logicalAt groups row g Hg).
    destruct g as [value|]; [|reflexivity].
    apply negb_true_iff, Z.eqb_neq, Hall.
    apply list_elem_of_lookup. exists row. exact Hg. }
  destruct (makeValueIds_mapped h (groupsVector groups)
              (allRows (length groups)) result)
    as (Hok & Hsame & Hin & Hout);
    [intros _ Hi; discriminate | exact Hmap | intros Hc; discriminate |].
  pose proof (proj2 (makeValueIdsForRows_success h groups 0 result) Hall)
    as Hrows.
  pose proof (makeValueIdsForRows_entry h groups Hall 0 result) as Hentry.
  pose proof (makeValueIdsForRows_beyond h groups 0 result) as Hbeyond.
  unfold makeValueIdsForRows_VARCHAR.
  destruct (makeValueIdsForRows_from h groups 0 result) as [ok res].
  cbn [fst snd] in *. subst ok.
  destruct (makeValueIds h (groupsVector groups) (allRows (length groups))
              result) as [[ok' res'] h'].
  unfold succeeded, hasherAfter, emitted in *. cbn [fst snd] in *.
  subst ok' h'. do 2 f_equal.
  apply list_eq. intros row.
  destruct (decide (row < length groups)%nat) as [Hrow|Hrow].
  - destruct (lookup_lt_is_Some_2 groups row Hrow) as [g Hg].
    apply selectedRows_allRows in Hrow.
    destruct (Hholds row Hrow) as (old & Hold & Hrange).
    rewrite (Hin row old Hrow Hold Hrange).
    pose proof (Hentry row g old Hg Hold) as Hwritten.
    cbn [Nat.add] in Hwritten. rewrite Hwritten.
    unfold packedAt. rewrite (groupsVector_logicalAt groups row g Hg).
    destruct g; reflexivity.
  - rewrite Hbeyond by lia. symmetry. apply Hout.
    rewrite selectedRows_allRows. exact Hrow.
Qed.

Lemma makeValueIdsForRows_agrees_with_batch_witness :
  let h := snd (enableValueIds
                  (foldl (@analyzeValue_string designLimits)
                     (newHasher VARCHAR)
                     ["apple"; "banana"; "cherry"]%string) 1 0) in
  @makeValueIdsForRows_VARCHAR (@StringView_native designLimits) h
    [Some "banana"; None; Some "apple"]%string [7; 7; 7]
  = @makeValueIds StringView (@StringView_native designLimits) h
      (groupsVector [Some "banana"; None; Some "apple"]%string)
      (allRows 3) [7; 7; 7].
Proof.
  cbv zeta.
  apply (@makeValueIdsForRows_agrees_with_batch
           (@StringView_native designLimits) (@StringView_laws designLimits)).
  - intros value Hin. apply list_elem_of_In in Hin.
    destruct Hin as [[= <-]|[Hin|[[= <-]|[]]]]; [|discriminate|];
      vm_compute; discriminate.
  - intros row Hrow. apply list_elem_of_In in Hrow.
    destruct Hrow as [<-|[<-|[<-|[]]]]; exists 7;
      (split; [reflexivity | unfold two64; lia]).
Defined.

(** ** What [hashValues] writes *)

Section HashRows.
Context {T : Type} `{Inhabited T}.
Variable hasher : T -> Z.
Variable hashMix : Z -> Z -> Z.
Variable d : DecodedVector T.
Variable rows : SelectivityVector.

Lemma hashValues_length (mix : bool) (result : list Z) :
  length (hashValues hasher hashMix d rows mix result) = length result.
Proof.
  unfold hashValues, applyToSelected.
  destruct (isConstantMapping d); [|destruct (isIdentityMapping d)].
  - apply (foldl_invariant
             (fun res r => writeHash hashMix mix res r _)
             (fun res => length res = length result)); [|reflexivity].
    intros res r _ Hres. unfold writeHash. rewrite length_insert. exact Hres.
  - apply (foldl_invariant (hashFlatRow hasher hashMix d mix)
             (fun res => length res = length result)); [|reflexivity].
    intros res r _ Hres. unfold hashFlatRow, writeHash.
    destruct (isNullAt d r); rewrite length_insert; exact Hres.
  - apply (foldl_invariant (hashDecodedRow hasher hashMix d mix)
             (fun acc => length (fst acc) = length result)); [|reflexivity].
    intros [res cache] r _ Hres. unfold hashDecodedRow, writeHash.
    destruct (isNullAt d r); cbn [fst]; [rewrite length_insert; exact Hres|].
    destruct (cache !!! index d r =? kNullHash); cbn [fst];
      rewrite length_insert; exact Hres.
Qed.

(** X21: [hashValues] gives every selected row the hash of what it holds,
    [kNullHash] for null, mixed into the old entry when [mix] is set and
    in its place when not; no other row is written and the array keeps
    its length.  The cache of the dictionary path does not show: a value
    whose hash happens to be [kNullHash] is only hashed again. *)
Theorem hashValues_rows (mix : bool) (result : list Z) :
  indicesInBase d rows ->
  (forall row old, row ∈ selectedRows rows -> result !! row = Some old ->
     hashValues hasher hashMix d rows mix result !! row
     = Some (if mix then hashMix old (hashAt hasher d row)
             else hashAt hasher d row)) /\
  (forall row, row ∉ selectedRows rows ->
     hashValues hasher hashMix d rows mix result !! row = result !! row) /\
  length (hashValues hasher hashMix d rows mix result) = length result.
Proof.
  intros Hbase. split; [|split].
  - intros row old Hrow Hold. apply hashValues_entry; assumption.
  - intros row Hrow. apply hashValues_other. exact Hrow.
  - apply hashValues_length.
Qed.

(** X22: Without [mix], [hashValues] overwrites: what the selected rows held
    before does not matter, and hashing a second time changes nothing. *)
Theorem hashValues_overwrites (result1 result2 : list Z) :
  indicesInBase d rows ->
  length result1 = length result2 ->
  (forall row, row ∉ selectedRows rows -> result1 !! row = result2 !! row) ->
  hashValues hasher hashMix d rows false result1
  = hashValues hasher hashMix d rows false result2 /\
  hashValues hasher hashMix d rows false
    (hashValues hasher hashMix d rows false result1)
  = hashValues hasher hashMix d rows false result1.
Proof.
  intros Hbase Hlen Hsame.
  assert (Hagree : forall r1 r2 : list Z,
            length r1 = length r2 ->
            (forall row, row ∉ selectedRows rows -> r1 !! row = r2 !! row) ->
            hashValues hasher hashMix d rows false r1
            = hashValues hasher hashMix d rows false r2).
  { intros r1 r2 Hl Hs. apply list_eq. intros row.
    destruct (decide (row ∈ selectedRows rows)) as [Hrow|Hrow].
    - destruct (r1 !! row) as [old1|] eqn:H1.
      + destruct (lookup_lt_is_Some_2 r2 row) as [old2 H2];
          [rewrite <- Hl; eapply lookup_lt_Some; exact H1|].
        rewrite (hashValues_entry hasher hashMix d rows false r1 row old1
                   Hbase Hrow H1).
        rewrite (hashValues_entry hasher hashMix d rows false r2 row old2
                   Hbase Hrow H2).
        reflexivity.
      + apply lookup_ge_None in H1.
        rewrite !(proj2 (lookup_ge_None _ _));
          [reflexivity | | ]; rewrite hashValues_length; lia.
    - rewrite !hashValues_other by exact Hrow. apply Hs. exact Hrow. }
  split; [apply Hagree; assumption|].
  apply Hagree; [apply hashValues_length|].
  intros row Hrow. apply hashValues_other. exact Hrow.
Qed.

End HashRows.

Lemma hashValues_rows_witness :
  hashValues (fun value : Z => value * 31 + 7) (fun a b => a * 37 + b)
    (dictionaryVector [0; 5] [1; 0; 1]%nat) (allRows 3) true [1; 2; 3]
  !! 2%nat
  = Some (3 * 37 + (5 * 31 + 7)).
Proof.
  destruct (@hashValues_rows Z _ (fun value : Z => value * 31 + 7)
              (fun a b => a * 37 + b)
              (dictionaryVector [0; 5] [1; 0; 1]%nat) (allRows 3) true
              [1; 2; 3]) as (Hentry & _).
  - intros _ _ row Hrow _. apply list_elem_of_In in Hrow.
    destruct Hrow as [<-|[<-|[<-|[]]]]; vm_compute; lia.
  - rewrite (Hentry 2%nat 3);
      [reflexivity | apply list_elem_of_In; vm_compute; auto | reflexivity].
Defined.

Lemma hashValues_overwrites_witness :
  hashValues (fun value : Z => value * 31 + 7) (fun a b => a * 37 + b)
    (dictionaryVector [0; 5] [1; 0; 1]%nat) (allRows 3) false [1; 2; 3]
  = hashValues (fun value : Z => value * 31 + 7) (fun a b => a * 37 + b)
      (dictionaryVector [0; 5] [1; 0; 1]%nat) (allRows 3) false [9; 9; 9].
Proof.
  destruct (@hashValues_overwrites Z _ (fun value : Z => value * 31 + 7)
              (fun a b => a * 37 + b)
              (dictionaryVector [0; 5] [1; 0; 1]%nat) (allRows 3)
              [1; 2; 3] [9; 9; 9]) as (Hsame & _).
  - intros _ _ row Hrow _. apply list_elem_of_In in Hrow.
    destruct Hrow as [<-|[<-|[<-|[]]]]; vm_compute; lia.
  - reflexivity.
  - intros row Hrow. destruct row as [|[|[|row]]];
      try (exfalso; apply Hrow, list_elem_of_In; vm_compute; auto; fail).
    reflexivity.
  - exact Hsame.
Defined.

(** ** The selection after a lookup *)

Lemma findFirstBit_le (bits : list bool) (b row : nat) :
  findFirstBit bits = Some b -> bits !! row = Some true -> (b <= row)%nat.
Proof.
  revert b row. induction bits as [|bit bits IH]; intros b row;
    cbn [findFirstBit]; [discriminate|].
  destruct bit; [intros [= <-] _; lia|].
  destruct (findFirstBit bits) as [b'|]; cbn; [|discriminate].
  intros [= <-]. destruct row as [|row]; cbn; [discriminate|].
  intros Hrow. pose proof (IH b' row eq_refl Hrow). lia.
Qed.

Lemma findFirstBit_None (bits : list bool) (row : nat) :
  findFirstBit bits = None -> bits !! row <> Some true.
Proof.
  revert row. induction bits as [|bit bits IH]; intros row;
    cbn [findFirstBit]; [intros _; rewrite lookup_nil; discriminate|].
  destruct bit; [discriminate|].
  destruct (findFirstBit bits) as [b'|]; cbn; [discriminate|].
  intros _. destruct row as [|row]; cbn; [discriminate | apply IH; reflexivity].
Qed.

Lemma findLastBit_None (bits : list bool) (row : nat) :
  findLastBit bits = None -> bits !! row <> Some true.
Proof.
  revert row. induction bits as [|bit bits IH]; intros row;
    cbn [findLastBit]; [intros _; rewrite lookup_nil; discriminate|].
  destruct (findLastBit bits); [discriminate|].
  destruct bit; [discriminate|]. intros _.
  destruct row as [|row]; cbn; [discriminate | apply IH; reflexivity].
Qed.

Lemma findLastBit_ge (bits : list bool) (e row : nat) :
  findLastBit bits = Some e -> bits !! row = Some true -> (row <= e)%nat.
Proof.
  revert e row. induction bits as [|bit bits IH]; intros e row;
    cbn [findLastBit]; [discriminate|].
  destruct (findLastBit bits) as [e'|] eqn:Hlast.
  - intros [= <-]. destruct row as [|row]; cbn; [lia|].
    intros Hrow. pose proof (IH e' row eq_refl Hrow). lia.
  - destruct bit; [|discriminate]. intros [= <-].
    destruct row as [|row]; cbn; [lia|]. intros Hrow.
    destruct (findLastBit_None bits row Hlast Hrow).
Qed.

(** With the bounds up to date, the rows visited are the rows whose bit
    is set. *)
Lemma selectedRows_updateBounds (rows : SelectivityVector) (row : nat) :
  row ∈ selectedRows (updateBounds rows) <-> isValid rows row = true.
Proof.
  unfold selectedRows. rewrite list_elem_of_In, List.filter_In, List.in_seq.
  rewrite isValid_updateBounds. split; [tauto|]. intros Hvalid.
  split; [|exact Hvalid].
  assert (Hbit : bits_ rows !! row = Some true).
  { unfold isValid in Hvalid.
    destruct (bits_ rows !! row) as [[|]|]; [reflexivity | discriminate ..]. }
  unfold updateBounds.
  destruct (findFirstBit (bits_ rows)) as [b|] eqn:Hfirst.
  - destruct (findLastBit (bits_ rows)) as [e|] eqn:Hlast.
    + cbn [begin_ end_].
      pose proof (findFirstBit_le _ _ _ Hfirst Hbit).
      pose proof (findLastBit_ge _ _ _ Hlast Hbit). lia.
    + exfalso. exact (findLastBit_None _ row Hlast Hbit).
  - exfalso. exact (findFirstBit_None _ row Hfirst Hbit).
Qed.

(** X23: The probe continues with exactly the rows it can map: when the bounds
    of the selection are up to date, the rows selected after
    [lookupValueIds] are the rows that were selected before and hold null
    or a value with an id. *)
Theorem lookupValueIds_keeps_mappable_rows {T : Type} `{NativeTypeLaws T}
    (h : VectorHasher) (d : DecodedVector T) (rows : SelectivityVector)
    (result : list Z) (row : nat) :
  indicesInBase d rows -> updateBounds rows = rows ->
  row ∈ selectedRows (fst (lookupValueIdsTyped h d rows result)) <->
  row ∈ selectedRows rows /\ mappableAt h d row = true.
Proof.
  intros Hbase Hbounds.
  rewrite <- (lookupValueIdsTyped_bounds h d result rows Hbounds).
  rewrite selectedRows_updateBounds.
  assert (Hsel : row ∈ selectedRows rows <-> isValid rows row = true)
    by (rewrite <- Hbounds at 1; apply selectedRows_updateBounds).
  split.
  - intros Hvalid.
    destruct (decide (row ∈ selectedRows rows)) as [Hrow|Hrow].
    + split; [exact Hrow|].
      pose proof (lookupValueIdsTyped_row h d result rows row Hbase Hrow)
        as Hlooked.
      destruct (mappableAt h d row); [reflexivity|].
      destruct Hlooked as [Hcleared _]. congruence.
    + exfalso. apply Hrow, Hsel.
      apply (lookupValueIdsTyped_unselected h d result rows row Hrow).
      exact Hvalid.
  - intros [Hrow Hmap].
    pose proof (lookupValueIdsTyped_row h d result rows row Hbase Hrow)
      as Hlooked.
    rewrite Hmap in Hlooked. apply Hlooked.
Qed.

Lemma lookupValueIds_keeps_mappable_rows_witness :
  let h := snd (enableValueIds
                  (foldl (@analyzeValue_string designLimits)
                     (newHasher VARCHAR)
                     ["apple"; "banana"; "cherry"]%string) 1 0) in
  let probe := flatVector ["date"; "apple"; "elder"; "cherry"]%string
                 [false; false; false; false] in
  1%nat ∈ selectedRows
            (fst (@lookupValueIdsTyped StringView
                    (@StringView_native designLimits) h probe (allRows 4)
                    [7; 7; 7; 7])).
Proof.
  cbv zeta.
  apply (@lookupValueIds_keeps_mappable_rows StringView
           (@StringView_native designLimits) (@StringView_laws designLimits)).
  - intros _ Hi. discriminate.
  - reflexivity.
  - split; [apply list_elem_of_In; vm_compute; auto | vm_compute; reflexivity].
Defined.

(** ** The ids of the distinct encoding *)

(** X24: The ids of a well-numbered set fit the domain that [enableValueIds]
    sets up: every stored id lies between 1 and [rangeSize_ - 1], so that
    0 stays free for null, and two entries with the same id are the same
    entry. *)
Theorem distinct_ids_fit_domain (h : VectorHasher) (multiplier reserve : Z) :
  wellNumbered (uniqueValues_ h) ->
  0 <= reserve ->
  uniqueValues_size (uniqueValues_ h) + 1 + reserve < two64 ->
  (forall u, u ∈ uniqueValues_ h ->
     1 <= id_ u < rangeSize_ (snd (enableValueIds h multiplier reserve))) /\
  (forall u v, u ∈ uniqueValues_ h -> v ∈ uniqueValues_ h ->
     id_ u = id_ v -> u = v).
Proof.
  intros [Hids _] Hreserve Hfits. split.
  - intros u Hu. apply list_elem_of_lookup in Hu as [k Hk].
    unfold enableValueIds.
    destruct (builtin_mul_overflow multiplier _) as [overflow result].
    cbn [snd withEncoding rangeSize_].
    rewrite u64_small by (unfold uniqueValues_size in *; lia).
    rewrite (Hids k u Hk). apply lookup_lt_Some in Hk.
    unfold uniqueValues_size. lia.
  - intros u v Hu Hv Hsame.
    apply list_elem_of_lookup in Hu as [k Hk].
    apply list_elem_of_lookup in Hv as [j Hj].
    rewrite (Hids k u Hk), (Hids j v Hj) in Hsame.
    assert (k = j) by lia. subst j. congruence.
Qed.

Lemma distinct_ids_fit_domain_witness :
  let h := foldl (@analyzeValue_string designLimits) (newHasher VARCHAR)
             ["apple"; "banana"; "apple"; "cherry"]%string in
  1 <= id_ {| data_ := StringData "banana"; id_ := 2 |}
    < rangeSize_ (snd (enableValueIds h 1 0)).
Proof.
  cbv zeta.
  destruct (distinct_ids_fit_domain
              (foldl (@analyzeValue_string designLimits) (newHasher VARCHAR)
                 ["apple"; "banana"; "apple"; "cherry"]%string) 1 0)
    as [Hfit _].
  - split.
    + intros [|[|[|k]]] u; cbn; intros [= <-]; reflexivity.
    + apply (bool_decide_unpack _). vm_compute. reflexivity.
  - lia.
  - vm_compute. reflexivity.
  - apply Hfit. apply list_elem_of_In. vm_compute. auto.
Defined.

(** ** The budget of distinct values under the analysis *)

(** X25: The analysis honours [kMaxDistinct]: a hasher without distinct
    overflow holds at most [kMaxDistinct] values, and the value that
    exceeds the budget is the last one to go in, so that the set never
    holds more than [kMaxDistinct + 1]. *)
Theorem analyzeValue_string_distinct_budget `{Limits} (h : VectorHasher)
    (values : list StringView) :
  uniqueValues_size (uniqueValues_ h) <= kMaxDistinct + 1 ->
  (distinctOverflow_ h = false ->
   uniqueValues_size (uniqueValues_ h) <= kMaxDistinct) ->
  let h' := foldl analyzeValue_string h values in
  uniqueValues_size (uniqueValues_ h') <= kMaxDistinct + 1 /\
  (distinctOverflow_ h' = false ->
   uniqueValues_size (uniqueValues_ h') <= kMaxDistinct).
Proof.
  cbv zeta. revert h. induction values as [|value values IH];
    intros h Hmost Hclean; cbn [foldl]; [split; assumption|].
  destruct (analyzeValue_string_distinct h value) as (Hfrozen & Hknown & Hnew).
  apply IH.
  - destruct (distinctOverflow_ h) eqn:Hd.
    { destruct (Hfrozen eq_refl) as (_ & -> & _). exact Hmost. }
    destruct (uniqueValues_find (StringData value) (uniqueValues_ h))
      as [u|] eqn:Hfind.
    { destruct (Hknown eq_refl) as (_ & -> & _); [discriminate|].
      exact Hmost. }
    destruct (Hnew eq_refl eq_refl) as [-> _].
    rewrite uniqueValues_size_app. specialize (Hclean eq_refl).
    unfold uniqueValues_size at 2. cbn [length]. lia.
  - destruct (distinctOverflow_ h) eqn:Hd.
    { destruct (Hfrozen eq_refl) as (-> & _). discriminate. }
    destruct (uniqueValues_find (StringData value) (uniqueValues_ h))
      as [u|] eqn:Hfind.
    { destruct (Hknown eq_refl) as (_ & -> & _); [discriminate|].
      intros _. apply Hclean. reflexivity. }
    destruct (Hnew eq_refl eq_refl)
      as [-> [(_ & -> & _) | (Hroom & _)]]; [discriminate|].
    intros _. rewrite uniqueValues_size_app.
    unfold uniqueValues_size at 2. cbn [length]. lia.
Qed.

Lemma analyzeValue_string_distinct_budget_witness :
  let small : Limits :=
    {| kMaxRange := 100; kMaxDistinct := 2;
       kMaxDistinctStringsBytes := 1048576; kStringBufferUnitSize := 1024;
       reserveSlack := libstdcxxSlack |} in
  let h := foldl (@analyzeValue_string small) (newHasher VARCHAR)
             ["a"; "b"; "c"; "d"; "e"]%string in
  distinctOverflow_ h = true /\
  uniqueValues_size (uniqueValues_ h) <= 2 + 1.
Proof.
  cbv zeta. split; [vm_compute; reflexivity|].
  apply (@analyzeValue_string_distinct_budget
           {| kMaxRange := 100; kMaxDistinct := 2;
              kMaxDistinctStringsBytes := 1048576;
              kStringBufferUnitSize := 1024;
              reserveSlack := libstdcxxSlack |}
           (newHasher VARCHAR) ["a"; "b"; "c"; "d"; "e"]%string).
  - vm_compute. discriminate.
  - intros _. vm_compute. discriminate.
Defined.

(** ** Strings that need no storage *)

(** X26: A string of at most eight bytes lives in its entry: analysing such
    strings never reserves a buffer and never counts a byte against the
    budget of string bytes. *)
Theorem analyzeValue_string_inline `{Limits} (h : VectorHasher)
    (values : list StringView) :
  (forall value, value ∈ values -> stringSize value <= 8) ->
  uniqueValuesStorage_ (foldl analyzeValue_string h values)
  = uniqueValuesStorage_ h /\
  distinctStringsBytes_ (foldl analyzeValue_string h values)
  = distinctStringsBytes_ h.
Proof.
  revert h. induction values as [|value values IH]; intros h Hshort;
    cbn [foldl]; [split; reflexivity|].
  destruct (IH (analyzeValue_string h value)) as [-> ->];
    [intros v Hv; apply Hshort, list_elem_of_further, Hv|].
  pose proof (Hshort value (list_elem_of_here _ _)) as Hvalue.
  destruct (analyzeValue_string_distinct h value) as (Hfrozen & Hknown & Hnew).
  destruct (distinctOverflow_ h) eqn:Hd.
  { destruct (Hfrozen eq_refl) as (_ & _ & -> & ->). split; reflexivity. }
  destruct (uniqueValues_find (StringData value) (uniqueValues_ h))
    as [u|] eqn:Hfind.
  { destruct (Hknown eq_refl) as (_ & _ & -> & ->); [discriminate|].
    split; reflexivity. }
  destruct (Hnew eq_refl eq_refl)
    as [_ [(_ & _ & -> & ->) | (_ & g & Hsto & Hbytes & _ & _ & -> & ->)]];
    [split; reflexivity|].
  destruct (copyStringToLocal_skips g value (or_introl Hvalue))
    as (-> & -> & _).
  split; assumption.
Qed.

Lemma analyzeValue_string_inline_witness :
  uniqueValuesStorage_
    (foldl (@analyzeValue_string designLimits) (newHasher VARCHAR)
       ["apple"; "banana"; "eightchr"]%string) = [].
Proof.
  destruct (@analyzeValue_string_inline designLimits (newHasher VARCHAR)
              ["apple"; "banana"; "eightchr"]%string) as [Hsto _].
  - intros value Hin. apply list_elem_of_In in Hin.
    destruct Hin as [<-|[<-|[<-|[]]]]; vm_compute; discriminate.
  - exact Hsto.
Defined.

(** ** Keys of more than one column *)

(** X27: The hash of a key of two columns: hashing the first column without
    [mix] and the second with [mix] leaves at every selected row the mix
    of the two hashes, whatever the array held before. *)
Theorem hashValues_two_columns {T1 T2 : Type} `{Inhabited T1}
    `{Inhabited T2} (hasher1 : T1 -> Z) (hasher2 : T2 -> Z)
    (hashMix : Z -> Z -> Z) (d1 : DecodedVector T1) (d2 : DecodedVector T2)
    (rows : SelectivityVector) (result : list Z) (row : nat) :
  indicesInBase d1 rows -> indicesInBase d2 rows ->
  row ∈ selectedRows rows -> (row < length result)%nat ->
  hashValues hasher2 hashMix d2 rows true
    (hashValues hasher1 hashMix d1 rows false result) !! row
  = Some (hashMix (hashAt hasher1 d1 row) (hashAt hasher2 d2 row)).
Proof.
  intros Hbase1 Hbase2 Hrow Hlen.
  destruct (lookup_lt_is_Some_2 result row Hlen) as [old Hold].
  rewrite (hashValues_entry hasher2 hashMix d2 rows true _ row
             (hashAt hasher1 d1 row) Hbase2 Hrow); [reflexivity|].
  rewrite (hashValues_entry hasher1 hashMix d1 rows false result row old
             Hbase1 Hrow Hold).
  reflexivity.
Qed.

Lemma hashValues_two_columns_witness :
  hashValues (fun value : Z => value + 100) (fun a b => a * 37 + b)
    (flatVector [1; 2] [false; true]) (allRows 2) true
    (hashValues (fun value : Z => value * 31 + 7) (fun a b => a * 37 + b)
       (dictionaryVector [0; 5] [1; 0]%nat) (allRows 2) false [9; 9])
  !! 1%nat
  = Some ((0 * 31 + 7) * 37 + kNullHash).
Proof.
  rewrite (@hashValues_two_columns Z Z _ _ (fun value : Z => value * 31 + 7)
             (fun value : Z => value + 100) (fun a b => a * 37 + b)
             (dictionaryVector [0; 5] [1; 0]%nat)
             (flatVector [1; 2] [false; true]) (allRows 2) [9; 9] 1%nat).
  - reflexivity.
  - intros _ _ row Hrow _. apply list_elem_of_In in Hrow.
    destruct Hrow as [<-|[<-|[]]]; vm_compute; lia.
  - intros _ Hi. discriminate.
  - apply list_elem_of_In. vm_compute. auto.
  - cbn. lia.
Defined.

(** X28: The value id of a key of two columns: with the first hasher at a
    multiplier of 1 and the second at a multiplier [m] that is not 1,
    emitting the first column and then the second leaves at every
    selected row the id of the first value plus [m] times the id of the
    second, a null counting as id 0, reduced modulo 2^64. *)
Theorem makeValueIds_two_columns {T1 T2 : Type} `{NativeTypeLaws T1}
    `{NativeTypeLaws T2} (h1 h2 : VectorHasher) (d1 : DecodedVector T1)
    (d2 : DecodedVector T2) (rows : SelectivityVector) (result : list Z)
    (row : nat) :
  indicesInBase d1 rows -> indicesInBase d2 rows ->
  isConstantMapping d1 = false -> isConstantMapping d2 = false ->
  multiplier_ h1 = 1 -> multiplier_ h2 <> 1 ->
  (forall value : T1, 0 <= valueId h1 value < two64) ->
  (forall r, r ∈ selectedRows rows -> mappableAt h1 d1 r = true) ->
  (forall r, r ∈ selectedRows rows -> mappableAt h2 d2 r = true) ->
  holdsRows rows result -> row ∈ selectedRows rows ->
  let id1 := match logicalAt d1 row with
             | Some value => valueId h1 value
             | None => 0
             end in
  let id2 := match logicalAt d2 row with
             | Some value => valueId h2 value
             | None => 0
             end in
  emitted (makeValueIds h2 d2 rows
             (emitted (makeValueIds h1 d1 rows result))) !! row
  = Some (u64 (id1 + multiplier_ h2 * id2)).
Proof.
  intros Hbase1 Hbase2 Hc1 Hc2 Hm1 Hm2 Hids Hmap1 Hmap2 Hholds Hrow.
  cbv zeta.
  destruct (Hholds row Hrow) as (old & Hold & Hrange).
  destruct (makeValueIds_mapped h1 d1 rows result Hbase1 Hmap1)
    as (_ & _ & Hfirst & _); [rewrite Hc1; discriminate|].
  destruct (makeValueIds_mapped h2 d2 rows
              (emitted (makeValueIds h1 d1 rows result)) Hbase2 Hmap2)
    as (_ & _ & Hsecond & _); [rewrite Hc2; discriminate|].
  assert (Hone : packedAt h1 d1 row old
                 = match logicalAt d1 row with
                   | Some value => valueId h1 value
                   | None => 0
                   end).
  { unfold packedAt. rewrite Hm1. destruct (logicalAt d1 row); reflexivity. }
  assert (Hin : 0 <= packedAt h1 d1 row old < two64).
  { rewrite Hone. destruct (logicalAt d1 row); [apply Hids|].
    unfold two64. lia. }
  rewrite (Hsecond row _ Hrow (Hfirst row old Hrow Hold Hrange) Hin).
  f_equal. unfold packedAt at 1.
  replace (multiplier_ h2 =? 1) with false
    by (symmetry; apply Z.eqb_neq; exact Hm2).
  rewrite Hone.
  destruct (logicalAt d2 row); [reflexivity|].
  rewrite Z.mul_0_r, Z.add_0_r. symmetry. apply u64_small.
  rewrite <- Hone. exact Hin.
Qed.

Lemma makeValueIds_two_columns_witness :
  let h1 := snd (enableValueIds
                   (foldl (@analyzeValue_string designLimits)
                      (newHasher VARCHAR) ["apple"; "banana"]%string) 1 0) in
  let h2 := snd (enableValueIds
                   (foldl (@analyzeValue_string designLimits)
                      (newHasher VARCHAR)
                      ["x"; "y"; "z"]%string) 3 0) in
  emitted
    (@makeValueIds StringView (@StringView_native designLimits) h2
       (dictionaryVector ["z"; "x"]%string [0; 1]%nat) (allRows 2)
       (emitted
          (@makeValueIds StringView (@StringView_native designLimits) h1
             (flatVector ["banana"; "apple"]%string [false; false])
             (allRows 2) [0; 0])))
  !! 0%nat
  = Some (2 + 3 * 3).
Proof.
  cbv zeta.
  rewrite (@makeValueIds_two_columns StringView StringView
             (@StringView_native designLimits)
             (@StringView_laws designLimits)
             (@StringView_native designLimits)
             (@StringView_laws designLimits)
             (snd (enableValueIds
                     (foldl (@analyzeValue_string designLimits)
                        (newHasher VARCHAR) ["apple"; "banana"]%string) 1 0))
             (snd (enableValueIds
                     (foldl (@analyzeValue_string designLimits)
                        (newHasher VARCHAR) ["x"; "y"; "z"]%string) 3 0))
             (flatVector ["banana"; "apple"]%string [false; false])
             (dictionaryVector ["z"; "x"]%string [0; 1]%nat)
             (allRows 2) [0; 0] 0%nat).
  - vm_compute. reflexivity.
  - intros _ Hi. discriminate.
  - intros _ _ row Hrow _. apply list_elem_of_In in Hrow.
    destruct Hrow as [<-|[<-|[]]]; vm_compute; lia.
  - reflexivity.
  - reflexivity.
  - reflexivity.
  - vm_compute. discriminate.
  - intros value. cbn [valueId StringView_native].
    unfold valueId_string, valueId_distinct.
    cbn [isRange_ enableValueIds snd withEncoding uniqueValues_].
    change (isRange_ _) with false. cbv iota.
    destruct (uniqueValues_find _ _) as [u|] eqn:Hfind;
      [|unfold kUnmappable, two64; lia].
    apply uniqueValues_find_Some in Hfind as [Hin _].
    apply list_elem_of_In in Hin.
    destruct Hin as [<-|[<-|[]]]; vm_compute;
      (split; [discriminate | reflexivity]).
  - intros row Hrow. apply list_elem_of_In in Hrow.
    destruct Hrow as [<-|[<-|[]]]; vm_compute; reflexivity.
  - intros row Hrow. apply list_elem_of_In in Hrow.
    destruct Hrow as [<-|[<-|[]]]; vm_compute; reflexivity.
  - intros row Hrow. apply list_elem_of_In in Hrow.
    destruct Hrow as [<-|[<-|[]]]; exists 0;
      (split; [reflexivity | unfold two64; lia]).
  - apply list_elem_of_In. vm_compute. auto.
Defined.

(** ** [getFilter] *)

(** X29: [getFilter] builds a filter for the integer kinds only, and only
    without distinct overflow; it then lists the distinct values in the
    order of their insertion and passes [nullAllowed] on.  After a merge
    without overflow the filter lists the values of both hashers, each
    once when the local set held no value twice. *)
Theorem getFilter_after_merge (h other : VectorHasher) (nullAllowed : bool) :
  (getFilter h nullAllowed <> None <->
   (typeKind_ h = TINYINT \/ typeKind_ h = SMALLINT \/
    typeKind_ h = INTEGER \/ typeKind_ h = BIGINT) /\
   distinctOverflow_ h = false) /\
  (forall values allowed,
     getFilter h nullAllowed = Some (values, allowed) ->
     values = data_ <$> uniqueValues_ h /\ allowed = nullAllowed) /\
  (getFilter h nullAllowed <> None ->
   distinctOverflow_ other = false ->
   exists values,
     getFilter (merge h other) nullAllowed = Some (values, nullAllowed) /\
     (forall d, d ∈ values <->
        d ∈ (data_ <$> uniqueValues_ h) \/
        d ∈ (data_ <$> uniqueValues_ other)) /\
     (NoDup (data_ <$> uniqueValues_ h) -> NoDup values)).
Proof.
  assert (Hiff : getFilter h nullAllowed <> None <->
            (typeKind_ h = TINYINT \/ typeKind_ h = SMALLINT \/
             typeKind_ h = INTEGER \/ typeKind_ h = BIGINT) /\
            distinctOverflow_ h = false).
  { unfold getFilter.
    destruct (typeKind_ h), (distinctOverflow_ h); cbn [negb]; split;
      try (intros Hsome;
           first [ exfalso; apply Hsome; reflexivity
                 | split; [auto 6 | reflexivity] ]);
      intros [Hk Hd];
      first [ discriminate
            | destruct Hk as [Hk|[Hk|[Hk|Hk]]]; discriminate ]. }
  split; [exact Hiff|]. split.
  - intros values allowed. unfold getFilter.
    destruct (typeKind_ h), (distinctOverflow_ h); cbn [negb];
      try discriminate; intros [= <- <-]; split; reflexivity.
  - intros Hsome Hother. apply Hiff in Hsome as [Hkind Hd].
    assert (Hk : isBoolean (typeKind_ h) = false)
      by (destruct Hkind as [Hk|[Hk|[Hk|Hk]]]; rewrite Hk; reflexivity).
    assert (Hm : typeKind_ (merge h other) = typeKind_ h /\
                 distinctOverflow_ (merge h other) = false /\
                 uniqueValues_ (merge h other)
                 = mergeUniqueValues (uniqueValues_ h) (uniqueValues_ other)).
    { unfold merge. rewrite Hk.
      match goal with
      | |- context [if ?c then withRange _ _ _ _ _
                    else withRange _ _ _ _ _] => destruct c
      end; cbn [withRange distinctOverflow_ uniqueValues_];
        rewrite Hd, Hother; cbn [negb andb];
        repeat split; assumption. }
    destruct Hm as (Hty & Hover & Huniq).
    exists (data_ <$> uniqueValues_ (merge h other)). split; [|split].
    + unfold getFilter. rewrite Hty, Hover.
      destruct Hkind as [Hkind|[Hkind|[Hkind|Hkind]]]; rewrite Hkind;
        reflexivity.
    + intros d. rewrite Huniq. apply mergeUniqueValues_contents.
    + intros Hnd. rewrite Huniq.
      destruct (mergeUniqueValues_fresh (uniqueValues_ other)
                  (uniqueValues_ h)) as (fresh & -> & _ & Hmem & Hndf).
      rewrite fmap_app. apply NoDup_app. split; [exact Hnd|].
      split; [|exact Hndf]. intros d Hmine Hf.
      apply Hmem in Hf as [_ Hnot]. exact (Hnot Hmine).
Qed.

Lemma getFilter_after_merge_witness :
  let a := withDistinct (newHasher BIGINT) false
             [ {| data_ := IntData 7; id_ := 1 |};
               {| data_ := IntData 9; id_ := 2 |} ] in
  let b := withDistinct (newHasher BIGINT) false
             [ {| data_ := IntData 9; id_ := 1 |};
               {| data_ := IntData 11; id_ := 2 |} ] in
  exists values,
    getFilter (merge a b) true = Some (values, true) /\
    (forall d, d ∈ values <->
       d ∈ (data_ <$> uniqueValues_ a) \/
       d ∈ (data_ <$> uniqueValues_ b)) /\
    (NoDup (data_ <$> uniqueValues_ a) -> NoDup values).
Proof.
  cbv zeta.
  destruct (getFilter_after_merge
              (withDistinct (newHasher BIGINT) false
                 [ {| data_ := IntData 7; id_ := 1 |};
                   {| data_ := IntData 9; id_ := 2 |} ])
              (withDistinct (newHasher BIGINT) false
                 [ {| data_ := IntData 9; id_ := 1 |};
                   {| data_ := IntData 11; id_ := 2 |} ]) true)
    as (_ & _ & Hmerged).
  apply Hmerged; [discriminate | reflexivity].
Defined.
